(** * lightshowpi, [synchronized_lights.py]

    A shallow embedding of the light synchronisation script: the adaptive
    threshold loop (limit / offct), the band analysis of
    [calculate_levels], the gzip'd csv sync cache, the main play loop and
    the choice of the song from the playlist, followed by the properties
    established about them.

    Numbers.  Python floats are IEEE 754 binary64 values; they are modelled
    by [spec_float] with precision 53 and maximal exponent 1024, and every
    arithmetic operation of the script is the correctly rounded operation
    of [SpecFloat].  Python integers are [Z].

    Effects.  The globals the loop mutates ([limit], [offct], [cache]),
    the levels of the GPIO pins and a count of the calls of
    [calculate_levels] are one [state] record passed along; what a block
    does to the outside (GPIO writes, audio, log lines) is a list of
    events.  An exception that ends the script is [None].  The files are
    a map from path to content.

    Libraries.  The transform (numpy's rfft), the summation order of
    numpy's mean, the gzip codec, the iteration order of a Python set and
    [random.randint] are parameters of the development; csv, [int],
    [struct.unpack], slices, [str.split], [str.join] and [os.path] are
    written out for the uses the script makes of them. *)

From Stdlib Require Import ZArith Lia Bool List String Ascii.
From Stdlib Require Import Floats.SpecFloat.
From stdpp Require Import gmap strings list.

Local Open Scope Z_scope.

(** ** Binary64 arithmetic *)

Abbreviation float := spec_float.

Definition prec : Z := 53.
Definition emax : Z := 1024.

Definition fmul : float -> float -> float := SFmul prec emax.
Definition fdiv : float -> float -> float := SFdiv prec emax.
Definition fadd : float -> float -> float := SFadd prec emax.

(** [a < b] and [a > b] on floats; both are false as soon as one side is
    a NaN. *)
Definition flt (a b : float) : bool := SFltb a b.
Definition fgt (a b : float) : bool := SFltb b a.
Definition fle (a b : float) : bool := SFleb a b.
Definition feq (a b : float) : bool := SFeqb a b.

Definition is_nan (a : float) : bool :=
  match a with S754_nan => true | _ => false end.

(** Conversion of a Python int to a float (exact below 2^53). *)
Definition of_Z (n : Z) : float := binary_normalize prec emax n 0 false.

Definition fzero : float := S754_zero false.

(** The float literals of the script, as the doubles nearest to the
    decimal text: [0.6], [1.2] and [0.8]. *)
Definition c0_6 : float := S754_finite false 5404319552844595 (-53).
Definition c1_2 : float := S754_finite false 5404319552844595 (-52).
Definition c0_8 : float := S754_finite false 7205759403792794 (-53).

(** A float is a well-formed binary64 datum. *)
Definition valid (a : float) : bool := valid_binary prec emax a.

(** ** Python helpers *)

(** [l[a:b:1]] on a list: negative bounds count from the end, bounds are
    clamped to the length, an inverted range is empty. *)
Definition py_slice {A} (l : list A) (a b : Z) : list A :=
  let n := Z.of_nat (length l) in
  let norm i := if i <? 0 then Z.max 0 (i + n) else Z.min i n in
  take (Z.to_nat (norm b - norm a)) (drop (Z.to_nat (norm a)) l).

Definition is_space (c : ascii) : bool :=
  let n := nat_of_ascii c in
  ((9 <=? n)%nat && (n <=? 13)%nat) || (n =? 32)%nat.

Definition digit_of (c : ascii) : option Z :=
  let n := nat_of_ascii c in
  if ((48 <=? n)%nat && (n <=? 57)%nat) then Some (Z.of_nat n - 48) else None.

Fixpoint digits_val (cs : list ascii) (acc : Z) : option Z :=
  match cs with
  | [] => Some acc
  | c :: cs' =>
      match digit_of c with
      | Some d => digits_val cs' (10 * acc + d)
      | None => None
      end
  end.

Fixpoint drop_spaces (cs : list ascii) : list ascii :=
  match cs with
  | c :: cs' => if is_space c then drop_spaces cs' else cs
  | [] => []
  end.

(** [int(s)] for a Python 2 str: surrounding white space is dropped, one
    optional sign (white space may follow it), then at least one decimal
    digit; [None] is ValueError. *)
Definition py_int (s : string) : option Z :=
  let cs := rev (drop_spaces (rev (drop_spaces (list_ascii_of_string s)))) in
  let signed :=
    match cs with
    | c :: cs' =>
        if Ascii.eqb c "-" then (true, drop_spaces cs')
        else if Ascii.eqb c "+" then (false, drop_spaces cs')
        else (false, cs)
    | [] => (false, [])
    end in
  match snd signed with
  | [] => None
  | ds =>
      match digits_val ds 0 with
      | Some v => Some (if fst signed then - v else v)
      | None => None
      end
  end.

(** [struct.unpack("%dh" % (len(data)/2), data)]: little-endian signed
    16-bit samples; a str of odd length is a struct.error ([None]). *)
Definition int16 (lo hi : ascii) : Z :=
  let u := Z.of_nat (nat_of_ascii lo) + 256 * Z.of_nat (nat_of_ascii hi) in
  if u <? 32768 then u else u - 65536.

Fixpoint unpack_h (data : string) : option (list Z) :=
  match data with
  | EmptyString => Some []
  | String lo (String hi rest) =>
      match unpack_h rest with
      | Some v => Some (int16 lo hi :: v)
      | None => None
      end
  | String _ EmptyString => None
  end.

(** [os.path.dirname] and [os.path.basename] (posixpath.split). *)
Definition is_slash (c : ascii) : bool := Ascii.eqb c "/".

Fixpoint take_until_slash (cs : list ascii) : list ascii :=
  match cs with
  | c :: cs' => if is_slash c then [] else c :: take_until_slash cs'
  | [] => []
  end.

Fixpoint drop_slashes (cs : list ascii) : list ascii :=
  match cs with
  | c :: cs' => if is_slash c then drop_slashes cs' else cs
  | [] => []
  end.

Definition path_split (p : string) : string * string :=
  let r := rev (list_ascii_of_string p) in
  let tail_r := take_until_slash r in
  let head_r := drop (length tail_r) r in
  let head_r' := if forallb is_slash head_r then head_r else drop_slashes head_r in
  (string_of_list_ascii (rev head_r'), string_of_list_ascii (rev tail_r)).

Definition dirname (p : string) : string := fst (path_split p).
Definition basename (p : string) : string := snd (path_split p).

(** ** The csv dialect of the cache

    [csv.writer(f, delimiter=',')] and [csv.reader(f, delimiter=',')] with
    the default (excel) dialect, on the fragment the script uses: fields
    that hold no delimiter, quote or line break are written unquoted and
    joined by commas, each row ends with CR LF.  Quoted fields are not
    part of this model: the reader below is faithful on unquoted text
    only, such as the script itself writes (it keeps a quote character,
    which [csv.reader] would strip, and skips a lone CR, on which
    [csv.reader] raises). *)

Definition CR : ascii := "013"%char.
Definition LF : ascii := "010"%char.
Definition comma : ascii := ","%char.
Definition crlf : string := String CR (String LF EmptyString).

Fixpoint join_fields (fields : list string) : string :=
  match fields with
  | [] => EmptyString
  | [f] => f
  | f :: rest => f +:+ String comma (join_fields rest)
  end.

Definition csv_writerow (fields : list string) : string :=
  join_fields fields +:+ crlf.

Fixpoint csv_writerows (rows : list (list string)) : string :=
  match rows with
  | [] => EmptyString
  | r :: rest => csv_writerow r +:+ csv_writerows rest
  end.

(** End of a record: a blank line is the empty row. *)
Definition csv_finish (row : list string) (fld : string) : list string :=
  match row, fld with
  | [], EmptyString => []
  | _, _ => row ++ [fld]
  end.

(** The reader, scanning the text with the field and the row read so far. *)
Fixpoint csv_scan (s : string) (fld : string) (row : list string)
  : list (list string) :=
  match s with
  | EmptyString =>
      match row, fld with
      | [], EmptyString => []
      | _, _ => [row ++ [fld]]
      end
  | String c rest =>
      if Ascii.eqb c comma then csv_scan rest EmptyString (row ++ [fld])
      else if Ascii.eqb c LF then csv_finish row fld :: csv_scan rest EmptyString []
      else if Ascii.eqb c CR then csv_scan rest fld row
      else csv_scan rest (fld +:+ String c EmptyString) row
  end.

Definition csv_reader (text : string) : list (list string) :=
  csv_scan text EmptyString [].

(** A field the unquoted dialect carries unchanged. *)
Fixpoint plain_chars (s : string) : bool :=
  match s with
  | EmptyString => true
  | String c rest =>
      negb (Ascii.eqb c comma) && negb (Ascii.eqb c LF) && negb (Ascii.eqb c CR)
      && negb (Ascii.eqb c "034"%char) && plain_chars rest
  end.

Definition plain_field (s : string) : bool :=
  match s with
  | EmptyString => false
  | _ => plain_chars s
  end.

(** The text up to and including its last line break: the lines a reader
    has delivered in full when its stream breaks off. *)
Fixpoint complete_lines (s : string) : string :=
  match s with
  | EmptyString => EmptyString
  | String c rest =>
      match complete_lines rest with
      | EmptyString => if Ascii.eqb c LF then String c EmptyString else EmptyString
      | t => String c t
      end
  end.

(** ** Module-level data of the script *)

Definition gpio : list Z := [11; 12; 13; 15; 16; 18; 22; 7].
Definition weighting : list Z := [2; 2; 4; 4; 8; 16; 32; 16].
Definition chunk : Z := 4096.

(** [limit = [5,5,5,5,5,5,5,5]]: the ints compare and multiply as the
    float 5.0. *)
Definition limit_init : list float := replicate 8 (of_Z 5).
Definition offct_init : list Z := replicate 8 0.

(** Band edges in Hz, as used by [calculate_levels]. *)
Definition band_edges : list (Z * Z) :=
  [(0, 156); (156, 313); (313, 625); (625, 1250); (1250, 2500);
   (2500, 5000); (5000, 10000); (10000, 15000)].

(** ** The threshold loop, for one channel

    Lines 232-246 for one index [i]: [lim] is [limit[i]], [off] is
    [offct[i]] and [m] is [matrix[i]]. *)

(** [if limit[i] < matrix[i] * 0.6: limit[i] = limit[i] * 1.2] *)
Definition grows (lim m : float) : bool := flt lim (fmul m c0_6).

Definition recalibrate (lim m : float) : float :=
  if grows lim m then fmul lim c1_2 else lim.

(** [if matrix[i] > limit[i]], on the limit as just recalibrated. *)
Definition decide_on (lim m : float) : bool := fgt m (recalibrate lim m).

(** The off branch decays when the incremented counter exceeds 10. *)
Definition decays (lim : float) (off : Z) (m : float) : bool :=
  negb (decide_on lim m) && (10 <? off + 1).

Definition channel_step (lim : float) (off : Z) (m : float)
  : float * Z * bool :=
  let lim1 := recalibrate lim m in
  if fgt m lim1 then (lim1, 0, true)
  else
    let off1 := off + 1 in
    if 10 <? off1 then (fmul lim1 c0_8, 0, false)
    else (lim1, off1, false).

(** A channel followed over a sequence of band values: the limit, the
    counter, the decision and whether a decay happened, after each
    update. *)
Fixpoint channel_run (lim : float) (off : Z) (ms : list float)
  : list (float * Z * bool * bool) :=
  match ms with
  | [] => []
  | m :: rest =>
      let '(lim', off', on) := channel_step lim off m in
      (lim', off', on, decays lim off m) :: channel_run lim' off' rest
  end.

(** ** Effects of the script *)

Inductive event :=
| GpioOutput (pin : Z) (level : bool)
| PcmWrite (data : string)
| LogGrow (channel : nat) (lim : float)
| LogOff (channel : nat) (lim : float)
| LogRanOut.

(** The mutable data of a run: the two controller arrays, the in-memory
    cache, the levels of the GPIO pins and the number of calls of
    [calculate_levels]. *)
Record state := mkState {
  limit : list float;
  offct : list Z;
  cache : list (list string);
  pins : gmap Z bool;
  fft_calls : nat
}.

Definition set_pin (i : nat) (level : bool) (st : state)
  : option (state * list event) :=
  pin ← gpio !! i;
  Some (mkState (limit st) (offct st) (cache st)
          (<[pin := level]> (pins st)) (fft_calls st),
        [GpioOutput pin level]).

Definition TurnOnLight (i : nat) := set_pin i true.
Definition TurnOffLight (i : nat) := set_pin i false.

(** A loop body run for the indices of [idx] in turn, threading the state
    and collecting the events; [None] is an exception escaping. *)
Fixpoint for_each {S : Type} (idx : list nat)
    (body : nat -> S -> option (S * list event)) (s : S)
  : option (S * list event) :=
  match idx with
  | [] => Some (s, [])
  | i :: rest =>
      '(s1, ev1) ← body i s;
      '(s2, ev2) ← for_each rest body s1;
      Some (s2, ev1 ++ ev2)
  end.

Definition TurnOffLights (st : state) : option (state * list event) :=
  for_each (seq 0 8) TurnOffLight st.

Definition pins_init : gmap Z bool := ∅.

Definition state_init : state :=
  mkState limit_init offct_init [] pins_init 0.

(** ** Auxiliary notions for the rounding lemmas *)

(** The exponent binary64 rounding gives a positive value [M * 2^E]. *)
Definition grid (M : positive) (E : Z) : Z :=
  Z.max (Z.pos (digits2_pos M) + E - 53) (-1074).

(** The float a rounded mantissa [q] at exponent [g] stands for: an
    underflow to zero, a mantissa that fits, or a carry into the next
    binade; above the largest exponent it is an infinity. *)
Definition round_result (s : bool) (q g : Z) : float :=
  if q =? 0 then S754_zero s
  else if q <? 2 ^ 53 then
    if g <=? 971 then S754_finite s (Z.to_pos q) g else S754_infinity s
  else
    if g + 1 <=? 971 then S754_finite s (Z.to_pos (2 ^ 52)) (g + 1)
    else S754_infinity s.

(** A positive float: [+inf], or finite and not below the subnormal
    exponent. *)
Definition positive_float (t : float) : Prop :=
  match t with
  | S754_infinity false => True
  | S754_finite false _ e => -1074 <= e
  | _ => False
  end.

(** A positive finite binary64 datum. *)
Definition positive_finite (t : float) : Prop :=
  match t with
  | S754_finite false m e => bounded prec emax m e = true
  | _ => False
  end.


(** The field written for a decision. *)
Definition bit (on : bool) : string := if on then "1"%string else "0"%string.

(** A sync record: rows of on/off fields, all of one width. *)
Definition sync_record (width : nat) (rows : list (list string)) : Prop :=
  Forall (fun row => length row = width
                     /\ Forall (fun f => exists b, f = bit b) row) rows.

(** The pin of a channel. *)
Definition pin_of (i : nat) : Z := default 0 (gpio !! i).

(** The GPIO writes that put the levels [bs] on the channels [idx]. *)
Definition vector_writes (idx : list nat) (bs : list bool) : list (Z * bool) :=
  zip_with (fun i b => (pin_of i, b)) idx bs.

(** The GPIO writes among the events of a block, in order: the channel
    vector the block puts on the lights. *)
Definition gpio_writes (evs : list event) : list (Z * bool) :=
  omap (fun e => match e with GpioOutput p l => Some (p, l) | _ => None end) evs.

(** A left-to-right sum, one possible order for [np.add.reduce]. *)
Definition sum_left (l : list float) : float := foldl fadd fzero l.

(** A stand-in for the transform, for worked examples: the magnitudes of
    the samples themselves. *)
Definition example_rfft_abs (samples : list Z) : list float :=
  (fun z => of_Z (Z.abs z)) <$> samples.

(** Two stereo frames of 16-bit samples. *)
Definition example_block : string := "abcdefgh".

(** A replay state with one cached row. *)
Definition example_replay_state : state :=
  mkState limit_init offct_init
    [bit <$> [true; false; true; true; false; false; true; false]]
    pins_init 0.

(** A transparent container, one possible gzip codec. *)
Definition plain_write (s : string) : string := s.
Definition plain_read (s : string) : string * bool := (s, true).

(** ** Auxiliary notions for the main loop *)

(** The blocks the loop handles: those read before the first empty
    string, on which [while data != ''] stops. *)
Fixpoint played (blocks : list string) : list string :=
  match blocks with
  | [] => []
  | EmptyString :: _ => []
  | data :: rest => data :: played rest
  end.

(** The audio written among the events, in order. *)
Definition pcm_writes (evs : list event) : list string :=
  omap (fun e => match e with PcmWrite d => Some d | _ => None end) evs.

(** An event that is no audio write. *)
Definition silent (e : event) : Prop :=
  match e with PcmWrite _ => False | _ => True end.

(** ** Auxiliary notions for paths *)

(** A name without a slash, and a path whose last character is one. *)
Definition slash_free (s : string) : bool :=
  forallb (fun c => negb (is_slash c)) (list_ascii_of_string s).

Definition ends_in_slash (s : string) : bool :=
  match rev (list_ascii_of_string s) with
  | c :: _ => is_slash c
  | [] => false
  end.

(** ** Auxiliary notions for the threshold loop *)




(** ** The playlist (lines 79-117)

    The playlist is modelled from the rows its csv reader yields to the
    rows handed to the csv writer; the file locks are not part of the
    model. *)

(** What a song's list holds: the strings of its row, the set of votes
    put in the place of the third one, and the [None] of the initial
    [most_votes]. *)
Inductive item :=
| PyNone
| Str (s : string)
| Votes (v : gset string).

#[global] Instance item_eq_dec : EqDecision item.
Proof. solve_decision. Defined.

(** [len(x)]; [None] is the TypeError of [len(None)]. *)
Definition py_len (x : item) : option nat :=
  match x with
  | PyNone => None
  | Str s => Some (String.length s)
  | Votes v => Some (size v)
  end.

(** [s.split(',')], with the piece read so far. *)
Fixpoint split_from (s : string) (cur : string) : list string :=
  match s with
  | EmptyString => [cur]
  | String c rest =>
      if Ascii.eqb c comma then cur :: split_from rest EmptyString
      else split_from rest (cur +:+ String c EmptyString)
  end.

Definition py_split (s : string) : list string := split_from s EmptyString.

(** [set(field.split(','))] *)
Definition votes_of (field : string) : gset string := list_to_set (py_split field).

(** [most_votes = [None, None, []]]; the empty list stands as the empty
    collection, of length 0. *)
Definition most_votes_init : list item := [PyNone; PyNone; Votes ∅].

(** Lines 86-95, for one row: the song appended to [songs] and the new
    [most_votes]; [None] is the exit on an invalid playlist. *)
Definition read_song (row : list string) (most_votes : list item)
  : option (list item * list item) :=
  let n := length row in
  if ((n <? 2) || (4 <? n))%nat then None
  else if (n =? 2)%nat then Some ((Str <$> row) ++ [Votes ∅], most_votes)
  else
    field ← row !! 2%nat;
    let song := <[2%nat := Votes (votes_of field)]> (Str <$> row) in
    votes ← song !! 2%nat ≫= py_len;
    best ← most_votes !! 2%nat ≫= py_len;
    Some (song,
          if ((n =? 3) && (best <=? votes))%nat then song else most_votes).

(** Lines 84-95. *)
Fixpoint read_playlist (rows : list (list string)) (songs : list (list item))
    (most_votes : list item) : option (list (list item) * list item) :=
  match rows with
  | [] => Some (songs, most_votes)
  | row :: rest =>
      '(song, most_votes') ← read_song row most_votes;
      read_playlist rest (songs ++ [song]) most_votes'
  end.

(** The field csv writes for an item: a str as it is, [None] as the empty
    field.  A set would be written as its [repr]; no list handed to the
    writer holds one. *)
Definition written (x : item) : option string :=
  match x with
  | Str s => Some s
  | PyNone => Some EmptyString
  | Votes _ => None
  end.

Definition as_str (x : item) : option string :=
  match x with Str s => Some s | _ => None end.

(** A field without comma. *)
Fixpoint comma_free (s : string) : bool :=
  match s with
  | EmptyString => true
  | String c rest => negb (Ascii.eqb c comma) && comma_free rest
  end.

(** The number of votes the reading loop counts for a row. *)
Definition vote_count (row : list string) : nat :=
  match row !! 2%nat with
  | Some field => size (votes_of field)
  | None => 0%nat
  end.

(** The song a valid row is read as. *)
Definition song_of (row : list string) : list item :=
  match row with
  | a :: b :: c :: rest => Str a :: Str b :: Votes (votes_of c) :: (Str <$> rest)
  | _ => (Str <$> row) ++ [Votes ∅]
  end.

Definition valid_row (row : list string) : Prop :=
  (2 <= length row <= 4)%nat.

(** Row [i] of the playlist, [row], is the one the reading loop ends on
    as [most_votes]: a row of three fields with at least as many votes
    as every other such row, and more than those after it. *)
Definition best_choice (rows : list (list string)) (i : nat)
    (row : list string) : Prop :=
  rows !! i = Some row /\ length row = 3%nat
  /\ forall j r, rows !! j = Some r -> length r = 3%nat ->
       (vote_count r <= vote_count row)%nat
       /\ ((i < j)%nat -> (vote_count r < vote_count row)%nat).

(** A playlist for worked examples: two votable songs with two distinct
    votes each, one without votes and one already played. *)
Definition example_playlist : list (list string) :=
  [["Song A"; "/music/a.mp3"; "5551,5552,5551"];
   ["Song B"; "/music/b.mp3"; "5553,5554"];
   ["Song C"; "/music/c.mp3"];
   ["Song D"; "/music/d.mp3"; "5551,5552,5553"; "playing!"]]%string.

(** One possible [random.randint]: the lower bound. *)
Definition pick_first (a b : Z) : Z := a.

(** ** Further worked inputs *)

(** A louder stand-in for the transform: a thousand times the magnitudes
    of the samples, enough for a light to go on. *)
Definition example_loud_rfft_abs (samples : list Z) : list float :=
  (fun z => of_Z (1000 * Z.abs z)) <$> samples.

(** A codec whose streams can break off: the first character of a stream
    tells whether it is complete ("G") or was cut short ("T"), the text
    follows.  Reading a stream that was cut short gives its text and then
    fails, as [gzip] does on a file without its trailer: the rows come
    out, then the check of the missing CRC raises an IOError. *)
Definition marked_write (s : string) : string := String "G" s.

Definition marked_read (stream : string) : string * bool :=
  match stream with
  | String c text => (text, Ascii.eqb c "G")
  | EmptyString => (EmptyString, false)
  end.

(** The files of a song whose cache was cut short after one row. *)
Definition example_cut_cache : gmap string string :=
  {[ "/home/pi/music/.a.wav.sync.gz"%string
       := String "T" (csv_writerows [["0"; "1"; "1"; "0"; "0"; "0"; "0"; "0"]%string]) ]}.

Section Script.

(** ** What the script takes from its libraries

    [rfft_abs samples] is [np.abs(np.fft.rfft(samples))]; [add_reduce] is
    the sum numpy takes over a slice, in whatever order it adds, which is
    the float zero on an empty slice.  [gzip_write] is the compressed
    stream written for a text; [gzip_read] gives the text a reader gets out
    of a stream and whether the stream ended cleanly ([false]: an IOError
    was raised after that text). *)
Variable rfft_abs : list Z -> list float.
Variable add_reduce : list float -> float.
Hypothesis add_reduce_nil : add_reduce [] = fzero.
Variable gzip_write : string -> string.
Variable gzip_read : string -> string * bool.
Hypothesis gzip_roundtrip : forall s, gzip_read (gzip_write s) = (s, true).

(** ** calculate_levels *)

(** [piff(val)] is [int(2*chunk*val/sample_rate)], an integer division;
    [None] is ZeroDivisionError. *)
Definition piff (sample_rate val : Z) : option Z :=
  if sample_rate =? 0 then None else Some (2 * chunk * val / sample_rate).

(** [np.mean] of a slice: its sum over its length. *)
Definition np_mean (l : list float) : float :=
  fdiv (add_reduce l) (of_Z (Z.of_nat (length l))).

(** [x.clip(0, 100)] on one value; a NaN stays a NaN. *)
Definition clip (x : float) : float :=
  if flt x (of_Z 0) then of_Z 0
  else if flt (of_Z 100) x then of_Z 100
  else x.

Definition band_mean (power : list float) (sample_rate : Z) (band : Z * Z)
  : option float :=
  a ← piff sample_rate (fst band);
  b ← piff sample_rate (snd band);
  Some (np_mean (py_slice power a b)).

(** [matrix = np.divide(np.multiply(matrix, weighting), 100000)] on one
    value. *)
Definition scale (m : float) (w : Z) : float :=
  fdiv (fmul m (of_Z w)) (of_Z 100000).

(** The part of [calculate_levels] after the transform. *)
Definition band_levels (power : list float) (sample_rate : Z)
  : option (list float) :=
  means ← mapM (band_mean power sample_rate) band_edges;
  Some (clip <$> zip_with scale means weighting).

(** Lines 184-207.  [None] is the struct.error of [unpack] or the
    ZeroDivisionError of [piff].  The transform is a total function
    here: the ValueError of [np.fft.rfft] on an empty block, which the
    main loop never passes, is not modelled. *)
Definition calculate_levels (data : string) (sample_rate : Z)
  : option (list float) :=
  samples ← unpack_h data;
  band_levels (removelast (rfft_abs samples)) sample_rate.

(** ** The main loop *)

Definition with_limits (st : state) (i : nat) (lim : float) (off : Z) : state :=
  mkState (<[i := lim]> (limit st)) (<[i := off]> (offct st))
          (cache st) (pins st) (fft_calls st).

(** Lines 232-246: the body of [for i in range(0,8)] in the fresh branch,
    with the row being built. *)
Definition fresh_channel (matrix : list float) (i : nat)
    (acc : state * list string)
  : option ((state * list string) * list event) :=
  let '(st, entry) := acc in
  lim ← limit st !! i;
  m ← matrix !! i;
  off ← offct st !! i;
  let '(lim', off', on) := channel_step lim off m in
  let st1 := with_limits st i lim' off' in
  let log_grow :=
    if grows lim m then [LogGrow i (recalibrate lim m)] else [] in
  if on then
    '(st2, ev) ← TurnOnLight i st1;
    Some ((st2, entry ++ ["1"%string]), log_grow ++ ev)
  else
    '(st2, ev) ← TurnOffLight i st1;
    Some ((st2, entry ++ ["0"%string]), log_grow ++ LogOff i lim' :: ev).

(** Lines 229 and 231-246: the threshold controller on the band values of
    one block, with the row it builds. *)
Definition controller_update (matrix : list float) (st : state)
  : option (state * list string * list event) :=
  for_each (seq 0 8) (fresh_channel matrix) (st, []).

(** Lines 229-247. *)
Definition fresh_block (data : string) (sample_rate : Z) (st : state)
  : option (state * list event) :=
  matrix ← calculate_levels data sample_rate;
  let st0 := mkState (limit st) (offct st) (cache st) (pins st)
                     (S (fft_calls st)) in
  '(acc, evs) ← controller_update matrix st0;
  let '(st1, entry) := acc in
  Some (mkState (limit st1) (offct st1) (cache st1 ++ [entry]) (pins st1)
                (fft_calls st1), evs).

(** Lines 219-223: [None] is the IndexError of a short row or the
    ValueError of a field that is no integer. *)
Definition replay_channel (entry : list string) (i : nat) (st : state)
  : option (state * list event) :=
  s ← entry !! i;
  n ← py_int s;
  if n =? 0 then TurnOffLight i st else TurnOnLight i st.

(** Lines 217-225. *)
Definition replay_block (row : nat) (st : state)
  : option (state * list event) :=
  match cache st !! row with
  | Some entry => for_each (seq 0 8) (replay_channel entry) st
  | None => Some (st, [LogRanOut])
  end.

(** Lines 212-251, over the successive results of [readframes]; the
    result lists the events of each block. *)
Fixpoint main_loop (cache_found : bool) (sample_rate : Z)
    (blocks : list string) (row : nat) (st : state)
  : option (state * list (list event)) :=
  match blocks with
  | [] => Some (st, [])
  | EmptyString :: _ => Some (st, [])
  | data :: rest =>
      '(st1, ev) ← (if cache_found then replay_block row st
                    else fresh_block data sample_rate st);
      '(st2, evs) ← main_loop cache_found sample_rate rest (S row) st1;
      Some (st2, (PcmWrite data :: ev) :: evs)
  end.

(** ** The cache file *)

Definition cache_filename (file : string) : string :=
  dirname file +:+ "/." +:+ basename file +:+ ".sync.gz".

(** Lines 168-178: the rows read, and [cache_found].  Rows read before an
    IOError stay in [cache]. *)
Definition load_cache (fs : gmap string string) (file : string)
  : list (list string) * bool :=
  match fs !! cache_filename file with
  | None => ([], false)
  | Some stream =>
      let '(text, clean) := gzip_read stream in
      if clean then (csv_reader text, true)
      else (csv_reader (complete_lines text), false)
  end.

(** Lines 254-256. *)
Definition store_cache (fs : gmap string string) (file : string)
    (rows : list (list string)) : gmap string string :=
  <[cache_filename file := gzip_write (csv_writerows rows)]> fs.

(** Lines 254-256 cut short: [writerows] writes the rows to the open file
    one after the other, and when an exception (a KeyboardInterrupt, say)
    is raised in it once [k] rows are written, the [with] statement closes
    the file on the rows written so far. *)
Definition store_interrupted (fs : gmap string string) (file : string)
    (rows : list (list string)) (k : nat) : gmap string string :=
  <[cache_filename file := gzip_write (csv_writerows (take k rows))]> fs.

Record outcome := mkOutcome {
  out_found : bool;
  out_blocks : list (list event);
  out_state : state;
  out_fs : gmap string string
}.

(** The script from line 139 on, for the file it plays, its frame rate,
    the successive blocks of frames and the files on disk.  Line 165,
    which logs the duration and divides by the frame rate, is not
    modelled. *)
Definition play (file : string) (sample_rate : Z) (blocks : list string)
    (fs : gmap string string) : option outcome :=
  '(st0, _) ← TurnOffLights state_init;
  let '(rows, cache_found) := load_cache fs file in
  let st1 := mkState (limit st0) (offct st0) rows (pins st0) (fft_calls st0) in
  '(st2, evs) ← main_loop cache_found sample_rate blocks 0 st1;
  let fs' := if cache_found then fs else store_cache fs file (cache st2) in
  '(st3, _) ← TurnOffLights st2;
  Some (mkOutcome cache_found evs st3 fs').

(** The controller driven by a sequence of band vectors. *)
Fixpoint controller_run (matrices : list (list float)) (st : state)
  : option state :=
  match matrices with
  | [] => Some st
  | matrix :: rest =>
      '(acc, _) ← controller_update matrix st;
      controller_run rest (fst acc)
  end.


(** ** What the playlist code takes from its libraries

    [set_order v] is the order in which Python iterates over the set [v],
    some enumeration of its elements; [randint a b] is the number
    [random.randint(a, b)] returns, within its bounds. *)
Variable set_order : gset string -> list string.
Hypothesis set_order_perm : forall v, set_order v ≡ₚ elements v.
Variable randint : Z -> Z -> Z.
Hypothesis randint_range : forall a b, a <= b -> a <= randint a b <= b.

(** [",".join(x)]: over a set, its elements in iteration order; over a
    str, its characters. *)
Definition py_join (x : item) : option string :=
  match x with
  | Votes v => Some (join_fields (set_order v))
  | Str s =>
      Some (join_fields
              ((fun c => String c EmptyString) <$> list_ascii_of_string s))
  | PyNone => None
  end.

(** Lines 107-112, for one song. *)
Definition update_song (file : item) (song : list item) : option (list item) :=
  path ← song !! 1%nat;
  let song1 :=
    if bool_decide (file = path) && (length song =? 3)%nat
    then song ++ [Str "playing!"] else song in
  x ← song1 !! 2%nat;
  n ← py_len x;
  if (0 <? n)%nat then
    joined ← py_join x;
    Some (<[2%nat := Str joined]> song1)
  else Some (delete 2%nat song1).

(** Lines 80-117: the path of the song to play, and the rows written back
    to the playlist when it is rewritten.  [None] is the exit on an
    invalid playlist or an exception. *)
Definition choose_song (rows : list (list string))
  : option (string * option (list (list string))) :=
  '(songs, most_votes) ← read_playlist rows [] most_votes_init;
  first ← most_votes !! 0%nat;
  if bool_decide (first <> PyNone) then
    file ← most_votes !! 1%nat;
    songs' ← mapM (update_song file) songs;
    out ← mapM (mapM written) songs';
    name ← as_str file;
    Some (name, Some out)
  else
    let n := Z.of_nat (length songs) in
    if n - 1 <? 0 then None
    else
      song ← songs !! Z.to_nat (randint 0 (n - 1));
      path ← song !! 1%nat;
      name ← as_str path;
      Some (name, None).

(** The row written back for a row of the playlist, when [file] is the
    path chosen. *)
Definition rejoin (field : string) : string :=
  join_fields (set_order (votes_of field)).

Definition rewritten (file : string) (row : list string) : list string :=
  match row with
  | [a; b] => if bool_decide (file = b) then [a; b; "playing!"%string] else [a; b]
  | [a; b; c] =>
      if bool_decide (file = b) then [a; b; rejoin c; "playing!"%string]
      else [a; b; rejoin c]
  | a :: b :: c :: rest => a :: b :: rejoin c :: rest
  | _ => row
  end.

(** The slice of the power array that [calculate_levels] averages for a
    band. *)
Definition band_slice (power : list float) (sample_rate : Z) (band : Z * Z)
  : option (list float) :=
  a ← piff sample_rate (fst band);
  b ← piff sample_rate (snd band);
  Some (py_slice power a b).

(** * Properties *)

(** ** Binary64 rounding *)

Lemma digits2_size (p : positive) : digits2_pos p = Pos.size p.
Proof. induction p; simpl; congruence. Qed.

Lemma digits_bounds (p : positive) :
  2 ^ (Z.pos (digits2_pos p) - 1) <= Z.pos p < 2 ^ Z.pos (digits2_pos p).
Proof.
  rewrite digits2_size. split.
  - pose proof (Pos.size_le p) as H.
    assert (Hz : 2 ^ Z.pos (Pos.size p) <= 2 * Z.pos p).
    { change 2 with (Z.pos 2) at 1. rewrite <- Pos2Z.inj_pow. lia. }
    replace (Z.pos (Pos.size p)) with (Z.succ (Z.pos (Pos.size p) - 1)) in Hz by lia.
    rewrite Z.pow_succ_r in Hz by lia. lia.
  - pose proof (Pos.size_gt p) as H.
    change 2 with (Z.pos 2). rewrite <- Pos2Z.inj_pow. lia.
Qed.

(** shr_1 on a non-negative mantissa *)
Lemma shr_1_spec (m : Z) (r s : bool) :
  0 <= m ->
  shr_1 (Build_shr_record m r s) = Build_shr_record (m / 2) (Z.odd m) (r || s).
Proof.
  intros Hm. destruct m as [|p|p]; [reflexivity| |lia].
  destruct p as [p|p|]; unfold shr_1.
  - f_equal. rewrite Pos2Z.inj_xI.
    apply (Z.div_unique (2 * Z.pos p + 1) 2 (Z.pos p) 1); lia.
  - f_equal. rewrite Pos2Z.inj_xO.
    apply (Z.div_unique (2 * Z.pos p) 2 (Z.pos p) 0); lia.
  - reflexivity.
Qed.

Lemma iter_pos_nat {A} (f : A -> A) (n : positive) (x : A) :
  SpecFloat.iter_pos f n x = Nat.iter (Pos.to_nat n) f x.
Proof.
  revert x. induction n as [n IH|n IH|]; intros x; cbn [SpecFloat.iter_pos].
  - rewrite !IH, Pos2Nat.inj_xI, <- Nat.iter_add.
    replace (S (2 * Pos.to_nat n)) with (S (Pos.to_nat n + Pos.to_nat n)) by lia.
    rewrite Nat.iter_succ_r. reflexivity.
  - rewrite !IH, Pos2Nat.inj_xO, <- Nat.iter_add. f_equal. lia.
  - reflexivity.
Qed.

(** [k] right shifts of a non-negative mantissa starting from an exact
    location: quotient, round bit and sticky bit. *)
Lemma shr_iter_spec (k : nat) (m : Z) :
  0 <= m ->
  Nat.iter (S k) shr_1 (Build_shr_record m false false) =
  Build_shr_record (m / 2 ^ Z.of_nat (S k))
    (Z.odd (m / 2 ^ Z.of_nat k))
    (negb (m mod 2 ^ Z.of_nat k =? 0)).
Proof.
  intros Hm. induction k as [|k IH].
  - change (Nat.iter 1 shr_1 ?y) with (shr_1 y).
    rewrite shr_1_spec by done.
    change (2 ^ Z.of_nat 0) with 1. change (2 ^ Z.of_nat 1) with 2.
    rewrite Z.div_1_r, Z.mod_1_r. reflexivity.
  - rewrite Nat.iter_succ, IH.
    assert (Hp : 0 < 2 ^ Z.of_nat k) by (apply Z.pow_pos_nonneg; lia).
    assert (Hp1 : 2 ^ Z.of_nat (S k) = 2 ^ Z.of_nat k * 2)
      by (rewrite Nat2Z.inj_succ, Z.pow_succ_r by lia; lia).
    assert (Hp2 : 2 ^ Z.of_nat (S (S k)) = 2 ^ Z.of_nat (S k) * 2)
      by (rewrite (Nat2Z.inj_succ (S k)), Z.pow_succ_r by lia; lia).
    rewrite shr_1_spec by (apply Z.div_pos; lia).
    f_equal.
    + rewrite Hp2, Z.div_div by lia. reflexivity.
    + rewrite Hp1, Z.rem_mul_r, Zodd_mod by lia.
      pose proof (Z.mod_pos_bound m (2 ^ Z.of_nat k) Hp).
      pose proof (Z.mod_pos_bound (m / 2 ^ Z.of_nat k) 2 ltac:(lia)).
      destruct (Z.eqb_spec (m mod 2 ^ Z.of_nat k) 0) as [E|E];
      destruct (Z.eqb_spec ((m / 2 ^ Z.of_nat k) mod 2) 1) as [E1|E1]; simpl;
      symmetry; try (apply Z.eqb_neq); try (apply Z.eqb_eq); nia.
Qed.

(** Rounding to nearest after a right shift by [n] bits keeps the result
    within half a unit of the shifted-out weight. *)
Lemma round_shift (M e n : Z) :
  0 < M -> 0 <= n ->
  exists q,
    round_nearest_even
      (shr_m (fst (shr (Build_shr_record M false false) e n)))
      (loc_of_shr_record (fst (shr (Build_shr_record M false false) e n))) = q
    /\ snd (shr (Build_shr_record M false false) e n) = e + n
    /\ 2 * M - 2 ^ n <= 2 * (q * 2 ^ n) <= 2 * M + 2 ^ n
    /\ M / 2 ^ n <= q <= M / 2 ^ n + 1.
Proof.
  intros HM Hn. eexists; split; [reflexivity|].
  destruct n as [|p|p]; [| |lia].
  - simpl. rewrite Z.div_1_r. lia.
  - unfold shr. cbn [fst snd]. split; [reflexivity|].
    rewrite iter_pos_nat.
    destruct (Pos2Nat.is_succ p) as [k Hk]. rewrite Hk.
    rewrite shr_iter_spec by lia. cbn [shr_m loc_of_shr_record].
    assert (Hpk : Z.pos p = Z.of_nat (S k)) by lia. rewrite Hpk.
    assert (HP : 0 < 2 ^ Z.of_nat k) by (apply Z.pow_pos_nonneg; lia).
    assert (Hp1 : 2 ^ Z.of_nat (S k) = 2 ^ Z.of_nat k * 2)
      by (rewrite Nat2Z.inj_succ, Z.pow_succ_r by lia; lia).
    rewrite Hp1. set (P := 2 ^ Z.of_nat k) in *.
    pose proof (Z.div_mod M (P * 2) ltac:(lia)) as Hdm.
    pose proof (Z.rem_mul_r M P 2 ltac:(lia) ltac:(lia)) as Hrem.
    pose proof (Z.mod_pos_bound M P HP) as Hb1.
    pose proof (Z.mod_pos_bound (M / P) 2 ltac:(lia)) as Hb2.
    rewrite Zodd_mod.
    set (q0 := M / (P * 2)) in *.
    destruct (Z.eqb_spec ((M / P) mod 2) 1) as [E1|E1];
    destruct (Z.eqb_spec (M mod P) 0) as [E0|E0]; cbn [negb round_nearest_even].
    + destruct (Z.even q0); nia.
    + nia.
    + nia.
    + nia.
Qed.

Lemma round_aux_spec (s : bool) (M : positive) (E : Z) :
  E <= grid M E ->
  exists q,
    2 * Z.pos M - 2 ^ (grid M E - E) <= 2 * (q * 2 ^ (grid M E - E))
      <= 2 * Z.pos M + 2 ^ (grid M E - E)
    /\ 0 <= q <= 2 ^ 53
    /\ (-1074 < grid M E -> 2 ^ 52 <= q)
    /\ binary_round_aux prec emax s (Z.pos M) E loc_Exact
       = round_result s q (grid M E).
Proof.
  intros Hg. set (g := grid M E) in *.
  pose proof (digits_bounds M) as [Dl Du].
  set (d := Z.pos (digits2_pos M)) in *.
  assert (Hgd : g = Z.max (d + E - 53) (-1074)) by reflexivity.
  destruct (round_shift (Z.pos M) E (g - E) ltac:(lia) ltac:(lia))
    as (q & Hq & He & Hb & Hdiv).
  assert (Hn : 0 < 2 ^ (g - E)) by (apply Z.pow_pos_nonneg; lia).
  assert (Hq53 : Z.pos M / 2 ^ (g - E) < 2 ^ 53).
  { apply Z.div_lt_upper_bound; [done|].
    rewrite <- Z.pow_add_r by lia.
    eapply Z.lt_le_trans; [exact Du|]. apply Z.pow_le_mono_r; lia. }
  assert (Hq0 : 0 <= Z.pos M / 2 ^ (g - E)) by (apply Z.div_pos; lia).
  exists q. split; [exact Hb|]. split; [lia|]. split.
  { intros Hgt. assert (g - E = d - 53) by lia.
    assert (2 ^ 52 <= Z.pos M / 2 ^ (g - E)); [|lia].
    apply Z.div_le_lower_bound; [done|].
    rewrite <- Z.pow_add_r by lia.
    replace (g - E + 52) with (d - 1) by lia. exact Dl. }
  unfold binary_round_aux, shr_fexp.
  change (fexp prec emax (Zdigits2 (Z.pos M) + E)) with g.
  change (shr_record_of_loc (Z.pos M) loc_Exact)
    with (Build_shr_record (Z.pos M) false false).
  destruct (shr (Build_shr_record (Z.pos M) false false) E (g - E))
    as [mrs e'] eqn:Hshr.
  cbn [fst snd] in Hq, He. rewrite Hq. clear Hq. subst e'.
  replace (E + (g - E)) with g by lia.
  assert (Hg74 : -1074 <= g) by lia.
  unfold round_result.
  destruct (Z.eqb_spec q 0) as [Hz|Hz].
  - subst q. cbn [Zdigits2 shr_record_of_loc].
    assert (Hle : fexp prec emax (0 + g) - g <= 0)
      by (unfold fexp, SpecFloat.emin, prec, emax; lia).
    destruct (fexp prec emax (0 + g) - g) as [|p|p]; [reflexivity|lia|reflexivity].
  - destruct q as [|qp|qp]; [lia| |lia].
    pose proof (digits_bounds qp) as [Ql Qu].
    cbn [Zdigits2 shr_record_of_loc].
    destruct (Z.ltb_spec (Z.pos qp) (2 ^ 53)) as [Hlt|Hge].
    + assert (Hd53 : Z.pos (digits2_pos qp) <= 53).
      { assert (Z.pos (digits2_pos qp) - 1 < 53); [|lia].
        apply (Z.pow_lt_mono_r_iff 2); lia. }
      assert (Hle : fexp prec emax (Z.pos (digits2_pos qp) + g) - g <= 0)
        by (unfold fexp, SpecFloat.emin, prec, emax; lia).
      destruct (fexp prec emax (Z.pos (digits2_pos qp) + g) - g) as [|p|p];
        [|lia|]; cbn [shr fst snd shr_m]; reflexivity.
    + assert (Hq : Z.pos qp = 2 ^ 53) by lia.
      assert (qp = Z.to_pos (2 ^ 53)) as -> by lia.
      change (Z.pos (digits2_pos (Z.to_pos (2 ^ 53)))) with 54.
      assert (Hone : fexp prec emax (54 + g) - g = 1)
        by (unfold fexp, SpecFloat.emin, prec, emax; lia).
      rewrite Hone. reflexivity.
Qed.

Lemma round_result_valid (s : bool) (q g : Z) :
  0 <= q <= 2 ^ 53 -> -1074 <= g -> (-1074 < g -> 2 ^ 52 <= q) ->
  valid (round_result s q g) = true.
Proof.
  intros Hq Hg Hn. unfold round_result.
  destruct (Z.eqb_spec q 0); [reflexivity|].
  destruct (Z.ltb_spec q (2 ^ 53)).
  - destruct (Z.leb_spec g 971); [|reflexivity].
    unfold valid, valid_binary, bounded, canonical_mantissa.
    apply andb_true_iff. split; [|apply Z.leb_le; unfold prec, emax; lia].
    apply Z.eqb_eq. destruct q as [|qp|qp]; [lia| |lia].
    cbn [Z.to_pos]. pose proof (digits_bounds qp) as [Ql Qu].
    assert (Z.pos (digits2_pos qp) - 1 < 53) by (apply (Z.pow_lt_mono_r_iff 2); lia).
    unfold fexp, SpecFloat.emin, prec, emax.
    destruct (Z.eq_dec g (-1074)); [lia|].
    assert (52 < Z.pos (digits2_pos qp)); [|lia].
    apply (Z.pow_lt_mono_r_iff 2); lia.
  - destruct (Z.leb_spec (g + 1) 971); [|reflexivity].
    unfold valid, valid_binary, bounded, canonical_mantissa.
    apply andb_true_iff. split; [|apply Z.leb_le; unfold prec, emax; lia].
    apply Z.eqb_eq.
    change (Z.pos (digits2_pos (Z.to_pos (2 ^ 52)))) with 53.
    unfold fexp, SpecFloat.emin, prec, emax. lia.
Qed.

Lemma fmul_finite (sx sy : bool) (mx my : positive) (ex ey : Z) :
  fmul (S754_finite sx mx ex) (S754_finite sy my ey)
  = binary_round_aux prec emax (xorb sx sy) (Z.pos (mx * my)) (ex + ey) loc_Exact.
Proof. reflexivity. Qed.

Lemma flt_finite (m1 m2 : positive) (e1 e2 : Z) :
  flt (S754_finite false m1 e1) (S754_finite false m2 e2) = true
  <-> e1 < e2 \/ (e1 = e2 /\ Z.pos m1 < Z.pos m2).
Proof.
  unfold flt, SFltb, SFcompare.
  change (Pos.compare_cont Eq m1 m2) with (Pos.compare m1 m2).
  destruct (Z.compare_spec e1 e2); [|intuition lia|intuition (lia || discriminate)].
  destruct (Pos.compare_spec m1 m2); intuition (lia || discriminate).
Qed.

Lemma fle_finite (m1 m2 : positive) (e1 e2 : Z) :
  fle (S754_finite false m1 e1) (S754_finite false m2 e2) = true
  <-> e1 < e2 \/ (e1 = e2 /\ Z.pos m1 <= Z.pos m2).
Proof.
  unfold fle, SFleb, SFcompare.
  change (Pos.compare_cont Eq m1 m2) with (Pos.compare m1 m2).
  destruct (Z.compare_spec e1 e2); [|intuition lia|intuition (lia || discriminate)].
  destruct (Pos.compare_spec m1 m2); intuition (lia || discriminate).
Qed.

(** Canonical mantissa and exponent of a binary64 datum. *)
Lemma bounded_inv (m : positive) (e : Z) :
  bounded prec emax m e = true ->
  -1074 <= e <= 971 /\ Z.pos m < 2 ^ 53 /\ (-1074 < e -> 2 ^ 52 <= Z.pos m)
  /\ Z.max (Z.pos (digits2_pos m) + e - 53) (-1074) = e.
Proof.
  unfold bounded, canonical_mantissa. intros H.
  apply andb_true_iff in H as [Hc He].
  apply Z.eqb_eq in Hc. apply Z.leb_le in He.
  unfold fexp, SpecFloat.emin, prec, emax in *.
  pose proof (digits_bounds m) as [Dl Du].
  set (d := Z.pos (digits2_pos m)) in *.
  assert (d <= 53) by lia.
  split; [lia|]. split.
  - eapply Z.lt_le_trans; [exact Du|]. apply Z.pow_le_mono_r; lia.
  - split; [|lia]. intros Hgt. assert (d = 53) by lia.
    replace 52 with (d - 1) by lia. exact Dl.
Qed.

(** Multiplying a positive finite float by a positive normal constant. *)
Lemma mul_const_spec (m K : positive) (e ec : Z) :
  2 ^ 52 < Z.pos K < 2 ^ 53 -> -1074 <= e -> -53 <= ec ->
  exists q,
    fmul (S754_finite false m e) (S754_finite false K ec)
      = round_result false q (grid (m * K) (e + ec))
    /\ 0 < q <= 2 ^ 53
    /\ (-1074 < grid (m * K) (e + ec) -> 2 ^ 52 <= q)
    /\ 2 * (q * 2 ^ (grid (m * K) (e + ec) - (e + ec)))
       <= 2 * (Z.pos m * Z.pos K) + 2 ^ (grid (m * K) (e + ec) - (e + ec))
    /\ e + ec <= grid (m * K) (e + ec)
    /\ Z.pos (digits2_pos m) + 52 <= Z.pos (digits2_pos (m * K))
       <= Z.pos (digits2_pos m) + 53.
Proof.
  intros HK He Hec.
  pose proof (digits_bounds m) as [ml mu].
  pose proof (digits_bounds (m * K)) as [Ml Mu].
  set (dm := Z.pos (digits2_pos m)) in *.
  assert (Hdm : 0 < 2 ^ (dm - 1)) by (apply Z.pow_pos_nonneg; lia).
  assert (Hd : dm + 52 <= Z.pos (digits2_pos (m * K)) <= dm + 53).
  { rewrite Pos2Z.inj_mul in Ml, Mu. split.
    - assert (dm - 1 + 52 < Z.pos (digits2_pos (m * K))); [|lia].
      apply (Z.pow_lt_mono_r_iff 2); [lia|lia|].
      rewrite Z.pow_add_r by lia. nia.
    - assert (Z.pos (digits2_pos (m * K)) - 1 < dm + 53); [|lia].
      apply (Z.pow_lt_mono_r_iff 2); [lia|lia|].
      rewrite Z.pow_add_r by lia. nia. }
  assert (Hg : e + ec <= grid (m * K) (e + ec)) by (unfold grid; lia).
  destruct (round_aux_spec false (m * K) (e + ec) Hg) as (q & Hb & Hq & Hn & Hr).
  exists q. rewrite fmul_finite. cbn [xorb]. split; [exact Hr|].
  set (g := grid (m * K) (e + ec)) in *.
  assert (Hpow : 0 < 2 ^ (g - (e + ec))) by (apply Z.pow_pos_nonneg; lia).
  rewrite Pos2Z.inj_mul in Hb.
  assert (Hsmall : 2 ^ (g - (e + ec)) < 2 * (Z.pos m * Z.pos K)).
  { rewrite Pos2Z.inj_mul in Ml, Mu.
    destruct (Z.eq_dec g (-1074)) as [Eg|Eg].
    - assert (2 ^ (g - (e + ec)) <= 2 ^ 53) by (apply Z.pow_le_mono_r; lia).
      nia.
    - assert (g - (e + ec) = Z.pos (digits2_pos (m * K)) - 53) by (unfold g, grid in *; lia).
      assert (2 ^ (g - (e + ec)) <= 2 ^ (Z.pos (digits2_pos (m * K)) - 1))
        by (apply Z.pow_le_mono_r; lia).
      lia. }
  repeat split; try lia; nia.
Qed.

Lemma fmul_positive (t : float) (K : positive) (ec : Z) :
  2 ^ 52 < Z.pos K < 2 ^ 53 -> -53 <= ec ->
  positive_float t -> positive_float (fmul t (S754_finite false K ec)).
Proof.
  intros HK Hec Ht.
  destruct t as [s|[|]| |[|] m e]; try contradiction; [exact I|].
  cbn [positive_float] in Ht.
  destruct (mul_const_spec m K e ec HK Ht Hec) as (q & Hr & Hq & _ & _ & Hg & _).
  rewrite Hr. unfold round_result.
  assert (-1074 <= grid (m * K) (e + ec)) by (unfold grid; lia).
  destruct (Z.eqb_spec q 0); [lia|].
  destruct (q <? 2 ^ 53).
  - destruct (grid (m * K) (e + ec) <=? 971); cbn [positive_float]; [lia|exact I].
  - destruct (grid (m * K) (e + ec) + 1 <=? 971); cbn [positive_float]; [lia|exact I].
Qed.

Lemma positive_float_gt_zero (t : float) :
  positive_float t -> fgt t fzero = true.
Proof.
  destruct t as [s|[|]| |[|] m e]; try contradiction; reflexivity.
Qed.

(** Multiplying by a constant below one never raises a positive float. *)
Lemma mul_shrink (K m : positive) (e : Z) :
  2 ^ 52 < Z.pos K < 2 ^ 53 ->
  bounded prec emax m e = true ->
  exists m' e',
    fmul (S754_finite false m e) (S754_finite false K (-53))
      = S754_finite false m' e'
    /\ bounded prec emax m' e' = true
    /\ (e' < e \/ (e' = e /\ Z.pos m' <= Z.pos m)).
Proof.
  intros HK Hb. destruct (bounded_inv m e Hb) as (He & Hm & Hn & Hc).
  destruct (mul_const_spec m K e (-53)) as (q & Hr & Hq & Hqn & Hub & Hg & Hd);
    [lia|lia|lia|].
  pose proof (round_result_valid false q (grid (m * K) (e + -53))
                ltac:(lia) ltac:(unfold grid; lia) Hqn) as Hv.
  rewrite <- Hr in Hv. rewrite Hr in *. clear Hr.
  set (g := grid (m * K) (e + -53)) in *.
  assert (Hge : -1074 <= g <= e) by (unfold g, grid in *; lia).
  change (2 ^ 52) with 4503599627370496 in *.
  unfold round_result in *.
  destruct (Z.eqb_spec q 0); [lia|].
  destruct (Z.ltb_spec q (2 ^ 53)).
  - destruct (Z.leb_spec g 971); [|lia].
    exists (Z.to_pos q), g. split; [reflexivity|]. split; [exact Hv|].
    destruct (Z.eq_dec g e) as [Eg|Eg]; [right|left; lia].
    split; [done|]. rewrite Z2Pos.id by lia.
    replace (g - (e + -53)) with 53 in Hub by lia.
    change (2 ^ 53) with 9007199254740992 in *. nia.
  - destruct (Z.leb_spec (g + 1) 971).
    + exists (Z.to_pos 4503599627370496), (g + 1).
      split; [reflexivity|]. split; [exact Hv|].
      assert (q = 2 ^ 53) by lia. subst q.
      destruct (Z.eq_dec g e) as [Eg|Eg].
      * exfalso. replace (g - (e + -53)) with 53 in Hub by lia.
        change (2 ^ 53) with 9007199254740992 in *. nia.
      * destruct (Z.eq_dec (g + 1) e); [right|left; lia].
        split; [done|].
        change (Z.pos (Z.to_pos 4503599627370496)) with 4503599627370496.
        apply Hn. lia.
    + exfalso.
      assert (q = 2 ^ 53) by lia. subst q.
      assert (g = e) by lia.
      replace (g - (e + -53)) with 53 in Hub by lia.
      change (2 ^ 53) with 9007199254740992 in *. nia.
Qed.

Lemma of_Z_5 : of_Z 5 = S754_finite false 5629499534213120 (-50).
Proof. reflexivity. Qed.
Lemma of_Z_60 : of_Z 60 = S754_finite false 8444249301319680 (-47).
Proof. reflexivity. Qed.
Lemma of_Z_72 : of_Z 72 = S754_finite false 5066549580791808 (-46).
Proof. reflexivity. Qed.
Lemma of_Z_100 : of_Z 100 = S754_finite false 7036874417766400 (-46).
Proof. reflexivity. Qed.

(** A band value of at most 100 gives a growth bound [m * 0.6] of at most
    60. *)
Lemma growth_bound (mb : positive) (eb : Z) :
  bounded prec emax mb eb = true ->
  fle (S754_finite false mb eb) (of_Z 100) = true ->
  exists m' e',
    fmul (S754_finite false mb eb) c0_6 = S754_finite false m' e'
    /\ fle (S754_finite false m' e') (of_Z 60) = true.
Proof.
  intros Hb Hle. destruct (bounded_inv mb eb Hb) as (He & Hm & Hn & Hc).
  rewrite of_Z_100 in Hle. apply fle_finite in Hle.
  destruct (mul_const_spec mb 5404319552844595 eb (-53)) as (q & Hr & Hq & Hqn & Hub & Hg & Hd);
    [lia|lia|lia|].
  fold c0_6 in Hr. rewrite Hr. clear Hr.
  pose proof (digits_bounds (mb * 5404319552844595)) as [Ml Mu].
  rewrite Pos2Z.inj_mul in Ml.
  set (g := grid (mb * 5404319552844595) (eb + -53)) in *.
  assert (Hge : -1074 <= g <= eb) by (unfold g, grid in *; lia).
  assert (Hg47 : g <= -47).
  { destruct (Z.eq_dec eb (-46)) as [E|E]; [|lia].
    assert (Z.pos (digits2_pos (mb * 5404319552844595)) - 1 < 105).
    { apply (Z.pow_lt_mono_r_iff 2); [lia|lia|].
      eapply Z.le_lt_trans; [exact Ml|].
      change (2 ^ 105) with 40564819207303340847894502572032. lia. }
    unfold g, grid. lia. }
  rewrite of_Z_60. unfold round_result.
  destruct (Z.eqb_spec q 0); [lia|].
  destruct (Z.ltb_spec q (2 ^ 53)).
  - destruct (Z.leb_spec g 971); [|lia].
    exists (Z.to_pos q), g. split; [reflexivity|].
    apply fle_finite. rewrite Z2Pos.id by lia.
    destruct (Z.eq_dec g (-47)) as [Eg|Eg]; [right|left; lia].
    split; [done|].
    destruct (Z.eq_dec eb (-46)) as [E|E].
    + replace (g - (eb + -53)) with 52 in Hub by lia.
      change (2 ^ 52) with 4503599627370496 in *. lia.
    + assert (eb = -47) by lia.
      replace (g - (eb + -53)) with 53 in Hub by lia.
      change (2 ^ 53) with 9007199254740992 in *. lia.
  - destruct (Z.leb_spec (g + 1) 971); [|lia].
    exists (Z.to_pos (2 ^ 52)), (g + 1). split; [reflexivity|].
    apply fle_finite. change (Z.pos (Z.to_pos (2 ^ 52))) with 4503599627370496.
    assert (q = 2 ^ 53) by lia. subst q.
    destruct (Z.eq_dec g (-47)) as [Eg|Eg]; [exfalso|lia].
    destruct (Z.eq_dec eb (-46)) as [E|E].
    + replace (g - (eb + -53)) with 52 in Hub by lia.
      change (2 ^ 52) with 4503599627370496 in *.
      change (2 ^ 53) with 9007199254740992 in *. lia.
    + assert (eb = -47) by lia.
      replace (g - (eb + -53)) with 53 in Hub by lia.
      change (2 ^ 53) with 9007199254740992 in *. lia.
Qed.

(** A threshold below 60 grows to a threshold below 72. *)
Lemma growth_below_72 (m : positive) (e : Z) :
  bounded prec emax m e = true ->
  flt (S754_finite false m e) (of_Z 60) = true ->
  exists m' e',
    fmul (S754_finite false m e) c1_2 = S754_finite false m' e'
    /\ bounded prec emax m' e' = true
    /\ flt (S754_finite false m' e') (of_Z 72) = true.
Proof.
  intros Hb Hlt. destruct (bounded_inv m e Hb) as (He & Hm & Hn & Hc).
  rewrite of_Z_60 in Hlt. apply flt_finite in Hlt.
  destruct (mul_const_spec m 5404319552844595 e (-52)) as (q & Hr & Hq & Hqn & Hub & Hg & Hd);
    [lia|lia|lia|].
  fold c1_2 in Hr.
  pose proof (round_result_valid false q (grid (m * 5404319552844595) (e + -52))
                ltac:(lia) ltac:(unfold grid; lia) Hqn) as Hv.
  rewrite <- Hr in Hv. rewrite Hr in *. clear Hr.
  set (g := grid (m * 5404319552844595) (e + -52)) in *.
  assert (Hge : -1074 <= g <= e + 1) by (unfold g, grid in *; lia).
  rewrite of_Z_72. unfold round_result in *.
  destruct (Z.eqb_spec q 0); [lia|].
  destruct (Z.ltb_spec q (2 ^ 53)).
  - destruct (Z.leb_spec g 971); [|lia].
    exists (Z.to_pos q), g. split; [reflexivity|]. split; [exact Hv|].
    apply flt_finite. rewrite Z2Pos.id by lia.
    destruct (Z.eq_dec g (-46)) as [Eg|Eg]; [right|left; lia].
    split; [done|].
    assert (e = -47) by lia.
    replace (g - (e + -52)) with 53 in Hub by lia.
    change (2 ^ 53) with 9007199254740992 in *. lia.
  - destruct (Z.leb_spec (g + 1) 971); [|lia].
    exists (Z.to_pos (2 ^ 52)), (g + 1). split; [reflexivity|]. split; [exact Hv|].
    apply flt_finite. change (Z.pos (Z.to_pos (2 ^ 52))) with 4503599627370496.
    assert (q = 2 ^ 53) by lia. subst q.
    destruct (Z.eq_dec g (-46)) as [Eg|Eg]; [exfalso|lia].
    assert (e = -47) by lia.
    replace (g - (e + -52)) with 53 in Hub by lia.
    change (2 ^ 53) with 9007199254740992 in *. lia.
Qed.

(** ** The threshold loop on one channel *)

Lemma grid_ge (m K : positive) (E : Z) :
  2 ^ 52 <= Z.pos K -> E <= grid (m * K) E.
Proof.
  intros HK. pose proof (digits_bounds (m * K)) as [_ Mu].
  rewrite Pos2Z.inj_mul in Mu.
  assert (52 < Z.pos (digits2_pos (m * K))).
  { apply (Z.pow_lt_mono_r_iff 2); [lia|lia|]. nia. }
  unfold grid. lia.
Qed.

(** A negative band value never makes a positive threshold grow. *)
Lemma flt_mul_negative (ml mm K : positive) (el em ec : Z) :
  2 ^ 52 <= Z.pos K ->
  flt (S754_finite false ml el)
      (fmul (S754_finite true mm em) (S754_finite false K ec)) = false.
Proof.
  intros HK. rewrite fmul_finite. cbn [xorb].
  destruct (round_aux_spec true (mm * K) (em + ec) (grid_ge mm K _ HK))
    as (q & _ & _ & _ & Hr).
  rewrite Hr. unfold round_result.
  repeat match goal with |- context [if ?b then _ else _] => destruct b end;
    reflexivity.
Qed.

Lemma c0_6_eq : c0_6 = S754_finite false 5404319552844595 (-53).
Proof. reflexivity. Qed.

Lemma c0_8_eq : c0_8 = S754_finite false 7205759403792794 (-53).
Proof. reflexivity. Qed.

Lemma c1_2_eq : c1_2 = S754_finite false 5404319552844595 (-52).
Proof. reflexivity. Qed.

(** The literals are the doubles nearest to 6/10, 12/10 and 8/10. *)
Lemma literals_nearest :
  c0_6 = fdiv (of_Z 6) (of_Z 10) /\ c1_2 = fdiv (of_Z 12) (of_Z 10)
  /\ c0_8 = fdiv (of_Z 8) (of_Z 10).
Proof. repeat split; vm_compute; reflexivity. Qed.


Lemma recalibrate_positive (lim m : float) :
  positive_float lim -> positive_float (recalibrate lim m).
Proof.
  intros H. unfold recalibrate. destruct (grows lim m); [|exact H].
  rewrite c1_2_eq. apply fmul_positive; [lia|lia|exact H].
Qed.

Lemma channel_step_positive (lim : float) (off : Z) (m : float) :
  positive_float lim -> positive_float (channel_step lim off m).1.1.
Proof.
  intros H. unfold channel_step.
  pose proof (recalibrate_positive lim m H) as Hr.
  destruct (fgt m (recalibrate lim m)); [exact Hr|].
  destruct (10 <? off + 1); [|exact Hr].
  cbn [fst]. rewrite c0_8_eq. apply fmul_positive; [lia|lia|exact Hr].
Qed.

(** Thresholds below 72 and band values of at most 100. *)
Lemma recalibrate_below_72 (lim m : float) :
  positive_finite lim -> flt lim (of_Z 72) = true ->
  valid m = true -> fle m (of_Z 100) = true ->
  positive_finite (recalibrate lim m)
  /\ flt (recalibrate lim m) (of_Z 72) = true.
Proof.
  intros Hl H72 Hm H100. unfold recalibrate.
  destruct (grows lim m) eqn:Hg; [|done].
  destruct lim as [|?| |[|] ml el]; try contradiction.
  cbn [positive_finite] in Hl. unfold grows in Hg.
  assert (H60 : flt (S754_finite false ml el) (of_Z 60) = true).
  { destruct m as [s|[|]| |[|] mm em].
    - destruct s; discriminate Hg.
    - discriminate Hg.
    - discriminate H100.
    - discriminate Hg.
    - rewrite c0_6_eq, flt_mul_negative in Hg by lia. discriminate Hg.
    - destruct (growth_bound mm em Hm H100) as (m' & e' & Hr & Hle).
      rewrite Hr in Hg. rewrite of_Z_60 in *.
      apply flt_finite in Hg. apply fle_finite in Hle. apply flt_finite. lia. }
  destruct (growth_below_72 ml el Hl H60) as (m' & e' & Hr & Hb & Hlt).
  rewrite Hr. split; [exact Hb|exact Hlt].
Qed.

Lemma decay_below_72 (lim : float) :
  positive_finite lim -> flt lim (of_Z 72) = true ->
  positive_finite (fmul lim c0_8) /\ flt (fmul lim c0_8) (of_Z 72) = true.
Proof.
  intros Hl H72.
  destruct lim as [|?| |[|] ml el]; try contradiction.
  cbn [positive_finite] in Hl.
  destruct (mul_shrink 7205759403792794 ml el ltac:(lia) Hl) as (m' & e' & Hr & Hb & Hle).
  rewrite c0_8_eq, Hr. split; [exact Hb|].
  rewrite of_Z_72 in *. apply flt_finite in H72. apply flt_finite. lia.
Qed.

Lemma channel_step_below_72 (lim : float) (off : Z) (m : float) :
  positive_finite lim -> flt lim (of_Z 72) = true ->
  valid m = true -> fle m (of_Z 100) = true ->
  positive_finite (channel_step lim off m).1.1
  /\ flt (channel_step lim off m).1.1 (of_Z 72) = true.
Proof.
  intros Hl H72 Hm H100. unfold channel_step.
  destruct (recalibrate_below_72 lim m Hl H72 Hm H100) as [Hp Hr].
  destruct (fgt m (recalibrate lim m)); [done|].
  destruct (10 <? off + 1); [|done].
  cbn [fst]. apply decay_below_72; done.
Qed.


(** ** The loop over the eight channels *)

Lemma for_each_total {S : Type} (J : S -> Prop)
    (body : nat -> S -> option (S * list event)) (idx : list nat) (s : S) :
  (forall i s, In i idx -> J s -> exists s' ev, body i s = Some (s', ev) /\ J s') ->
  J s ->
  exists s' evs, for_each idx body s = Some (s', evs) /\ J s'.
Proof.
  revert s. induction idx as [|i idx IH]; intros s Hbody Hs.
  - exists s, []. split; [reflexivity|exact Hs].
  - destruct (Hbody i s (or_introl eq_refl) Hs) as (s1 & ev1 & E1 & H1).
    destruct (IH s1) as (s2 & ev2 & E2 & H2); [|exact H1|].
    { intros j t Hj. apply Hbody. right. exact Hj. }
    exists s2, (ev1 ++ ev2). cbn [for_each]. rewrite E1. cbn. rewrite E2. cbn.
    split; [reflexivity|exact H2].
Qed.

Lemma gpio_writes_app (a b : list event) :
  gpio_writes (a ++ b) = gpio_writes a ++ gpio_writes b.
Proof. unfold gpio_writes. apply omap_app. Qed.

Lemma set_pin_inv (i : nat) (level : bool) (st st' : state) (ev : list event) :
  set_pin i level st = Some (st', ev) ->
  exists pin, gpio !! i = Some pin
    /\ st' = mkState (limit st) (offct st) (cache st)
               (<[pin := level]> (pins st)) (fft_calls st)
    /\ ev = [GpioOutput pin level].
Proof.
  unfold set_pin. intros H. destruct (gpio !! i) as [pin|]; [|discriminate].
  cbn in H. inversion H. exists pin. done.
Qed.

Lemma gpio_lookup (i : nat) : (i < 8)%nat -> exists pin, gpio !! i = Some pin.
Proof.
  intros H. do 8 (destruct i as [|i]; [eexists; reflexivity|]). lia.
Qed.

(** What one turn of the fresh loop body does. *)
Lemma fresh_channel_inv (matrix : list float) (i : nat) (st st' : state)
    (entry entry' : list string) (evs : list event) :
  fresh_channel matrix i (st, entry) = Some ((st', entry'), evs) ->
  exists lim off m pin,
    limit st !! i = Some lim /\ offct st !! i = Some off
    /\ matrix !! i = Some m /\ gpio !! i = Some pin
    /\ st' = mkState (<[i := (channel_step lim off m).1.1]> (limit st))
               (<[i := (channel_step lim off m).1.2]> (offct st))
               (cache st)
               (<[pin := (channel_step lim off m).2]> (pins st))
               (fft_calls st)
    /\ entry' = entry ++ [bit (channel_step lim off m).2]
    /\ gpio_writes evs = [(pin, (channel_step lim off m).2)].
Proof.
  unfold fresh_channel. intros H.
  destruct (limit st !! i) as [lim|]; [|discriminate].
  destruct (matrix !! i) as [m|]; [|discriminate].
  destruct (offct st !! i) as [off|]; [|discriminate].
  cbn in H. exists lim, off, m.
  destruct (channel_step lim off m) as [[lim' off'] on]. cbn [fst snd].
  destruct on.
  - unfold TurnOnLight in H.
    destruct (set_pin i true (with_limits st i lim' off')) as [[st2 ev]|] eqn:Hp;
      [|discriminate].
    cbn in H. inversion H; subst; clear H.
    destruct (set_pin_inv _ _ _ _ _ Hp) as (pin & Hpin & -> & ->).
    exists pin. repeat split; try done.
    rewrite gpio_writes_app. destruct (grows lim m); reflexivity.
  - unfold TurnOffLight in H.
    destruct (set_pin i false (with_limits st i lim' off')) as [[st2 ev]|] eqn:Hp;
      [|discriminate].
    cbn in H. inversion H; subst; clear H.
    destruct (set_pin_inv _ _ _ _ _ Hp) as (pin & Hpin & -> & ->).
    exists pin. repeat split; try done.
    rewrite gpio_writes_app. destruct (grows lim m); reflexivity.
Qed.

Lemma fresh_channel_total (matrix : list float) (i : nat) (st : state)
    (entry : list string) :
  (i < 8)%nat -> length (limit st) = 8%nat -> length (offct st) = 8%nat ->
  length matrix = 8%nat ->
  exists r, fresh_channel matrix i (st, entry) = Some r.
Proof.
  intros Hi Hl Ho Hm. unfold fresh_channel.
  destruct (lookup_lt_is_Some_2 (limit st) i ltac:(lia)) as [lim ->].
  destruct (lookup_lt_is_Some_2 matrix i ltac:(lia)) as [m ->].
  destruct (lookup_lt_is_Some_2 (offct st) i ltac:(lia)) as [off ->].
  destruct (gpio_lookup i Hi) as [pin Hpin].
  cbn. destruct (channel_step lim off m) as [[lim' off'] on].
  unfold TurnOnLight, TurnOffLight, set_pin. rewrite Hpin. cbn.
  destruct on; eexists; reflexivity.
Qed.

(** A property of thresholds kept by every channel step is kept by the
    update of a block, which goes through when the arrays have their
    eight entries. *)
Lemma controller_update_keeps (P Q : float -> Prop) (matrix : list float)
    (st : state) :
  (forall lim off m, P lim -> Q m -> P (channel_step lim off m).1.1) ->
  length (limit st) = 8%nat -> length (offct st) = 8%nat ->
  length matrix = 8%nat -> Forall P (limit st) -> Forall Q matrix ->
  exists st' entry evs,
    controller_update matrix st = Some (st', entry, evs)
    /\ length (limit st') = 8%nat /\ length (offct st') = 8%nat
    /\ Forall P (limit st').
Proof.
  intros Hstep Hl Ho Hm HP HQ. unfold controller_update.
  destruct (for_each_total
              (fun acc : state * list string =>
                 length (limit acc.1) = 8%nat /\ length (offct acc.1) = 8%nat
                 /\ Forall P (limit acc.1))
              (fresh_channel matrix) (seq 0 8) (st, []))
    as ([st' entry] & evs & E & H1 & H2 & H3); [|done|].
  - intros i [s e] Hi (Jl & Jo & JP). cbn [fst] in *.
    apply in_seq in Hi.
    destruct (fresh_channel_total matrix i s e ltac:(lia) Jl Jo Hm)
      as [[[s' e'] ev] Hr].
    exists (s', e'), ev. split; [exact Hr|].
    destruct (fresh_channel_inv _ _ _ _ _ _ _ Hr)
      as (lim & off & m & pin & Hlim & Hoff & Hmx & _ & -> & _ & _).
    cbn [fst limit offct]. rewrite !length_insert. repeat split; try done.
    apply Forall_insert; [exact JP|]. apply Hstep.
    + eapply Forall_lookup_1; eassumption.
    + eapply Forall_lookup_1; eassumption.
  - exists st', entry, evs. done.
Qed.

Lemma controller_run_keeps (P Q : float -> Prop) (matrices : list (list float))
    (st : state) :
  (forall lim off m, P lim -> Q m -> P (channel_step lim off m).1.1) ->
  length (limit st) = 8%nat -> length (offct st) = 8%nat ->
  Forall (fun matrix => length matrix = 8%nat /\ Forall Q matrix) matrices ->
  Forall P (limit st) ->
  exists st', controller_run matrices st = Some st' /\ Forall P (limit st').
Proof.
  intros Hstep. revert st.
  induction matrices as [|matrix rest IH]; intros st Hl Ho Hms HP.
  - exists st. done.
  - inversion Hms as [|? ? [Hm HQ] Hrest]; subst.
    destruct (controller_update_keeps P Q matrix st Hstep Hl Ho Hm HP HQ)
      as (st1 & entry & evs & E & Hl1 & Ho1 & HP1).
    destruct (IH st1 Hl1 Ho1 Hrest HP1) as (st' & E' & HP').
    exists st'. cbn [controller_run]. rewrite E. cbn. done.
Qed.

(** ** The threshold controller: invariants and scenarios *)

Lemma channel_run_keeps (P Q : float -> Prop) (ms : list float)
    (lim : float) (off : Z) :
  (forall lim off m, P lim -> Q m -> P (channel_step lim off m).1.1) ->
  P lim -> Forall Q ms ->
  Forall (fun r => P r.1.1.1) (channel_run lim off ms).
Proof.
  intros Hstep. revert lim off.
  induction ms as [|m ms IH]; intros lim off HP HQ; [constructor|].
  inversion HQ as [|? ? Hm Hms]; subst.
  cbn [channel_run]. pose proof (Hstep lim off m HP Hm) as H1.
  destruct (channel_step lim off m) as [[lim' off'] on].
  constructor; [exact H1|]. apply IH; assumption.
Qed.

Lemma initial_limit_positive : positive_float (of_Z 5).
Proof. rewrite of_Z_5. cbn. lia. Qed.

Lemma initial_limit_below_72 :
  positive_finite (of_Z 5) /\ flt (of_Z 5) (of_Z 72) = true.
Proof. split; reflexivity. Qed.

Lemma for_each_keeps {S : Type} (J : S -> Prop)
    (body : nat -> S -> option (S * list event)) (idx : list nat)
    (s s' : S) (evs : list event) :
  (forall i s s' ev, J s -> body i s = Some (s', ev) -> J s') ->
  J s -> for_each idx body s = Some (s', evs) -> J s'.
Proof.
  intros Hbody. revert s evs. induction idx as [|i idx IH]; intros s evs Hs H.
  - cbn in H. inversion H; subst. exact Hs.
  - cbn [for_each] in H.
    apply bind_Some in H as ([s1 ev1] & E1 & H).
    apply bind_Some in H as ([s2 ev2] & E2 & H).
    inversion H; subst; clear H.
    eapply IH; [|exact E2]. eapply Hbody; eassumption.
Qed.

(** In a whole fresh pass of the script, whatever the transform and the
    audio, limits that are positive stay positive. *)
Lemma fresh_run_limits_positive (sample_rate : Z) (blocks : list string)
    (row : nat) (st st' : state) (evs : list (list event)) :
  Forall positive_float (limit st) ->
  main_loop false sample_rate blocks row st = Some (st', evs) ->
  Forall (fun t => fgt t fzero = true) (limit st').
Proof.
  intros HP H.
  assert (HP' : Forall positive_float (limit st')).
  { revert row st evs HP H.
    induction blocks as [|data rest IH]; intros row st evs HP H.
    - cbn in H. inversion H; subst. exact HP.
    - destruct data as [|c data]; [cbn in H; inversion H; subst; exact HP|].
      cbn [main_loop] in H.
      apply bind_Some in H as ([st1 ev] & E1 & H).
      apply bind_Some in H as ([st2 evs0] & E2 & H).
      inversion H; subst; clear H.
      eapply IH; [|exact E2].
      unfold fresh_block in E1.
      apply bind_Some in E1 as (matrix & _ & E1).
      apply bind_Some in E1 as ([[s1 entry] ev1] & E & E1).
      cbv beta iota in E1. inversion E1; subst; clear E1. cbn [limit].
      unfold controller_update in E.
      apply (for_each_keeps
               (fun acc : state * list string => Forall positive_float (limit acc.1))
               _ _ _ _ _) in E; [exact E| |exact HP].
      intros i [s e] [s' e'] ev0 Hs Hr. cbn [fst] in *.
      destruct (fresh_channel_inv _ _ _ _ _ _ _ Hr)
        as (lim & off & m & pin & Hlim & _ & _ & _ & -> & _ & _).
      cbn [limit]. apply Forall_insert; [exact Hs|].
      apply channel_step_positive. eapply Forall_lookup_1; eassumption. }
  eapply Forall_impl; [exact HP'|]. apply positive_float_gt_zero.
Qed.

(** C2.  Starting from the initial limits (5 on every channel), after any
    finite sequence of controller updates, whatever the band values,
    every [limit[i]] is greater than zero: for a whole run of block
    updates, and for one channel after each of its updates.  A step only
    ever leaves a limit alone or multiplies it by 1.2, by 0.8, or by both
    in turn, and no such binary64 product of a positive float is zero,
    negative or a NaN. *)
Theorem thresholds_stay_positive (matrices : list (list float)) :
  Forall (fun matrix => length matrix = 8%nat) matrices ->
  (exists st, controller_run matrices state_init = Some st
     /\ Forall (fun t => fgt t fzero = true) (limit st))
  /\ (forall ms : list float,
        Forall (fun r => fgt r.1.1.1 fzero = true) (channel_run (of_Z 5) 0 ms))
  /\ (forall lim off m,
        (channel_step lim off m).1.1 = lim
        \/ (channel_step lim off m).1.1 = fmul lim c1_2
        \/ (channel_step lim off m).1.1 = fmul lim c0_8
        \/ (channel_step lim off m).1.1 = fmul (fmul lim c1_2) c0_8).
Proof.
  intros Hlen. split; [|split].
  - destruct (controller_run_keeps positive_float (fun _ => True) matrices
                state_init) as (st & E & HP).
    + intros lim off m H _. apply channel_step_positive, H.
    + reflexivity.
    + reflexivity.
    + eapply Forall_impl; [exact Hlen|]. intros mx H. split; [exact H|].
      apply Forall_forall. done.
    + apply Forall_replicate, initial_limit_positive.
    + exists st. split; [exact E|].
      eapply Forall_impl; [exact HP|]. apply positive_float_gt_zero.
  - intros ms.
    eapply Forall_impl;
      [apply (channel_run_keeps positive_float (fun _ => True))|].
    + intros lim off m H _. apply channel_step_positive, H.
    + apply initial_limit_positive.
    + apply Forall_forall. done.
    + intros r. apply positive_float_gt_zero.
  - intros lim off m. unfold channel_step, recalibrate.
    destruct (grows lim m); destruct (fgt m _); destruct (10 <? off + 1);
      cbn [fst]; auto.
Qed.

(** C10.  With every band value a binary64 datum in [0, 100] and the
    limits starting at 5, every limit stays strictly below 72 after every
    update: for a whole run of block updates, and for one channel after
    each of its updates. *)
Theorem thresholds_below_72 (matrices : list (list float)) :
  Forall (fun matrix => length matrix = 8%nat
            /\ Forall (fun m => valid m = true /\ fle fzero m = true
                                /\ fle m (of_Z 100) = true) matrix) matrices ->
  (exists st, controller_run matrices state_init = Some st
     /\ Forall (fun t => flt t (of_Z 72) = true) (limit st))
  /\ (forall ms : list float,
        Forall (fun m => valid m = true /\ fle fzero m = true
                         /\ fle m (of_Z 100) = true) ms ->
        Forall (fun r => flt r.1.1.1 (of_Z 72) = true)
               (channel_run (of_Z 5) 0 ms)).
Proof.
  intros Hms.
  set (P := fun t => positive_finite t /\ flt t (of_Z 72) = true).
  set (Q := fun m => valid m = true /\ fle fzero m = true
                     /\ fle m (of_Z 100) = true).
  assert (Hstep : forall lim off m, P lim -> Q m -> P (channel_step lim off m).1.1).
  { intros lim off m [Hp Hl] (Hv & _ & H100).
    apply channel_step_below_72; assumption. }
  split.
  - destruct (controller_run_keeps P Q matrices state_init Hstep)
      as (st & E & HP); [reflexivity|reflexivity|exact Hms| |].
    + apply Forall_replicate, initial_limit_below_72.
    + exists st. split; [exact E|].
      eapply Forall_impl; [exact HP|]. intros t [_ H]. exact H.
  - intros ms Hq.
    eapply Forall_impl; [apply (channel_run_keeps P Q); [exact Hstep| |exact Hq]|].
    + apply initial_limit_below_72.
    + intros r [_ H]. exact H.
Qed.

Lemma fgt_irrefl (a : float) : fgt a a = false.
Proof.
  unfold fgt, SFltb, SFcompare.
  destruct a as [s|[|]| |[|] m e]; try reflexivity;
    rewrite Z.compare_refl; change (Pos.compare_cont Eq m m) with (Pos.compare m m);
    rewrite Pos.compare_refl; reflexivity.
Qed.

Lemma feq_not_fgt (a b : float) : feq a b = true -> fgt a b = false.
Proof.
  unfold feq, fgt, SFeqb, SFltb, SFcompare.
  destruct a as [sa|[|]| |[|] ma ea], b as [sb|[|]| |[|] mb eb];
    try reflexivity; try discriminate;
    change (Pos.compare_cont Eq ma mb) with (Pos.compare ma mb);
    change (Pos.compare_cont Eq mb ma) with (Pos.compare mb ma);
    rewrite (Z.compare_antisym ea eb), (Pos.compare_antisym ma mb);
    destruct (Z.compare ea eb); try discriminate; try reflexivity;
    destruct (Pos.compare ma mb); try discriminate; reflexivity.
Qed.

(** C3.  A band value equal to the limit it is compared with (the limit
    as just recalibrated) gives an off decision: the loop body appends
    '0' to the row and drives the channel's pin low.  The comparison is
    a strict greater-than. *)
Theorem equal_threshold_is_off (matrix : list float) (i : nat) (st : state)
    (entry : list string) (lim m : float)
    (r : state * list string * list event) :
  limit st !! i = Some lim -> matrix !! i = Some m ->
  m = recalibrate lim m \/ feq m (recalibrate lim m) = true ->
  fresh_channel matrix i (st, entry) = Some r ->
  decide_on lim m = false
  /\ r.1.2 = entry ++ ["0"%string]
  /\ exists pin, gpio !! i = Some pin
       /\ gpio_writes r.2 = [(pin, false)]
       /\ pins r.1.1 !! pin = Some false.
Proof.
  intros Hlim Hm Heq Hr.
  assert (Hoff : fgt m (recalibrate lim m) = false).
  { destruct Heq as [E|E]; [|apply feq_not_fgt, E].
    rewrite E at 1. apply fgt_irrefl. }
  destruct r as [[st' entry'] evs].
  destruct (fresh_channel_inv _ _ _ _ _ _ _ Hr)
    as (lim0 & off & m0 & pin & Hl0 & _ & Hm0 & Hpin & -> & -> & Hw).
  assert (lim0 = lim) as -> by congruence.
  assert (m0 = m) as -> by congruence.
  assert (Hs : (channel_step lim off m).2 = false).
  { unfold channel_step. rewrite Hoff. destruct (10 <? off + 1); reflexivity. }
  rewrite Hs in *. cbn [fst snd pins].
  split; [exact Hoff|]. split; [reflexivity|].
  exists pin. split; [exact Hpin|]. split; [exact Hw|].
  apply lookup_insert_eq.
Qed.

(** C4.  In one update of a channel the limit is first recalibrated (if
    [limit < band * 0.6] it is multiplied by 1.2) and the decision is then
    taken against the recalibrated limit, which an on decision keeps.
    From the initial limit 5.0, one band value 10.0 leaves the limit at
    exactly 6.0 with the channel on; a block of eight such values does so
    on every channel, writes a row of eight '1' and drives the eight pins
    high. *)
Theorem recalibrate_then_decide :
  (forall lim off m,
      recalibrate lim m
        = (if flt lim (fmul m c0_6) then fmul lim c1_2 else lim)
      /\ (channel_step lim off m).2 = fgt m (recalibrate lim m)
      /\ ((channel_step lim off m).2 = true ->
          (channel_step lim off m).1.1 = recalibrate lim m))
  /\ channel_step (of_Z 5) 0 (of_Z 10) = (of_Z 6, 0, true)
  /\ exists st evs,
       controller_update (replicate 8 (of_Z 10)) state_init
         = Some (st, replicate 8 "1"%string, evs)
       /\ limit st = replicate 8 (of_Z 6)
       /\ offct st = replicate 8 0
       /\ gpio_writes evs = (fun pin => (pin, true)) <$> gpio.
Proof.
  split; [|split].
  - intros lim off m. split; [reflexivity|].
    unfold channel_step.
    destruct (fgt m (recalibrate lim m)) eqn:E.
    + split; [reflexivity|]. intros _. reflexivity.
    + destruct (10 <? off + 1); (split; [reflexivity|discriminate]).
  - vm_compute. reflexivity.
  - destruct (controller_update (replicate 8 (of_Z 10)) state_init)
      as [[[st entry] evs]|] eqn:E; [|vm_compute in E; discriminate E].
    exists st, evs.
    assert (entry = replicate 8 "1"%string
            /\ limit st = replicate 8 (of_Z 6)
            /\ offct st = replicate 8 0
            /\ gpio_writes evs = (fun pin => (pin, true)) <$> gpio) as (-> & H).
    { vm_compute in E. inversion E; subst; clear E.
      repeat split; vm_compute; reflexivity. }
    split; [reflexivity|exact H].
Qed.


(** ** The cache file: csv round trip *)

Lemma append_cons (x : ascii) (a b : string) :
  String x a +:+ b = String x (a +:+ b).
Proof. reflexivity. Qed.

Lemma append_assoc (a b c : string) : (a +:+ b) +:+ c = a +:+ (b +:+ c).
Proof.
  induction a as [|x a IH]; [reflexivity|].
  rewrite !append_cons, IH. reflexivity.
Qed.

Lemma append_nil_r (a : string) : a +:+ EmptyString = a.
Proof.
  induction a as [|x a IH]; [reflexivity|]. rewrite append_cons, IH. reflexivity.
Qed.

(** The reader runs through the characters of an unquoted field. *)
Lemma csv_scan_field (f rest fld : string) (row : list string) :
  plain_chars f = true ->
  csv_scan (f +:+ rest) fld row = csv_scan rest (fld +:+ f) row.
Proof.
  revert fld. induction f as [|c f IH]; intros fld Hp.
  - rewrite append_nil_r. reflexivity.
  - cbn [plain_chars] in Hp. repeat (apply andb_true_iff in Hp as [Hp ?]).
    rewrite append_cons. cbn [csv_scan].
    destruct (Ascii.eqb c comma); [discriminate|].
    destruct (Ascii.eqb c LF); [discriminate|].
    destruct (Ascii.eqb c CR); [discriminate|].
    rewrite IH by assumption. rewrite append_assoc. reflexivity.
Qed.

Lemma plain_field_chars (f : string) :
  plain_field f = true -> plain_chars f = true /\ f <> EmptyString.
Proof. destruct f; [discriminate|]. intros H. split; [exact H|discriminate]. Qed.

Lemma csv_scan_crlf (rest fld : string) (row : list string) :
  csv_scan (crlf +:+ rest) fld row
  = csv_finish row fld :: csv_scan rest EmptyString [].
Proof. reflexivity. Qed.

Lemma csv_scan_comma (rest fld : string) (row : list string) :
  csv_scan (String comma rest) fld row
  = csv_scan rest EmptyString (row ++ [fld]).
Proof. reflexivity. Qed.

(** The reader gives back a written row, and goes on with the text after
    it. *)
Lemma csv_scan_row (fields : list string) (rest : string) (row : list string) :
  Forall (fun f => plain_field f = true) fields ->
  fields <> [] ->
  csv_scan (csv_writerow fields +:+ rest) EmptyString row
  = (row ++ fields) :: csv_scan rest EmptyString [].
Proof.
  unfold csv_writerow. revert row.
  induction fields as [|f fields IH]; intros row Hp Hne; [done|].
  inversion Hp as [|? ? Hf Hfs]; subst.
  destruct (plain_field_chars f Hf) as [Hc Hnn].
  destruct fields as [|g fields].
  - cbn [join_fields]. rewrite append_assoc, csv_scan_field by exact Hc.
    rewrite csv_scan_crlf. change (EmptyString +:+ f) with f.
    f_equal. destruct f; [done|]. destruct row; reflexivity.
  - change (join_fields (f :: g :: fields))
      with (f +:+ String comma (join_fields (g :: fields))).
    rewrite !append_assoc, csv_scan_field by exact Hc.
    rewrite append_cons, csv_scan_comma. change (EmptyString +:+ f) with f.
    rewrite <- append_assoc.
    rewrite IH by done. rewrite <- app_assoc. reflexivity.
Qed.

Lemma csv_roundtrip (rows : list (list string)) :
  Forall (fun row => row <> [] /\ Forall (fun f => plain_field f = true) row) rows ->
  csv_reader (csv_writerows rows) = rows.
Proof.
  unfold csv_reader. induction rows as [|r rows IH]; intros H; [reflexivity|].
  inversion H as [|? ? [Hne Hp] Hrest]; subst.
  cbn [csv_writerows]. rewrite csv_scan_row by assumption.
  rewrite IH by assumption. reflexivity.
Qed.

Lemma bit_plain (b : bool) : plain_field (bit b) = true.
Proof. destruct b; reflexivity. Qed.

Lemma sync_record_plain (width : nat) (rows : list (list string)) :
  (0 < width)%nat -> sync_record width rows ->
  Forall (fun row => row <> [] /\ Forall (fun f => plain_field f = true) row) rows.
Proof.
  intros Hw Hrec. eapply Forall_impl; [exact Hrec|]. intros row [Hl Hb]. split.
  - intros ->. cbn in Hl. lia.
  - eapply Forall_impl; [exact Hb|]. intros f [b ->]. apply bit_plain.
Qed.

Lemma load_after_store (fs : gmap string string) (file : string)
    (width : nat) (rows : list (list string)) :
  (0 < width)%nat -> sync_record width rows ->
  load_cache (store_cache fs file rows) file = (rows, true).
Proof.
  intros Hw Hrec. unfold load_cache, store_cache.
  rewrite lookup_insert_eq, gzip_roundtrip.
  rewrite csv_roundtrip by (eapply sync_record_plain; eassumption).
  reflexivity.
Qed.

(** C6.  Storing a sync record (rows of a fixed positive number of on/off
    fields, in block order) for a file and then loading the cache of the
    same file gives the record back, row for row and field for field,
    and reports the cache as found. *)
Theorem store_then_load (fs : gmap string string) (file : string)
    (width : nat) (rows : list (list string)) :
  (0 < width)%nat -> sync_record width rows ->
  load_cache (store_cache fs file rows) file = (rows, true).
Proof.
  intros Hw Hrec.
  pose proof (sync_record_plain width rows Hw Hrec) as Hplain.
  unfold load_cache, store_cache.
  rewrite lookup_insert_eq.
  destruct (gzip_read (gzip_write (csv_writerows rows))) as [text clean] eqn:E.
  rewrite gzip_roundtrip in E. injection E as <- <-.
  f_equal. apply csv_roundtrip, Hplain.
Qed.

Lemma sync_record_take (width : nat) (rows : list (list string)) (k : nat) :
  sync_record width rows -> sync_record width (take k rows).
Proof. unfold sync_record. apply Forall_take. Qed.

(** C9, as the script has it.  The store is not atomic: the record is
    written in place, row by row.  A store that runs to its end leaves
    the complete record in the cache; a store cut short by an exception
    once [k] rows are written leaves a well-formed cache file that holds
    exactly these [k] rows, and the next load finds it and takes this
    beginning of the record for the cache. *)
Theorem store_is_not_atomic (fs : gmap string string) (file : string)
    (width : nat) (rows : list (list string)) (k : nat) :
  (0 < width)%nat -> sync_record width rows ->
  load_cache (store_cache fs file rows) file = (rows, true)
  /\ load_cache (store_interrupted fs file rows k) file = (take k rows, true)
  /\ store_interrupted fs file rows (length rows) = store_cache fs file rows.
Proof.
  intros Hw Hrec. split; [|split].
  - apply (load_after_store fs file width rows Hw Hrec).
  - pose proof (sync_record_plain width _ Hw (sync_record_take width rows k Hrec))
      as Hplain.
    unfold load_cache, store_interrupted.
    rewrite lookup_insert_eq, gzip_roundtrip, csv_roundtrip by exact Hplain.
    reflexivity.
  - unfold store_interrupted, store_cache. rewrite firstn_all. reflexivity.
Qed.

(** ** Replay *)

Lemma gpio_NoDup : NoDup gpio.
Proof. apply (bool_decide_unpack _). vm_compute. exact I. Qed.

Lemma gpio_inj (i j : nat) (pin : Z) :
  gpio !! i = Some pin -> gpio !! j = Some pin -> i = j.
Proof. apply NoDup_lookup, gpio_NoDup. Qed.

(** What one turn of the replay loop body does. *)
Lemma replay_channel_inv (entry : list string) (i : nat) (st st' : state)
    (ev : list event) :
  replay_channel entry i st = Some (st', ev) ->
  exists s n pin,
    entry !! i = Some s /\ py_int s = Some n /\ gpio !! i = Some pin
    /\ st' = mkState (limit st) (offct st) (cache st)
               (<[pin := negb (n =? 0)]> (pins st)) (fft_calls st)
    /\ ev = [GpioOutput pin (negb (n =? 0))].
Proof.
  unfold replay_channel. intros H.
  destruct (entry !! i) as [s|] eqn:Hs; [|discriminate]. cbn in H.
  destruct (py_int s) as [n|] eqn:Hn; [|discriminate]. cbn in H.
  exists s, n.
  destruct (n =? 0); apply set_pin_inv in H as (pin & Hp & -> & ->);
    exists pin; done.
Qed.

(** The replay loop leaves everything but the pins alone, writes one level
    per index, and leaves each index's pin at the level its field gives. *)
Lemma replay_loop_inv (entry : list string) (idx : list nat) (st st' : state)
    (evs : list event) :
  for_each idx (replay_channel entry) st = Some (st', evs) ->
  limit st' = limit st /\ offct st' = offct st /\ cache st' = cache st
  /\ fft_calls st' = fft_calls st
  /\ (forall pin, (forall j, In j idx -> gpio !! j <> Some pin) ->
        pins st' !! pin = pins st !! pin)
  /\ (NoDup idx ->
      forall i pin s n, In i idx -> gpio !! i = Some pin ->
        entry !! i = Some s -> py_int s = Some n ->
        pins st' !! pin = Some (negb (n =? 0))).
Proof.
  revert st st' evs. induction idx as [|i idx IH]; intros st st' evs H.
  - cbn in H. inversion H; subst. repeat split; done.
  - cbn [for_each] in H.
    destruct (replay_channel entry i st) as [[s1 ev1]|] eqn:E1; [|discriminate].
    cbn in H.
    destruct (for_each idx (replay_channel entry) s1) as [[s2 ev2]|] eqn:E2;
      [|discriminate].
    cbn in H. inversion H; subst; clear H.
    destruct (replay_channel_inv _ _ _ _ _ E1) as (s & n & pin & Hs & Hn & Hp & -> & ->).
    destruct (IH _ _ _ E2) as (Hl & Ho & Hc & Hf & Hother & Hset).
    cbn [limit offct cache fft_calls pins] in *.
    repeat split; try done.
    + intros pin' Hnot. rewrite Hother.
      * apply lookup_insert_ne. intros ->. apply (Hnot i); [left; done|done].
      * intros j Hj. apply Hnot. right. exact Hj.
    + intros Hnd i' pin' s' n' Hin Hp' Hs' Hn'.
      apply NoDup_cons in Hnd as [Hni Hnd].
      destruct Hin as [<-|Hin].
      * assert (pin' = pin) as -> by congruence.
        assert (s' = s) as -> by congruence.
        assert (n' = n) as -> by congruence.
        rewrite Hother; [apply lookup_insert_eq|].
        intros j Hj Hpj. apply Hni.
        rewrite (gpio_inj i j pin Hp Hpj). apply list_elem_of_In. exact Hj.
      * eapply Hset; eassumption.
Qed.

Lemma replay_block_past_end (row : nat) (st : state) :
  (length (cache st) <= row)%nat ->
  replay_block row st = Some (st, [LogRanOut]).
Proof.
  intros H. unfold replay_block.
  rewrite (lookup_ge_None_2 (cache st) row H). reflexivity.
Qed.

Lemma main_loop_past_end (sample_rate : Z) (blocks : list string) (row : nat)
    (st : state) :
  (length (cache st) <= row)%nat ->
  exists evs,
    main_loop true sample_rate blocks row st = Some (st, evs)
    /\ Forall (fun ev => exists data, ev = [PcmWrite data; LogRanOut]) evs.
Proof.
  revert row. induction blocks as [|data rest IH]; intros row H.
  - exists []. split; [reflexivity|constructor].
  - destruct data as [|c data]; [exists []; split; [reflexivity|constructor]|].
    destruct (IH (S row) ltac:(lia)) as (evs & E & Hevs).
    exists ([PcmWrite (String c data); LogRanOut] :: evs).
    cbn [main_loop]. rewrite replay_block_past_end by exact H. cbn.
    rewrite E. cbn. split; [reflexivity|].
    constructor; [eexists; reflexivity|exact Hevs].
Qed.

Lemma replay_block_inv (row : nat) (st st' : state) (ev : list event) :
  replay_block row st = Some (st', ev) ->
  limit st' = limit st /\ offct st' = offct st /\ cache st' = cache st
  /\ fft_calls st' = fft_calls st.
Proof.
  unfold replay_block. destruct (cache st !! row) as [entry|].
  - intros H. destruct (replay_loop_inv _ _ _ _ _ H) as (? & ? & ? & ? & _).
    done.
  - intros H. inversion H; subst. done.
Qed.

Lemma main_loop_replay_cache (sample_rate : Z) (blocks : list string)
    (row : nat) (st st' : state) (evs : list (list event)) :
  main_loop true sample_rate blocks row st = Some (st', evs) ->
  cache st' = cache st.
Proof.
  revert row st evs. induction blocks as [|data rest IH]; intros row st evs H.
  - cbn in H. inversion H; subst. reflexivity.
  - destruct data as [|c data]; [cbn in H; inversion H; subst; reflexivity|].
    cbn [main_loop] in H.
    apply bind_Some in H as ([st1 ev] & E1 & H).
    apply bind_Some in H as ([st2 evs0] & E2 & H).
    inversion H; subst; clear H.
    rewrite (IH _ _ _ E2). apply (replay_block_inv _ _ _ _ E1).
Qed.

(** The loop over two runs of blocks, the first without an empty block. *)
Lemma main_loop_app (cache_found : bool) (sample_rate : Z)
    (blocks1 blocks2 : list string) (row : nat) (st st1 st2 : state)
    (evs1 evs2 : list (list event)) :
  Forall (fun data => data <> EmptyString) blocks1 ->
  main_loop cache_found sample_rate blocks1 row st = Some (st1, evs1) ->
  main_loop cache_found sample_rate blocks2 (row + length blocks1) st1
    = Some (st2, evs2) ->
  main_loop cache_found sample_rate (blocks1 ++ blocks2) row st
    = Some (st2, evs1 ++ evs2).
Proof.
  revert row st evs1. induction blocks1 as [|data rest IH];
    intros row st evs1 Hne H1 H2.
  - cbn in H1. inversion H1; subst. cbn [length app] in *.
    rewrite Nat.add_0_r in H2. exact H2.
  - inversion Hne as [|? ? Hd Hrest]; subst.
    destruct data as [|c data]; [done|].
    cbn [main_loop app] in *.
    apply bind_Some in H1 as ([s1 ev] & E1 & H1).
    apply bind_Some in H1 as ([s2 evs0] & E2 & H1).
    inversion H1; subst; clear H1.
    rewrite E1. cbn [mbind option_bind].
    rewrite (IH (S row) s1 evs0 Hrest E2)
      by (cbn [length] in H2; rewrite <- Nat.add_succ_comm in H2; exact H2).
    reflexivity.
Qed.

(** The last block of a run of non-empty blocks is handled in the state
    the blocks before it leave. *)
Lemma main_loop_last (sample_rate : Z) (blocks : list string) (data : string)
    (row : nat) (st st1 : state) (evs1 : list (list event)) :
  Forall (fun data => data <> EmptyString) blocks -> data <> EmptyString ->
  main_loop true sample_rate (blocks ++ [data]) row st = Some (st1, evs1) ->
  exists st0 evs0 ev,
    main_loop true sample_rate blocks row st = Some (st0, evs0)
    /\ replay_block (row + length blocks) st0 = Some (st1, ev).
Proof.
  revert row st evs1. induction blocks as [|d rest IH];
    intros row st evs1 Hne Hd H.
  - destruct data as [|c data]; [done|]. cbn [app main_loop] in H.
    apply bind_Some in H as ([s1 ev] & E1 & H).
    exists st, [], ev. cbn [length]. rewrite Nat.add_0_r.
    cbn in H. inversion H; subst. done.
  - inversion Hne as [|? ? Hd0 Hrest]; subst.
    destruct d as [|c d]; [done|]. cbn [app main_loop] in H.
    apply bind_Some in H as ([s1 ev] & E1 & H).
    apply bind_Some in H as ([s2 evs0] & E2 & H).
    inversion H; subst; clear H.
    destruct (IH _ _ _ Hrest Hd E2) as (st0 & evs0' & ev' & E & Er).
    exists st0, ((PcmWrite (String c d) :: ev) :: evs0'), ev'.
    cbn [main_loop length]. rewrite E1. cbn [mbind option_bind].
    rewrite E. cbn [mbind option_bind].
    rewrite <- Nat.add_succ_comm. done.
Qed.

(** C7.  A replay run over as many blocks as the loaded record has rows,
    followed by further blocks: for each block at or past the end of the
    record the loop writes no pin at all, it only plays the audio and logs
    the warning, and the run ends in the very state, pins included, that
    the block of the last cached row left; in that state every channel's
    pin is at the level the last cached row gave it. *)
Theorem replay_past_end_freezes (sample_rate : Z)
    (blocks1 blocks2 : list string) (st st1 : state)
    (evs1 : list (list event)) :
  Forall (fun data => data <> EmptyString) blocks1 ->
  length blocks1 = length (cache st) ->
  main_loop true sample_rate blocks1 0 st = Some (st1, evs1) ->
  (exists evs2,
     main_loop true sample_rate (blocks1 ++ blocks2) 0 st
       = Some (st1, evs1 ++ evs2)
     /\ Forall (fun ev => gpio_writes ev = []
                          /\ exists data, ev = [PcmWrite data; LogRanOut]) evs2)
  /\ (forall entry i pin s n,
        last (cache st) = Some entry ->
        (i < 8)%nat -> gpio !! i = Some pin ->
        entry !! i = Some s -> py_int s = Some n ->
        pins st1 !! pin = Some (negb (n =? 0))).
Proof.
  intros Hne Hlen H1.
  pose proof (main_loop_replay_cache _ _ _ _ _ _ H1) as Hc.
  split.
  - destruct (main_loop_past_end sample_rate blocks2 (0 + length blocks1) st1)
      as (evs2 & E2 & Hevs); [rewrite Hc; cbn; lia|].
    exists evs2. split.
    + eapply main_loop_app; eassumption.
    + eapply Forall_impl; [exact Hevs|]. intros ev [data ->].
      split; [reflexivity|eexists; reflexivity].
  - intros entry i pin s n Hlast Hi Hp Hs Hn.
    destruct (decide (blocks1 = [])) as [->|Hnil].
    { cbn in Hlen. destruct (cache st); [discriminate Hlast|discriminate Hlen]. }
    destruct (exists_last Hnil) as (init & data & ->).
    apply Forall_app in Hne as [Hinit Hdata].
    inversion Hdata as [|? ? Hd _]; subst.
    destruct (main_loop_last _ _ _ _ _ _ _ Hinit Hd H1) as (st0 & evs0 & ev & E0 & Er).
    pose proof (main_loop_replay_cache _ _ _ _ _ _ E0) as Hc0.
    rewrite length_app in Hlen. cbn in Hlen.
    rewrite last_lookup in Hlast.
    replace (pred (length (cache st))) with (length init) in Hlast by lia.
    unfold replay_block in Er. cbn [Nat.add] in Er.
    rewrite Hc0, Hlast in Er.
    destruct (replay_loop_inv _ _ _ _ _ Er) as (_ & _ & _ & _ & _ & Hset).
    eapply Hset; try eassumption.
    + apply NoDup_ListNoDup, seq_NoDup.
    + apply in_seq. lia.
Qed.

(** ** A fresh run and its replay *)

Lemma py_int_bit (b : bool) : py_int (bit b) = Some (if b then 1 else 0).
Proof. destruct b; reflexivity. Qed.

(** The fresh loop over the channels [k .. k+n-1]: the decisions taken,
    written to the row and to the pins. *)
Lemma fresh_loop_inv (matrix : list float) (n k : nat) (st st' : state)
    (entry entry' : list string) (evs : list event) :
  for_each (seq k n) (fresh_channel matrix) (st, entry) = Some ((st', entry'), evs) ->
  exists bs,
    length bs = n /\ entry' = entry ++ (bit <$> bs)
    /\ gpio_writes evs = vector_writes (seq k n) bs
    /\ cache st' = cache st /\ fft_calls st' = fft_calls st
    /\ (0 < n -> k + n <= 8)%nat.
Proof.
  revert k st entry evs. induction n as [|n IH]; intros k st entry evs H.
  - cbn in H. inversion H; subst. exists []. rewrite app_nil_r.
    repeat split; try done. lia.
  - cbn [seq for_each] in H.
    destruct (fresh_channel matrix k (st, entry)) as [[[s1 e1] ev1]|] eqn:E1;
      [|discriminate].
    cbn in H.
    destruct (for_each (seq (S k) n) (fresh_channel matrix) (s1, e1))
      as [[[s2 e2] ev2]|] eqn:E2; [|discriminate].
    cbn in H. inversion H; subst; clear H.
    destruct (fresh_channel_inv _ _ _ _ _ _ _ E1)
      as (lim & off & m & pin & _ & _ & _ & Hpin & -> & -> & Hw).
    destruct (IH _ _ _ _ E2) as (bs & Hlen & -> & Hws & Hc & Hf & Hk).
    exists ((channel_step lim off m).2 :: bs).
    cbn [length fmap list_fmap]. rewrite <- app_assoc.
    repeat split; try done.
    + lia.
    + rewrite gpio_writes_app, Hw, Hws. cbn [seq vector_writes zip_with app].
      unfold pin_of. rewrite Hpin. reflexivity.
    + intros _. apply lookup_lt_Some in Hpin. cbn in Hpin.
      destruct n; [lia|]. specialize (Hk ltac:(lia)). lia.
Qed.

(** The replay loop over the same channels, on a row that holds the
    fields of those decisions. *)
Lemma replay_loop_same (bs : list bool) (k : nat) (pre post : list string)
    (str : state) :
  length pre = k -> (k + length bs <= 8)%nat ->
  exists str' evs,
    for_each (seq k (length bs))
      (replay_channel (pre ++ (bit <$> bs) ++ post)) str = Some (str', evs)
    /\ gpio_writes evs = vector_writes (seq k (length bs)) bs
    /\ cache str' = cache str /\ fft_calls str' = fft_calls str.
Proof.
  revert k pre str. induction bs as [|b bs IH]; intros k pre str Hk Hle.
  - exists str, []. done.
  - cbn [length] in *.
    destruct (gpio_lookup k ltac:(lia)) as [pin Hpin].
    assert (Hrc : replay_channel (pre ++ (bit <$> b :: bs) ++ post) k str
                  = Some (mkState (limit str) (offct str) (cache str)
                            (<[pin := b]> (pins str)) (fft_calls str),
                          [GpioOutput pin b])).
    { unfold replay_channel.
      rewrite lookup_app_r by lia. rewrite Hk, Nat.sub_diag. cbn.
      rewrite py_int_bit.
      destruct b; cbn; unfold TurnOnLight, TurnOffLight, set_pin;
        rewrite Hpin; reflexivity. }
    set (str1 := mkState (limit str) (offct str) (cache str)
                   (<[pin := b]> (pins str)) (fft_calls str)) in *.
    destruct (IH (S k) (pre ++ [bit b]) str1) as (str' & evs & E & Hw & Hc & Hf).
    { rewrite length_app. cbn. lia. }
    { lia. }
    exists str', ([GpioOutput pin b] ++ evs).
    cbn [seq for_each]. rewrite Hrc. cbn.
    rewrite <- app_assoc in E. cbn in E. rewrite E. cbn.
    repeat split; try done.
    cbn [vector_writes zip_with]. unfold pin_of at 1. rewrite Hpin. cbn.
    f_equal. exact Hw.
Qed.

Lemma fresh_block_inv (data : string) (sample_rate : Z) (st st1 : state)
    (ev : list event) :
  fresh_block data sample_rate st = Some (st1, ev) ->
  exists bs,
    length bs = 8%nat /\ cache st1 = cache st ++ [bit <$> bs]
    /\ gpio_writes ev = vector_writes (seq 0 8) bs.
Proof.
  unfold fresh_block. intros H.
  apply bind_Some in H as (matrix & _ & H).
  apply bind_Some in H as ([[s1 entry] evs] & E & H).
  unfold controller_update in E.
  cbv beta iota in H. inversion H; subst; clear H.
  destruct (fresh_loop_inv _ _ _ _ _ _ _ _ E) as (bs & Hlen & -> & Hw & Hc & _).
  exists bs. cbn [cache] in *. rewrite Hc. done.
Qed.

Lemma bits_row (bs : list bool) :
  Forall (fun f => exists b, f = bit b) (bit <$> bs).
Proof. apply Forall_fmap, Forall_forall. intros b _. exists b. reflexivity. Qed.

(** A fresh pass over the blocks only adds rows of eight on/off fields to
    the cache, and a replay pass over the same blocks with these rows in
    its cache writes the same levels to the pins, block by block, without
    a call of [calculate_levels]. *)
Lemma fresh_then_replay (sample_rate : Z) (blocks : list string) (row : nat)
    (st st2 : state) (evs : list (list event)) :
  main_loop false sample_rate blocks row st = Some (st2, evs) ->
  length (cache st) = row ->
  (exists new, cache st2 = cache st ++ new /\ sync_record 8 new)
  /\ (forall str post,
        cache str = cache st2 ++ post ->
        exists str2 evs',
          main_loop true sample_rate blocks row str = Some (str2, evs')
          /\ gpio_writes <$> evs' = gpio_writes <$> evs
          /\ fft_calls str2 = fft_calls str).
Proof.
  revert row st st2 evs.
  induction blocks as [|data rest IH]; intros row st st2 evs H Hrow.
  - cbn in H. inversion H; subst. split.
    + exists []. rewrite app_nil_r. split; [done|constructor].
    + intros str post _. exists str, []. done.
  - destruct data as [|c data].
    + cbn in H. inversion H; subst. split.
      * exists []. rewrite app_nil_r. split; [done|constructor].
      * intros str post _. exists str, []. done.
    + cbn [main_loop] in H.
      destruct (fresh_block (String c data) sample_rate st) as [[st1 ev]|] eqn:E1;
        [|discriminate].
      cbn in H.
      destruct (main_loop false sample_rate rest (S row) st1) as [[s2 evs0]|] eqn:E2;
        [|discriminate].
      cbn in H. inversion H; subst; clear H.
      destruct (fresh_block_inv _ _ _ _ _ E1) as (bs & Hlen & Hc1 & Hw).
      destruct (IH _ _ _ _ E2) as ((new & Hc2 & Hrec) & Hreplay).
      { rewrite Hc1, length_app. cbn. lia. }
      split.
      * exists ((bit <$> bs) :: new). rewrite Hc2, Hc1, <- app_assoc.
        split; [done|]. constructor; [|exact Hrec].
        split; [rewrite length_fmap; exact Hlen|apply bits_row].
      * intros str post Hstr.
        assert (Hentry : cache str !! length (cache st)
                         = Some ((bit <$> bs) ++ [])).
        { rewrite Hstr, Hc2, Hc1, <- !app_assoc, app_nil_r.
          apply list_lookup_middle. reflexivity. }
        destruct (replay_loop_same bs 0 [] [] str eq_refl ltac:(lia))
          as (str1 & ev1 & Er & Hw1 & Hcr & Hfr).
        rewrite Hlen in Er, Hw1. cbn [app] in Er.
        destruct (Hreplay str1 post ltac:(congruence)) as (str2 & evs' & Em & He & Hf).
        exists str2, ((PcmWrite (String c data) :: ev1) :: evs').
        cbn [main_loop]. unfold replay_block. rewrite Hentry, Er. cbn.
        rewrite Em. cbn. split; [reflexivity|]. split; [|congruence].
        cbn [fmap list_fmap]. f_equal; [|exact He].
        change (gpio_writes ev1 = gpio_writes ev).
        congruence.
Qed.

Lemma TurnOffLights_inv (st st' : state) (evs : list event) :
  TurnOffLights st = Some (st', evs) ->
  limit st' = limit st /\ offct st' = offct st /\ cache st' = cache st
  /\ fft_calls st' = fft_calls st.
Proof.
  unfold TurnOffLights. generalize (seq 0 8). intros idx. revert st st' evs.
  induction idx as [|i idx IH]; intros st st' evs H.
  - cbn in H. inversion H; subst. done.
  - cbn [for_each] in H.
    destruct (TurnOffLight i st) as [[s1 ev1]|] eqn:E1; [|discriminate].
    cbn in H.
    destruct (for_each idx TurnOffLight s1) as [[s2 ev2]|] eqn:E2; [|discriminate].
    cbn in H. inversion H; subst; clear H.
    apply set_pin_inv in E1 as (pin & _ & -> & _).
    destruct (IH _ _ _ E2) as (? & ? & ? & ?). cbn in *. done.
Qed.

Lemma TurnOffLights_total (st : state) :
  exists st' evs, TurnOffLights st = Some (st', evs).
Proof.
  destruct (for_each_total (fun _ => True) TurnOffLight (seq 0 8) st)
    as (st' & evs & E & _); [|done|exists st', evs; exact E].
  intros i s Hi _. apply in_seq in Hi.
  destruct (gpio_lookup i ltac:(lia)) as [pin Hpin].
  unfold TurnOffLight, set_pin. rewrite Hpin. cbn. eexists _, _. done.
Qed.

(** Without a cache file the run is fresh and starts from no row. *)
Lemma load_cache_absent (fs : gmap string string) (file : string) :
  fs !! cache_filename file = None -> load_cache fs file = ([], false).
Proof. unfold load_cache. intros ->. reflexivity. Qed.

(** X22.  Replay reproduces a fresh run that started from no row.  A
    first run whose load put no row into [cache] (no cache file on disk,
    or one that failed before giving a row) runs in fresh mode; if it
    completes, a second run over the same blocks, on the files the first
    run left, runs in replay mode, writes to the pins, block by block,
    exactly the levels the first run wrote, never calls
    [calculate_levels], and leaves the files as they are.  The premise on
    the load is needed: rows that a failed load has left in [cache] are
    stored in front of the new ones and replayed first. *)
Theorem replay_reproduces_fresh_run (file : string) (sample_rate : Z)
    (blocks : list string) (fs : gmap string string) (o1 : outcome) :
  load_cache fs file = ([], false) ->
  play file sample_rate blocks fs = Some o1 ->
  exists o2,
    play file sample_rate blocks (out_fs o1) = Some o2
    /\ out_found o1 = false /\ out_found o2 = true
    /\ gpio_writes <$> out_blocks o2 = gpio_writes <$> out_blocks o1
    /\ fft_calls (out_state o2) = 0%nat
    /\ out_fs o2 = out_fs o1.
Proof.
  intros Hload H1. unfold play in H1.
  apply bind_Some in H1 as ([st0 ev0] & E0 & H1).
  rewrite Hload in H1. cbv beta iota in H1.
  apply bind_Some in H1 as ([st2 evs] & Em & H1).
  apply bind_Some in H1 as ([st3 ev3] & E3 & H1).
  inversion H1; subst o1; clear H1. cbn [out_fs out_found out_blocks out_state].
  destruct (fresh_then_replay _ _ _ _ _ _ Em eq_refl)
    as ((new & Hnew & Hrec) & Hreplay).
  cbn [cache app] in Hnew. rewrite Hnew in *.
  set (str := mkState (limit st0) (offct st0) new (pins st0) (fft_calls st0)).
  destruct (Hreplay str [] ltac:(rewrite app_nil_r; reflexivity))
    as (str2 & evs' & Em' & Hev & Hf).
  destruct (TurnOffLights_total str2) as (str3 & ev3' & E3').
  exists (mkOutcome true evs' str3 (store_cache fs file new)).
  unfold play. rewrite E0. cbn [mbind option_bind].
  rewrite (load_after_store fs file 8 new ltac:(lia) Hrec). cbv beta iota.
  fold str. rewrite Em'. cbn [mbind option_bind]. cbv beta iota.
  rewrite E3'. cbn [mbind option_bind]. cbv beta iota.
  cbn [out_fs out_found out_blocks out_state].
  repeat split; try done.
  destruct (TurnOffLights_inv _ _ _ E3') as (_ & _ & _ & ->).
  rewrite Hf. unfold str. cbn [fft_calls].
  destruct (TurnOffLights_inv _ _ _ E0) as (_ & _ & _ & ->).
  reflexivity.
Qed.

(** ** calculate_levels on an empty band *)

Lemma piff_Some (sample_rate val : Z) :
  sample_rate <> 0 -> piff sample_rate val = Some (2 * chunk * val / sample_rate).
Proof. intros H. unfold piff. destruct (Z.eqb_spec sample_rate 0); done. Qed.

Lemma piff_rate (sample_rate val a : Z) :
  piff sample_rate val = Some a -> sample_rate <> 0.
Proof. unfold piff. destruct (Z.eqb_spec sample_rate 0); done. Qed.

Lemma np_mean_nil : np_mean [] = S754_nan.
Proof. unfold np_mean. rewrite add_reduce_nil. reflexivity. Qed.

(** What [clip] lets through: a NaN, or a value from 0 to 100. *)
Lemma clip_range (x : float) :
  is_nan (clip x) = is_nan x
  /\ (is_nan x = false ->
      fle fzero (clip x) = true /\ fle (clip x) (of_Z 100) = true).
Proof.
  unfold clip.
  destruct x as [s|[|]| |[|] m e].
  - destruct s; split; try reflexivity; intros _; split; reflexivity.
  - split; [reflexivity|]. intros _. split; reflexivity.
  - split; [reflexivity|]. intros _. split; reflexivity.
  - split; [reflexivity|discriminate].
  - split; [reflexivity|]. intros _. split; reflexivity.
  - change (flt (S754_finite false m e) (of_Z 0)) with false. cbv iota.
    destruct (flt (of_Z 100) (S754_finite false m e)) eqn:E.
    + split; [reflexivity|]. intros _. split; reflexivity.
    + split; [reflexivity|]. intros _. split; [reflexivity|].
      rewrite of_Z_100 in *. apply fle_finite.
      destruct (Z.compare_spec e (-46)) as [He|He|He]; [|lia|].
      * right. split; [exact He|].
        destruct (Z.le_gt_cases (Z.pos m) 7036874417766400) as [Hm|Hm]; [exact Hm|].
        assert (flt (S754_finite false 7036874417766400 (-46))
                    (S754_finite false m e) = true)
          by (apply flt_finite; lia).
        congruence.
      * assert (flt (S754_finite false 7036874417766400 (-46))
                    (S754_finite false m e) = true)
          by (apply flt_finite; lia).
        congruence.
Qed.

(** A NaN band value never grows a limit and never turns a channel on. *)
Lemma nan_band_is_off (lim : float) (off : Z) :
  grows lim S754_nan = false /\ (channel_step lim off S754_nan).2 = false.
Proof.
  assert (Hg : grows lim S754_nan = false)
    by (unfold grows, flt, SFltb; destruct lim; reflexivity).
  split; [exact Hg|].
  unfold channel_step, recalibrate. rewrite Hg.
  replace (fgt S754_nan lim) with false
    by (unfold fgt, SFltb; destruct lim; reflexivity).
  destruct (10 <? off + 1); reflexivity.
Qed.

Lemma band_levels_Some (power : list float) (sample_rate : Z) :
  sample_rate <> 0 ->
  band_levels power sample_rate
  = Some (clip <$> zip_with scale
            ((fun band =>
                np_mean (py_slice power (2 * chunk * band.1 / sample_rate)
                                        (2 * chunk * band.2 / sample_rate)))
               <$> band_edges)
            weighting).
Proof.
  intros H. unfold band_levels, band_edges, band_mean.
  cbn [mapM fst snd]. rewrite !piff_Some by exact H. reflexivity.
Qed.

(** C8, as the script has it.  When the slice of the power array taken
    for a band is empty (the band's bin range is empty, or lies past the
    end of the array), [calculate_levels] raises nothing and does not
    put 0 for the band: it returns its eight values, with a NaN for that
    band. *)
Theorem empty_band_yields_nan (data : string) (sample_rate : Z)
    (samples : list Z) (k : nat) (lo hi a b : Z) :
  unpack_h data = Some samples ->
  band_edges !! k = Some (lo, hi) ->
  piff sample_rate lo = Some a -> piff sample_rate hi = Some b ->
  py_slice (removelast (rfft_abs samples)) a b = [] ->
  exists levels,
    calculate_levels data sample_rate = Some levels
    /\ length levels = 8%nat
    /\ levels !! k = Some S754_nan.
Proof.
  intros Hu Hk Ha Hb Hs.
  pose proof (piff_rate _ _ _ Ha) as Hr.
  rewrite piff_Some in Ha, Hb by exact Hr.
  injection Ha as <-. injection Hb as <-.
  unfold calculate_levels. rewrite Hu. cbn [mbind option_bind].
  rewrite band_levels_Some by exact Hr.
  eexists. split; [reflexivity|]. split; [reflexivity|].
  rewrite list_lookup_fmap.
  do 8 (destruct k as [|k];
        [cbn in Hk; injection Hk as <- <-; cbn [band_edges fmap list_fmap
           zip_with weighting lookup list_lookup fst snd option_map];
         rewrite Hs, np_mean_nil; reflexivity|]).
  discriminate Hk.
Qed.

(** * Further properties of the script *)

(** ** The off counters *)

Lemma channel_step_counter (lim : float) (off : Z) (m : float) :
  0 <= off <= 10 -> 0 <= (channel_step lim off m).1.2 <= 10.
Proof.
  intros H. unfold channel_step.
  destruct (fgt m (recalibrate lim m)); cbn [fst snd]; [lia|].
  destruct (Z.ltb_spec 10 (off + 1)); cbn [fst snd]; lia.
Qed.

Lemma fresh_block_counters (data : string) (sample_rate : Z) (st st1 : state)
    (ev : list event) :
  fresh_block data sample_rate st = Some (st1, ev) ->
  Forall (fun c => 0 <= c <= 10) (offct st) ->
  Forall (fun c => 0 <= c <= 10) (offct st1)
  /\ length (offct st1) = length (offct st)
  /\ length (limit st1) = length (limit st).
Proof.
  unfold fresh_block. intros H HP.
  apply bind_Some in H as (matrix & _ & H).
  apply bind_Some in H as ([[s1 entry] evs] & E & H).
  cbv beta iota in H. inversion H; subst; clear H. cbn [limit offct].
  unfold controller_update in E.
  apply (for_each_keeps
           (fun acc : state * list string =>
              Forall (fun c => 0 <= c <= 10) (offct acc.1)
              /\ length (offct acc.1) = length (offct st)
              /\ length (limit acc.1) = length (limit st))
           _ _ _ _ _) in E; [exact E| |done].
  intros i [s e] [s' e'] ev0 (Hs & Hlo & Hll) Hr. cbn [fst] in *.
  destruct (fresh_channel_inv _ _ _ _ _ _ _ Hr)
    as (lim & off & m & pin & _ & Hoff & _ & _ & -> & _ & _).
  cbn [limit offct]. rewrite !length_insert. split; [|done].
  apply Forall_insert; [exact Hs|].
  apply channel_step_counter. eapply Forall_lookup_1 in Hs; eassumption.
Qed.

(** X1.  The off counters stay within 0..10: over any pass of the main
    loop, fresh or replay, counters that start in that range end in it,
    and the two controller arrays keep their lengths.  A counter is only
    ever reset to 0 or incremented, and an increment past 10 is reset at
    once. *)
Theorem counters_stay_in_range (cache_found : bool) (sample_rate : Z)
    (blocks : list string) (row : nat) (st st' : state)
    (evs : list (list event)) :
  Forall (fun c => 0 <= c <= 10) (offct st) ->
  main_loop cache_found sample_rate blocks row st = Some (st', evs) ->
  Forall (fun c => 0 <= c <= 10) (offct st')
  /\ length (offct st') = length (offct st)
  /\ length (limit st') = length (limit st).
Proof.
  revert row st evs.
  induction blocks as [|data rest IH]; intros row st evs HP H.
  - cbn in H. inversion H; subst. done.
  - destruct data as [|c data]; [cbn in H; inversion H; subst; done|].
    cbn [main_loop] in H.
    apply bind_Some in H as ([st1 ev] & E1 & H).
    apply bind_Some in H as ([st2 evs0] & E2 & H).
    inversion H; subst; clear H.
    assert (H1 : Forall (fun c => 0 <= c <= 10) (offct st1)
                 /\ length (offct st1) = length (offct st)
                 /\ length (limit st1) = length (limit st)).
    { destruct cache_found.
      - destruct (replay_block_inv _ _ _ _ E1) as (-> & -> & _). done.
      - eapply fresh_block_counters; eassumption. }
    destruct H1 as (HP1 & <- & <-). eapply IH; eassumption.
Qed.

(** ** Switching the lights off *)

Lemma lows_lookup (l : list Z) (m : gmap Z bool) (pin : Z) :
  (pin ∈ l -> foldl (fun m p => <[p := false]> m) m l !! pin = Some false)
  /\ (pin ∉ l -> foldl (fun m p => <[p := false]> m) m l !! pin = m !! pin).
Proof.
  revert m. induction l as [|p l IH]; intros m.
  - split; [intros H; inversion H|reflexivity].
  - cbn [foldl]. destruct (IH (<[p := false]> m)) as [IH1 IH2]. split.
    + intros H. destruct (decide (pin ∈ l)) as [Hin|Hnin]; [apply IH1, Hin|].
      rewrite IH2 by exact Hnin.
      apply elem_of_cons in H as [->|H]; [apply lookup_insert_eq|done].
    + intros H. apply not_elem_of_cons in H as [Hne Hnin].
      rewrite IH2 by exact Hnin. apply lookup_insert_ne. congruence.
Qed.

Lemma TurnOffLights_eq (st : state) :
  TurnOffLights st
  = Some (mkState (limit st) (offct st) (cache st)
            (foldl (fun m p => <[p := false]> m) (pins st) gpio) (fft_calls st),
          (fun pin => GpioOutput pin false) <$> gpio).
Proof. reflexivity. Qed.

(** X2.  A run of the script that completes, fresh or replay, ends with
    the eight lights off: the closing [TurnOffLights] cannot fail, writes
    LOW to every pin of [gpio], and every one of these pins is low in the
    final state, whatever the blocks did to it.  [TurnOffLights] itself
    writes the eight pins in the order of [gpio] and touches nothing
    else. *)
Theorem lights_off_after_play (file : string) (sample_rate : Z)
    (blocks : list string) (fs : gmap string string) (o : outcome) :
  play file sample_rate blocks fs = Some o ->
  (forall pin, pin ∈ gpio -> pins (out_state o) !! pin = Some false)
  /\ (forall st, exists st',
        TurnOffLights st
          = Some (st', (fun pin => GpioOutput pin false) <$> gpio)
        /\ (forall pin, pin ∈ gpio -> pins st' !! pin = Some false)
        /\ (forall pin, pin ∉ gpio -> pins st' !! pin = pins st !! pin)
        /\ limit st' = limit st /\ offct st' = offct st
        /\ cache st' = cache st /\ fft_calls st' = fft_calls st).
Proof.
  intros H. split.
  - unfold play in H.
    apply bind_Some in H as ([st0 ev0] & _ & H).
    destruct (load_cache fs file) as [rows found].
    apply bind_Some in H as ([st2 evs] & _ & H).
    apply bind_Some in H as ([st3 ev3] & E3 & H).
    inversion H; subst; clear H. cbn [out_state].
    rewrite TurnOffLights_eq in E3. inversion E3; subst; clear E3.
    cbn [pins]. intros pin Hpin.
    exact (proj1 (lows_lookup gpio (pins st2) pin) Hpin).
  - intros st. eexists. split; [apply TurnOffLights_eq|]. cbn [pins limit offct
      cache fft_calls]. repeat split; try reflexivity.
    + intros pin Hpin. exact (proj1 (lows_lookup gpio (pins st) pin) Hpin).
    + intros pin Hpin. exact (proj2 (lows_lookup gpio (pins st) pin) Hpin).
Qed.

(** ** Audio *)

Lemma pcm_writes_app (a b : list event) :
  pcm_writes (a ++ b) = pcm_writes a ++ pcm_writes b.
Proof. unfold pcm_writes. apply omap_app. Qed.

Lemma pcm_writes_silent (evs : list event) :
  Forall silent evs -> pcm_writes evs = [].
Proof.
  induction evs as [|e evs IH]; intros H; [reflexivity|].
  inversion H as [|? ? He Hevs]; subst.
  destruct e; try contradiction; cbn; apply IH, Hevs.
Qed.

Lemma for_each_events {S : Type} (Q : event -> Prop)
    (body : nat -> S -> option (S * list event)) (idx : list nat)
    (s s' : S) (evs : list event) :
  (forall i s s' ev, body i s = Some (s', ev) -> Forall Q ev) ->
  for_each idx body s = Some (s', evs) -> Forall Q evs.
Proof.
  intros Hbody. revert s evs. induction idx as [|i idx IH]; intros s evs H.
  - cbn in H. inversion H; subst. constructor.
  - cbn [for_each] in H.
    apply bind_Some in H as ([s1 ev1] & E1 & H).
    apply bind_Some in H as ([s2 ev2] & E2 & H).
    inversion H; subst; clear H.
    apply Forall_app. split; [eapply Hbody, E1|eapply IH, E2].
Qed.

Lemma set_pin_silent (i : nat) (level : bool) (st st' : state) (ev : list event) :
  set_pin i level st = Some (st', ev) -> Forall silent ev.
Proof.
  intros H. apply set_pin_inv in H as (pin & _ & _ & ->).
  repeat constructor.
Qed.

Lemma replay_block_silent (row : nat) (st st' : state) (ev : list event) :
  replay_block row st = Some (st', ev) -> Forall silent ev.
Proof.
  unfold replay_block. destruct (cache st !! row) as [entry|].
  - apply for_each_events. intros i s s' ev0 H.
    apply replay_channel_inv in H as (? & ? & ? & _ & _ & _ & _ & ->).
    repeat constructor.
  - intros H. inversion H; subst. repeat constructor.
Qed.

Lemma fresh_block_silent (data : string) (sample_rate : Z) (st st' : state)
    (ev : list event) :
  fresh_block data sample_rate st = Some (st', ev) -> Forall silent ev.
Proof.
  unfold fresh_block. intros H.
  apply bind_Some in H as (matrix & _ & H).
  apply bind_Some in H as ([[s1 entry] evs] & E & H).
  cbv beta iota in H. inversion H; subst; clear H.
  unfold controller_update in E. revert E. apply for_each_events.
  intros i [s e] [s' e'] ev0 H. unfold fresh_channel in H.
  apply bind_Some in H as (lim & _ & H).
  apply bind_Some in H as (m & _ & H).
  apply bind_Some in H as (off & _ & H).
  destruct (channel_step lim off m) as [[lim' off'] on].
  destruct on.
  - apply bind_Some in H as ([st2 ev2] & Hp & H).
    inversion H; subst; clear H. apply Forall_app. split.
    + destruct (grows lim m); repeat constructor.
    + eapply set_pin_silent, Hp.
  - apply bind_Some in H as ([st2 ev2] & Hp & H).
    inversion H; subst; clear H. apply Forall_app. split.
    + destruct (grows lim m); repeat constructor.
    + constructor; [exact I|]. eapply set_pin_silent, Hp.
Qed.

(** X3.  The audio goes through unchanged: in a pass of the main loop
    that completes, fresh or replay, the audio written is exactly the
    sequence of blocks read before the first empty one, in order, one
    write per block, and each block's audio is written before anything
    else is done for the block. *)
Theorem audio_passes_through (cache_found : bool) (sample_rate : Z)
    (blocks : list string) (row : nat) (st st' : state)
    (evs : list (list event)) :
  main_loop cache_found sample_rate blocks row st = Some (st', evs) ->
  pcm_writes (concat evs) = played blocks
  /\ Forall2 (fun data ev => head ev = Some (PcmWrite data)) (played blocks) evs.
Proof.
  revert row st evs.
  induction blocks as [|data rest IH]; intros row st evs H.
  - cbn in H. inversion H; subst. split; [reflexivity|constructor].
  - destruct data as [|c data];
      [cbn in H; inversion H; subst; split; [reflexivity|constructor]|].
    cbn [main_loop] in H.
    apply bind_Some in H as ([st1 ev] & E1 & H).
    apply bind_Some in H as ([st2 evs0] & E2 & H).
    inversion H; subst; clear H.
    destruct (IH _ _ _ E2) as [IH1 IH2].
    assert (Hs : Forall silent ev).
    { destruct cache_found;
        [eapply replay_block_silent|eapply fresh_block_silent]; exact E1. }
    cbn [played concat]. split.
    + change (pcm_writes ((PcmWrite (String c data) :: ev) ++ concat evs0)
              = String c data :: played rest).
      rewrite pcm_writes_app, IH1.
      change (pcm_writes (PcmWrite (String c data) :: ev))
        with (String c data :: pcm_writes ev).
      rewrite pcm_writes_silent by exact Hs. reflexivity.
    + constructor; [reflexivity|exact IH2].
Qed.

(** ** The record of a fresh run *)

Lemma fresh_rows (sample_rate : Z) (blocks : list string) (row : nat)
    (st st2 : state) (evs : list (list event)) :
  main_loop false sample_rate blocks row st = Some (st2, evs) ->
  exists new,
    cache st2 = cache st ++ new
    /\ length new = length (played blocks)
    /\ sync_record 8 new
    /\ fft_calls st2 = (fft_calls st + length (played blocks))%nat.
Proof.
  revert row st st2 evs.
  induction blocks as [|data rest IH]; intros row st st2 evs H.
  - cbn in H. inversion H; subst. exists []. rewrite app_nil_r.
    cbn. repeat split; [constructor|lia].
  - destruct data as [|c data].
    { cbn in H. inversion H; subst. exists []. rewrite app_nil_r.
      cbn. repeat split; [constructor|lia]. }
    cbn [main_loop] in H.
    apply bind_Some in H as ([st1 ev] & E1 & H).
    apply bind_Some in H as ([s2 evs0] & E2 & H).
    inversion H; subst; clear H.
    destruct (fresh_block_inv _ _ _ _ _ E1) as (bs & Hlen & Hc1 & _).
    assert (Hf1 : fft_calls st1 = S (fft_calls st)).
    { unfold fresh_block in E1.
      apply bind_Some in E1 as (matrix & _ & E1).
      apply bind_Some in E1 as ([[s1 entry] evs1] & E & E1).
      cbv beta iota in E1. inversion E1; subst; clear E1. cbn [fft_calls].
      unfold controller_update in E.
      destruct (fresh_loop_inv _ _ _ _ _ _ _ _ E) as (? & _ & _ & _ & _ & Hf & _).
      exact Hf. }
    destruct (IH _ _ _ _ E2) as (new & Hc2 & Hn & Hrec & Hf2).
    exists ((bit <$> bs) :: new). cbn [played length].
    rewrite Hc2, Hc1, <- app_assoc. repeat split; try done.
    + cbn. lia.
    + constructor; [|exact Hrec].
      split; [rewrite length_fmap; exact Hlen|apply bits_row].
    + lia.
Qed.

(** X4.  What a fresh run of the script leaves behind: the record it
    stores under the cache name holds the rows the load had put into
    [cache] (none when there was no cache file) followed by exactly one
    row per block played, each of eight on/off fields, and
    [calculate_levels] has been called once per block. *)
Theorem fresh_run_record (file : string) (sample_rate : Z)
    (blocks : list string) (fs : gmap string string) (o : outcome) :
  play file sample_rate blocks fs = Some o ->
  out_found o = false ->
  exists new,
    cache (out_state o) = (load_cache fs file).1 ++ new
    /\ length new = length (played blocks)
    /\ sync_record 8 new
    /\ fft_calls (out_state o) = length (played blocks)
    /\ out_fs o !! cache_filename file
       = Some (gzip_write (csv_writerows ((load_cache fs file).1 ++ new))).
Proof.
  intros H Hfound. unfold play in H.
  apply bind_Some in H as ([st0 ev0] & E0 & H).
  destruct (load_cache fs file) as [rows found].
  apply bind_Some in H as ([st2 evs] & Em & H).
  apply bind_Some in H as ([st3 ev3] & E3 & H).
  inversion H; subst o; clear H. cbn [out_found out_state out_fs fst] in *.
  subst found.
  destruct (fresh_rows _ _ _ _ _ _ Em) as (new & Hc & Hn & Hrec & Hf).
  cbn [cache fft_calls] in Hc, Hf.
  destruct (TurnOffLights_inv _ _ _ E3) as (_ & _ & Hc3 & Hf3).
  destruct (TurnOffLights_inv _ _ _ E0) as (_ & _ & _ & Hf0).
  exists new. rewrite Hc3, Hf3, Hf, Hf0, Hc. repeat split; try done.
  unfold store_cache. rewrite lookup_insert_eq. reflexivity.
Qed.

(** ** A replay run *)

Lemma main_loop_replay_inv (sample_rate : Z) (blocks : list string)
    (row : nat) (st st' : state) (evs : list (list event)) :
  main_loop true sample_rate blocks row st = Some (st', evs) ->
  limit st' = limit st /\ offct st' = offct st /\ cache st' = cache st
  /\ fft_calls st' = fft_calls st.
Proof.
  revert row st evs. induction blocks as [|data rest IH]; intros row st evs H.
  - cbn in H. inversion H; subst. done.
  - destruct data as [|c data]; [cbn in H; inversion H; subst; done|].
    cbn [main_loop] in H.
    apply bind_Some in H as ([st1 ev] & E1 & H).
    apply bind_Some in H as ([st2 evs0] & E2 & H).
    inversion H; subst; clear H.
    destruct (IH _ _ _ E2) as (-> & -> & -> & ->).
    apply (replay_block_inv _ _ _ _ E1).
Qed.

(** X5.  A replay run changes nothing but the pins: from line 139 on,
    whatever cache was loaded, a run that found one and completes leaves
    the files exactly as they were (the cache is not rewritten), never
    calls [calculate_levels], and ends with the limits and counters at
    their initial values and the loaded rows still in [cache]. *)
Theorem replay_run_is_read_only (file : string) (sample_rate : Z)
    (blocks : list string) (fs : gmap string string) (o : outcome) :
  play file sample_rate blocks fs = Some o ->
  out_found o = true ->
  out_fs o = fs
  /\ fft_calls (out_state o) = 0%nat
  /\ limit (out_state o) = limit_init
  /\ offct (out_state o) = offct_init
  /\ cache (out_state o) = (load_cache fs file).1.
Proof.
  intros H Hfound. unfold play in H.
  apply bind_Some in H as ([st0 ev0] & E0 & H).
  destruct (load_cache fs file) as [rows found].
  apply bind_Some in H as ([st2 evs] & Em & H).
  apply bind_Some in H as ([st3 ev3] & E3 & H).
  inversion H; subst o; clear H. cbn [out_found out_state out_fs fst] in *.
  subst found.
  destruct (main_loop_replay_inv _ _ _ _ _ _ Em) as (Hl & Ho & Hc & Hf).
  cbn [limit offct cache fft_calls] in *.
  destruct (TurnOffLights_inv _ _ _ E3) as (-> & -> & -> & ->).
  destruct (TurnOffLights_inv _ _ _ E0) as (Hl0 & Ho0 & _ & Hf0).
  rewrite Hl, Ho, Hc, Hf, Hl0, Ho0, Hf0. done.
Qed.

(** What makes the replay loop over the channels of [idx] go through. *)
Lemma replay_loop_defined (entry : list string) (idx : list nat) (st : state) :
  (forall i, In i idx -> (i < 8)%nat) ->
  is_Some (for_each idx (replay_channel entry) st)
  <-> (forall i, In i idx ->
         exists s n, entry !! i = Some s /\ py_int s = Some n).
Proof.
  revert st. induction idx as [|i idx IH]; intros st Hidx.
  - split; [intros _ i []|]. intros _. eexists. reflexivity.
  - assert (Hrest : forall j, In j idx -> (j < 8)%nat)
      by (intros j Hj; apply Hidx; right; exact Hj).
    destruct (gpio_lookup i (Hidx i (or_introl eq_refl))) as [pin Hpin].
    cbn [for_each]. split.
    + intros [[s2 evs] H].
      apply bind_Some in H as ([s1 ev1] & E1 & H).
      apply bind_Some in H as ([s2' ev2] & E2 & H).
      intros j [<-|Hj].
      * apply replay_channel_inv in E1 as (s & n & ? & Hs & Hn & _).
        exists s, n. done.
      * apply (proj1 (IH s1 Hrest)); [eexists; exact E2|exact Hj].
    + intros H.
      destruct (H i (or_introl eq_refl)) as (s & n & Hs & Hn).
      assert (E1 : exists s1 ev1, replay_channel entry i st = Some (s1, ev1)).
      { unfold replay_channel. rewrite Hs. cbn. rewrite Hn. cbn.
        unfold TurnOnLight, TurnOffLight, set_pin. rewrite Hpin. cbn.
        destruct (n =? 0); eexists _, _; reflexivity. }
      destruct E1 as (s1 & ev1 & ->). cbn.
      destruct (proj2 (IH s1 Hrest)) as [[s2 ev2] ->].
      { intros j Hj. apply H. right. exact Hj. }
      cbn. eexists. reflexivity.
Qed.

(** X6.  When a replayed block fails.  For a block that has a cached row,
    the replay goes through exactly when the row has at least eight
    fields and each of the first eight reads as a Python integer; a
    shorter row (IndexError) or a field that [int] rejects (ValueError)
    ends the script.  Fields past the eighth are never looked at, and a
    block past the end of the record never fails. *)
Theorem replay_block_defined (row : nat) (st : state) :
  (forall entry, cache st !! row = Some entry ->
     (is_Some (replay_block row st)
      <-> forall i, (i < 8)%nat ->
            exists s n, entry !! i = Some s /\ py_int s = Some n))
  /\ (cache st !! row = None -> replay_block row st = Some (st, [LogRanOut])).
Proof.
  split.
  - intros entry Hrow. unfold replay_block. rewrite Hrow.
    rewrite replay_loop_defined by (intros i Hi; apply in_seq in Hi; lia).
    split; intros H i Hi; apply H; [apply in_seq|apply in_seq in Hi]; lia.
  - intros Hrow. unfold replay_block. rewrite Hrow. reflexivity.
Qed.

(** ** calculate_levels: failures, shape and range *)

Lemma int16_range (lo hi : ascii) : -32768 <= int16 lo hi <= 32767.
Proof.
  unfold int16.
  pose proof (nat_ascii_bounded lo). pose proof (nat_ascii_bounded hi).
  destruct (Z.ltb_spec (Z.of_nat (nat_of_ascii lo)
                        + 256 * Z.of_nat (nat_of_ascii hi)) 32768); lia.
Qed.

Lemma unpack_h_spec (data : string) :
  (Nat.even (String.length data) = true ->
   exists v, unpack_h data = Some v
     /\ length v = Nat.div2 (String.length data)
     /\ Forall (fun z => -32768 <= z <= 32767) v)
  /\ (Nat.even (String.length data) = false -> unpack_h data = None).
Proof.
  assert (H : forall data,
             ((Nat.even (String.length data) = true ->
               exists v, unpack_h data = Some v
                 /\ length v = Nat.div2 (String.length data)
                 /\ Forall (fun z => -32768 <= z <= 32767) v)
              /\ (Nat.even (String.length data) = false -> unpack_h data = None))
             /\ forall c,
                 ((Nat.even (String.length (String c data)) = true ->
                   exists v, unpack_h (String c data) = Some v
                     /\ length v = Nat.div2 (String.length (String c data))
                     /\ Forall (fun z => -32768 <= z <= 32767) v)
                  /\ (Nat.even (String.length (String c data)) = false ->
                      unpack_h (String c data) = None))).
  { clear data. induction data as [|d data [IH1 IH2]].
    - split; [split|intros c; split].
      + intros _. exists []. repeat split. constructor.
      + discriminate.
      + discriminate.
      + reflexivity.
    - split; [apply IH2|]. intros c.
      change (Nat.even (String.length (String c (String d data))))
        with (Nat.even (String.length data)).
      change (Nat.div2 (String.length (String c (String d data))))
        with (S (Nat.div2 (String.length data))).
      change (unpack_h (String c (String d data)))
        with (match unpack_h data with
              | Some v => Some (int16 c d :: v)
              | None => None
              end).
      destruct IH1 as [He Ho]. split.
      + intros H. destruct (He H) as (v & -> & Hl & Hr).
        exists (int16 c d :: v). split; [reflexivity|].
        split; [cbn; lia|]. constructor; [apply int16_range|exact Hr].
      + intros H. rewrite (Ho H). reflexivity. }
  apply H.
Qed.

Lemma band_levels_no_rate (power : list float) :
  band_levels power 0 = None.
Proof. reflexivity. Qed.

(** X7.  On a non-empty block, [calculate_levels] fails in exactly two
    cases: a block with an odd number of bytes (struct.error from
    [unpack]) and a frame rate of zero (ZeroDivisionError in [piff]).  In
    every other case, whatever the transform returns, it gives eight
    values, and each of them is a NaN or lies between 0 and 100, bounds
    included.  The main loop passes no empty block; on one
    [np.fft.rfft] would raise, which the transform of this development,
    a total function, does not show, so the empty block is left out. *)
Theorem calculate_levels_defined (data : string) (sample_rate : Z) :
  data <> EmptyString ->
  (calculate_levels data sample_rate = None
   <-> Nat.even (String.length data) = false \/ sample_rate = 0)
  /\ (forall levels,
        calculate_levels data sample_rate = Some levels ->
        length levels = 8%nat
        /\ Forall (fun x => is_nan x = true
                            \/ (fle fzero x = true /\ fle x (of_Z 100) = true))
             levels).
Proof.
  intros _. destruct (unpack_h_spec data) as [He Ho].
  unfold calculate_levels. split.
  - split.
    + intros H. destruct (Nat.even (String.length data)); [|left; reflexivity].
      destruct (He eq_refl) as (v & Hv & _). rewrite Hv in H.
      cbn [mbind option_bind] in H.
      destruct (Z.eq_dec sample_rate 0) as [E|E]; [right; exact E|].
      rewrite band_levels_Some in H by exact E. discriminate H.
    + intros [H| ->].
      * rewrite (Ho H). reflexivity.
      * destruct (unpack_h data); [apply band_levels_no_rate|reflexivity].
  - intros levels H.
    apply bind_Some in H as (samples & _ & H).
    destruct (Z.eq_dec sample_rate 0) as [->|E];
      [rewrite band_levels_no_rate in H; discriminate H|].
    rewrite band_levels_Some in H by exact E.
    injection H as <-. split; [reflexivity|].
    assert (Hc : forall x, is_nan (clip x) = true
                           \/ (fle fzero (clip x) = true
                               /\ fle (clip x) (of_Z 100) = true)).
    { intros x. destruct (clip_range x) as [Hn Hr].
      destruct (is_nan x) eqn:Hx; [left; exact Hn|right; apply Hr; reflexivity]. }
    repeat (constructor; [apply Hc|]). constructor.
Qed.

(** ** The bands *)

Lemma py_slice_take {A} (l : list A) (a b : Z) :
  0 <= a <= b ->
  py_slice l a b
  = take (Z.to_nat b `min` length l - Z.to_nat a `min` length l)
         (drop (Z.to_nat a `min` length l) l).
Proof.
  intros H. unfold py_slice.
  destruct (Z.ltb_spec b 0); [lia|]. destruct (Z.ltb_spec a 0); [lia|].
  f_equal; [|f_equal]; lia.
Qed.

Lemma py_slice_app {A} (l : list A) (a b c : Z) :
  0 <= a <= b -> b <= c ->
  py_slice l a b ++ py_slice l b c = py_slice l a c.
Proof.
  intros Hab Hbc. rewrite !py_slice_take by lia.
  set (na := (Z.to_nat a `min` length l)%nat).
  set (nb := (Z.to_nat b `min` length l)%nat).
  set (nc := (Z.to_nat c `min` length l)%nat).
  assert (Hn : (na <= nb <= nc)%nat) by (unfold na, nb, nc; lia).
  replace (drop nb l) with (drop (nb - na) (drop na l))
    by (rewrite drop_drop; f_equal; lia).
  rewrite take_take_drop. f_equal. lia.
Qed.

Lemma py_slice_from_0 {A} (l : list A) (c : Z) :
  0 <= c -> py_slice l 0 c = take (Z.to_nat c) l.
Proof.
  intros H. rewrite py_slice_take by lia. change (Z.to_nat 0) with 0%nat.
  rewrite Nat.min_0_l, Nat.sub_0_r, drop_0.
  destruct (Nat.le_ge_cases (Z.to_nat c) (length l)).
  - rewrite Nat.min_l by lia. reflexivity.
  - rewrite Nat.min_r by lia. rewrite !take_ge by lia. reflexivity.
Qed.

Lemma band_mean_slice (power : list float) (sample_rate : Z) (band : Z * Z) :
  band_mean power sample_rate band = np_mean <$> band_slice power sample_rate band.
Proof.
  unfold band_mean, band_slice.
  destruct (piff sample_rate band.1); [|reflexivity].
  destruct (piff sample_rate band.2); reflexivity.
Qed.

(** X8.  The eight bands tile the low end of the spectrum: at a positive
    frame rate the slices of the power array that [calculate_levels]
    averages, put end to end in band order, are exactly the first
    [piff(15000)] entries of the array.  No bin below [piff(15000)] is
    left out or counted in two bands, and none at or above it is used.
    The band means are the means of these slices. *)
Theorem bands_tile_spectrum (power : list float) (sample_rate : Z) :
  0 < sample_rate ->
  exists slices top,
    mapM (band_slice power sample_rate) band_edges = Some slices
    /\ piff sample_rate 15000 = Some top
    /\ concat slices = take (Z.to_nat top) power
    /\ mapM (band_mean power sample_rate) band_edges = Some (np_mean <$> slices).
Proof.
  intros Hr.
  assert (Hp : forall v, piff sample_rate v = Some (2 * chunk * v / sample_rate))
    by (intros v; apply piff_Some; lia).
  assert (Hm : forall u v, 0 <= u <= v ->
             0 <= 2 * chunk * u / sample_rate <= 2 * chunk * v / sample_rate).
  { intros u v Huv. unfold chunk. split.
    - apply Z.div_pos; lia.
    - apply Z.div_le_mono; lia. }
  eexists _, _. split; [|split; [apply Hp|split]].
  - unfold band_edges, band_slice. cbn [mapM fst snd]. rewrite !Hp.
    reflexivity.
  - cbn [concat]. rewrite app_nil_r.
    pose proof (Hm 0 156 ltac:(lia)). pose proof (Hm 156 313 ltac:(lia)).
    pose proof (Hm 313 625 ltac:(lia)). pose proof (Hm 625 1250 ltac:(lia)).
    pose proof (Hm 1250 2500 ltac:(lia)). pose proof (Hm 2500 5000 ltac:(lia)).
    pose proof (Hm 5000 10000 ltac:(lia)).
    pose proof (Hm 10000 15000 ltac:(lia)).
    rewrite <- (py_slice_from_0 power (2 * chunk * 15000 / sample_rate)) by lia.
    replace (2 * chunk * 0 / sample_rate) with 0 in *
      by (rewrite Z.mul_0_r, Z.div_0_l; lia).
    rewrite !app_assoc. repeat rewrite py_slice_app by lia.
    reflexivity.
  - unfold band_edges, band_mean. cbn [mapM fst snd]. rewrite !Hp.
    reflexivity.
Qed.

(** ** The name of the cache file *)

Lemma los_app (a b : string) :
  list_ascii_of_string (a +:+ b)
  = list_ascii_of_string a ++ list_ascii_of_string b.
Proof.
  induction a as [|c a IH]; [reflexivity|].
  rewrite append_cons. cbn [list_ascii_of_string app]. rewrite IH. reflexivity.
Qed.

Lemma sol_app (l1 l2 : list ascii) :
  string_of_list_ascii (l1 ++ l2)
  = string_of_list_ascii l1 +:+ string_of_list_ascii l2.
Proof.
  induction l1 as [|c l1 IH]; [reflexivity|].
  cbn [app string_of_list_ascii]. rewrite append_cons, IH. reflexivity.
Qed.

Lemma los_inj (a b : string) :
  list_ascii_of_string a = list_ascii_of_string b -> a = b.
Proof.
  intros H. rewrite <- (string_of_list_ascii_of_string a),
    <- (string_of_list_ascii_of_string b), H. reflexivity.
Qed.

Lemma take_until_slash_app (t rest : list ascii) :
  forallb (fun c => negb (is_slash c)) t = true ->
  take_until_slash (t ++ "/"%char :: rest) = t.
Proof.
  induction t as [|c t IH]; intros H; [reflexivity|].
  cbn [forallb] in H. apply andb_true_iff in H as [Hc Ht].
  cbn [app take_until_slash]. destruct (is_slash c); [discriminate|].
  rewrite IH by exact Ht. reflexivity.
Qed.

Lemma take_until_slash_free (t : list ascii) :
  forallb (fun c => negb (is_slash c)) (take_until_slash t) = true.
Proof.
  induction t as [|c t IH]; [reflexivity|].
  cbn [take_until_slash]. destruct (is_slash c) eqn:E; [reflexivity|].
  cbn [forallb]. rewrite E, IH. reflexivity.
Qed.

Lemma forallb_rev {A} (f : A -> bool) (l : list A) :
  forallb f (rev l) = forallb f l.
Proof.
  induction l as [|x l IH]; [reflexivity|].
  cbn [rev forallb]. rewrite forallb_app, IH. cbn. destruct (f x), (forallb f l);
    reflexivity.
Qed.

(** A text is cut in one way only into a head, a slash and a tail without
    slash. *)
Lemma last_slash_unique (x1 x2 t1 t2 : list ascii) :
  forallb (fun c => negb (is_slash c)) t1 = true ->
  forallb (fun c => negb (is_slash c)) t2 = true ->
  x1 ++ "/"%char :: t1 = x2 ++ "/"%char :: t2 ->
  x1 = x2 /\ t1 = t2.
Proof.
  intros H1 H2. revert x2.
  assert (Hno : forall t x rest,
             forallb (fun c => negb (is_slash c)) t = true ->
             t <> x ++ "/"%char :: rest).
  { intros t x rest Ht E. rewrite E, forallb_app in Ht.
    apply andb_true_iff in Ht as [_ Ht]. discriminate Ht. }
  induction x1 as [|c x1 IH]; intros x2 E.
  - destruct x2 as [|c2 x2]; cbn [app] in E.
    + injection E as E. done.
    + injection E as _ E. exfalso. exact (Hno _ _ _ H1 E).
  - destruct x2 as [|c2 x2]; cbn [app] in E.
    + injection E as _ E. exfalso. symmetry in E. exact (Hno _ _ _ H2 E).
    + injection E as -> E. destruct (IH _ E) as [-> ->]. done.
Qed.

(** [os.path.split] on a directory, a slash and a name. *)
Lemma path_split_normal (d b : string) :
  slash_free b = true -> ends_in_slash d = false ->
  path_split (d +:+ "/" +:+ b)
  = (match d with EmptyString => "/"%string | _ => d end, b).
Proof.
  unfold slash_free, ends_in_slash, path_split. intros Hb Hd.
  rewrite !los_app. cbn [list_ascii_of_string app].
  rewrite rev_app_distr. cbn [rev]. rewrite <- app_assoc. cbn [app].
  rewrite <- forallb_rev in Hb.
  rewrite take_until_slash_app by exact Hb.
  rewrite drop_app_length.
  rewrite rev_involutive, string_of_list_ascii_of_string.
  destruct (rev (list_ascii_of_string d)) as [|c r] eqn:Er.
  - assert (d = EmptyString) as ->.
    { apply los_inj. rewrite <- (rev_involutive (list_ascii_of_string d)), Er.
      reflexivity. }
    reflexivity.
  - cbn [forallb drop_slashes]. rewrite Hd.
    change (is_slash "/") with true. cbn [andb].
    rewrite <- Er, rev_involutive, string_of_list_ascii_of_string.
    destruct d; [discriminate Er|reflexivity].
Qed.

(** What [os.path.split] gives for any path: a name without slash, and
    the path is the name alone or ends in a slash and the name. *)
Lemma path_split_tail (p : string) :
  forallb (fun c => negb (is_slash c)) (list_ascii_of_string (basename p)) = true
  /\ (list_ascii_of_string p = list_ascii_of_string (basename p)
      \/ exists x, list_ascii_of_string p
                   = x ++ "/"%char :: list_ascii_of_string (basename p)).
Proof.
  unfold basename, path_split. cbn [snd].
  rewrite list_ascii_of_string_of_list_ascii.
  set (r := rev (list_ascii_of_string p)).
  assert (Hr : list_ascii_of_string p = rev r)
    by (unfold r; rewrite rev_involutive; reflexivity).
  rewrite Hr. clear Hr. generalize r. clear r p. intros r.
  split; [rewrite forallb_rev; apply take_until_slash_free|].
  induction r as [|c r IH]; [left; reflexivity|].
  cbn [take_until_slash]. destruct (is_slash c) eqn:E.
  - right. exists (rev r). cbn [rev app].
    unfold is_slash in E. apply Ascii.eqb_eq in E. subst c. reflexivity.
  - cbn [rev]. destruct IH as [IH|[x IH]].
    + left. rewrite IH. reflexivity.
    + right. exists x. rewrite IH, <- app_assoc. reflexivity.
Qed.

Lemma cache_filename_list (file : string) :
  list_ascii_of_string (cache_filename file)
  = list_ascii_of_string (dirname file)
    ++ "/"%char :: "."%char :: list_ascii_of_string (basename file)
    ++ list_ascii_of_string ".sync.gz".
Proof. unfold cache_filename. rewrite !los_app. reflexivity. Qed.

Lemma hidden_name_free (b : string) :
  forallb (fun c => negb (is_slash c)) (list_ascii_of_string b) = true ->
  forallb (fun c => negb (is_slash c))
    ("."%char :: list_ascii_of_string b ++ list_ascii_of_string ".sync.gz") = true.
Proof.
  intros H. cbn [forallb]. rewrite forallb_app, H. reflexivity.
Qed.

Lemma cache_filename_differs (file : string) : cache_filename file <> file.
Proof.
  intros E. apply (f_equal list_ascii_of_string) in E.
  rewrite cache_filename_list in E.
  destruct (path_split_tail file) as [Hb [Hp|[x Hp]]].
  - assert (Hf : forallb (fun c => negb (is_slash c)) (list_ascii_of_string file)
                 = true) by (rewrite Hp; exact Hb).
    rewrite <- E, forallb_app in Hf. apply andb_true_iff in Hf as [_ Hf].
    discriminate Hf.
  - rewrite Hp in E.
    apply last_slash_unique in E as [_ E]; [|apply hidden_name_free, Hb|exact Hb].
    apply (f_equal length) in E. cbn [length] in E. rewrite length_app in E.
    lia.
Qed.

(** X9.  Where the cache goes.  For a song [d/b] ([b] a name without
    slash, [d] a directory path not ending in a slash, as
    [os.path.abspath] gives them) the cache is the hidden file
    [d/.b.sync.gz] beside the song; for a song in the root directory it is
    [//.b.sync.gz].  Two such songs have the same cache file only if they
    are the same path, so one song never replays another's record. *)
Theorem cache_file_beside_song (d1 b1 d2 b2 : string) :
  slash_free b1 = true -> ends_in_slash d1 = false ->
  slash_free b2 = true -> ends_in_slash d2 = false ->
  cache_filename (d1 +:+ "/" +:+ b1)
  = match d1 with EmptyString => "/"%string | _ => d1 end
    +:+ "/." +:+ b1 +:+ ".sync.gz"
  /\ (cache_filename (d1 +:+ "/" +:+ b1) = cache_filename (d2 +:+ "/" +:+ b2) ->
      d1 +:+ "/" +:+ b1 = d2 +:+ "/" +:+ b2).
Proof.
  intros Hb1 Hd1 Hb2 Hd2.
  assert (Hc : forall d b, slash_free b = true -> ends_in_slash d = false ->
             cache_filename (d +:+ "/" +:+ b)
             = match d with EmptyString => "/"%string | _ => d end
               +:+ "/." +:+ b +:+ ".sync.gz").
  { intros d b Hb Hd. unfold cache_filename, dirname, basename.
    rewrite path_split_normal by assumption. reflexivity. }
  split; [apply Hc; assumption|].
  rewrite !Hc by assumption. intros E.
  apply (f_equal list_ascii_of_string) in E. rewrite !los_app in E.
  cbn [list_ascii_of_string app] in E.
  apply last_slash_unique in E as [Ed Eb];
    [|apply hidden_name_free; assumption..].
  injection Eb as Eb. apply app_inv_tail in Eb. apply los_inj in Eb. subst b2.
  f_equal.
  assert (Hs : forall d, ends_in_slash d = false -> d <> "/"%string)
    by (intros d H ->; discriminate H).
  destruct d1, d2; try reflexivity; apply los_inj in Ed.
  - exfalso. apply (Hs _ Hd2). symmetry. exact Ed.
  - exfalso. apply (Hs _ Hd1). exact Ed.
  - exact Ed.
Qed.

(** X10.  Playing a song writes no file but its cache.  From line 139
    on, that is once the song is chosen, whatever the mode, a run that
    completes leaves every path of the file system other than the cache
    name as it was, and the song itself among them: the cache name is
    never the name of the song, whatever path the song has.  The rewrite
    of the playlist (lines 103-113) comes before this part of the script
    and is no part of [play]; log output is not modelled as a file. *)
Theorem play_writes_only_the_cache (file : string) (sample_rate : Z)
    (blocks : list string) (fs : gmap string string) (o : outcome) :
  play file sample_rate blocks fs = Some o ->
  (forall path, path <> cache_filename file -> out_fs o !! path = fs !! path)
  /\ out_fs o !! file = fs !! file
  /\ cache_filename file <> file.
Proof.
  intros H.
  assert (Hfs : forall path, path <> cache_filename file ->
                  out_fs o !! path = fs !! path).
  { unfold play in H.
    apply bind_Some in H as ([st0 ev0] & E0 & H).
    destruct (load_cache fs file) as [rows found].
    apply bind_Some in H as ([st2 evs] & Em & H).
    apply bind_Some in H as ([st3 ev3] & E3 & H).
    inversion H; subst o; clear H. cbn [out_fs].
    intros path Hne. destruct found; [reflexivity|].
    unfold store_cache. apply lookup_insert_ne. congruence. }
  split; [exact Hfs|]. split; [|apply cache_filename_differs].
  apply Hfs. intros E. exact (cache_filename_differs file (eq_sym E)).
Qed.

(** ** Silence *)





(** ** Growth *)








(** ** The playlist *)

Lemma split_from_cons (s cur : string) :
  exists x l, split_from s cur = x :: l.
Proof.
  revert cur. induction s as [|c s IH]; intros cur; [eexists _, _; reflexivity|].
  cbn [split_from]. destruct (Ascii.eqb c comma); [eexists _, _; reflexivity|].
  apply IH.
Qed.

Lemma votes_nonempty (field : string) : (0 <? size (votes_of field))%nat = true.
Proof.
  apply Nat.ltb_lt. unfold votes_of, py_split.
  destruct (split_from_cons field EmptyString) as (x & l & ->).
  assert (H : size (list_to_set (x :: l) : gset string) <> 0%nat); [|lia].
  apply size_non_empty_iff. intros E.
  apply (not_elem_of_empty (C := gset string) x). rewrite <- E.
  apply elem_of_list_to_set. left.
Qed.

Lemma read_song_spec (row : list string) (most_votes : list item)
    (v : gset string) :
  valid_row row -> most_votes !! 2%nat = Some (Votes v) ->
  read_song row most_votes
  = Some (song_of row,
          if ((length row =? 3) && (size v <=? vote_count row))%nat
          then song_of row else most_votes).
Proof.
  unfold valid_row, read_song. intros Hv Hm.
  destruct row as [|a [|b [|c [|d [|e row]]]]]; cbn [length] in Hv; try lia.
  - reflexivity.
  - cbn. rewrite Hm. reflexivity.
  - cbn. rewrite Hm. reflexivity.
Qed.

Lemma read_song_invalid (row : list string) (most_votes : list item) :
  ~ valid_row row -> read_song row most_votes = None.
Proof.
  unfold valid_row, read_song. intros Hv.
  destruct (Nat.ltb_spec (length row) 2); [reflexivity|].
  destruct (Nat.ltb_spec 4 (length row)); [reflexivity|]. lia.
Qed.

Lemma song_of_votes (row : list string) :
  valid_row row ->
  exists v, song_of row !! 2%nat = Some (Votes v)
    /\ (length row = 3%nat -> size v = vote_count row).
Proof.
  unfold valid_row. intros Hv.
  destruct row as [|a [|b [|c [|d [|e row]]]]]; cbn [length] in Hv; try lia.
  - exists ∅. split; [reflexivity|]. discriminate.
  - eexists. split; [reflexivity|]. reflexivity.
  - eexists. split; [reflexivity|]. discriminate.
Qed.

(** The reading loop: the songs it builds and the row it ends on. *)
Lemma read_playlist_spec (rows pre : list (list string))
    (songs : list (list item)) (most_votes : list item) :
  Forall valid_row pre -> Forall valid_row rows ->
  (most_votes = most_votes_init
   /\ Forall (fun r => length r <> 3%nat) pre)
  \/ (exists i row, best_choice pre i row /\ most_votes = song_of row) ->
  exists most_votes',
    read_playlist rows songs most_votes
      = Some (songs ++ (song_of <$> rows), most_votes')
    /\ ((most_votes' = most_votes_init
         /\ Forall (fun r => length r <> 3%nat) (pre ++ rows))
        \/ (exists i row, best_choice (pre ++ rows) i row
                          /\ most_votes' = song_of row)).
Proof.
  revert pre songs most_votes.
  induction rows as [|row rows IH]; intros pre songs most_votes Hpre Hrows Hinv.
  - exists most_votes. rewrite !app_nil_r. split; [reflexivity|exact Hinv].
  - inversion Hrows as [|? ? Hrow Hrest]; subst.
    assert (Hmv : exists v, most_votes !! 2%nat = Some (Votes v)
                   /\ (most_votes = most_votes_init -> size v = 0%nat)
                   /\ (forall i r, best_choice pre i r -> most_votes = song_of r ->
                         size v = vote_count r)).
    { destruct Hinv as [[-> _]|(i & r & Hb & ->)].
      - exists ∅. split; [reflexivity|]. split; [reflexivity|].
        intros i r (_ & Hl & _) E.
        destruct r as [|a [|b [|c [|d r]]]]; discriminate.
      - destruct Hb as (Hi & Hl & Hmax).
        assert (Hvr : valid_row r) by (unfold valid_row; lia).
        destruct (song_of_votes r Hvr) as (v & Hv & Hs).
        exists v. split; [exact Hv|]. split.
        + intros E. destruct r as [|a [|b [|c [|d r]]]]; discriminate.
        + intros i' r' (_ & Hl' & _) E. rewrite E in Hv.
          destruct (song_of_votes r' ltac:(unfold valid_row; lia)) as (v' & Hv' & Hs').
          rewrite Hv in Hv'. injection Hv' as <-. apply Hs', Hl'. }
    destruct Hmv as (v & Hv & Hinit & Hbest).
    cbn [read_playlist]. rewrite (read_song_spec row most_votes v Hrow Hv).
    cbn [mbind option_bind].
    set (mv1 := if ((length row =? 3) && (size v <=? vote_count row))%nat
                then song_of row else most_votes).
    destruct (IH (pre ++ [row]) (songs ++ [song_of row]) mv1) as (mv' & E & Hinv').
    { apply Forall_app. split; [exact Hpre|]. constructor; [exact Hrow|constructor]. }
    { exact Hrest. }
    { unfold mv1.
      destruct (Nat.eqb_spec (length row) 3) as [H3|H3]; cbn [andb].
      - destruct (Nat.leb_spec (size v) (vote_count row)) as [Hle|Hgt].
        + right. exists (length pre), row. split; [|reflexivity].
          split; [apply list_lookup_middle; reflexivity|]. split; [exact H3|].
          intros j r Hj Hr.
          destruct (Nat.lt_ge_cases j (length pre)) as [Hlt|Hge].
          * rewrite lookup_app_l in Hj by exact Hlt. split; [|lia].
            destruct Hinv as [[_ Hnone]|(i & r0 & Hb & E0)].
            -- exfalso. eapply Forall_lookup_1 in Hnone; [|exact Hj]. done.
            -- rewrite (Hbest i r0 Hb E0) in Hle.
               destruct Hb as (_ & _ & Hmax).
               destruct (Hmax j r Hj Hr) as [Hm _]. lia.
          * rewrite lookup_app_r in Hj by exact Hge.
            destruct (j - length pre)%nat as [|k] eqn:Ek; [|destruct k; discriminate].
            injection Hj as <-. split; lia.
        + right. destruct Hinv as [[E0 _]|(i & r0 & Hb & E0)];
            [rewrite (Hinit E0) in Hgt; lia|].
          exists i, r0. split; [|exact E0].
          rewrite (Hbest i r0 Hb E0) in Hgt.
          destruct Hb as (Hi & Hl & Hmax).
          split; [apply lookup_app_l_Some, Hi|]. split; [exact Hl|].
          intros j r Hj Hr.
          destruct (Nat.lt_ge_cases j (length pre)) as [Hlt|Hge].
          * rewrite lookup_app_l in Hj by exact Hlt. apply Hmax; assumption.
          * rewrite lookup_app_r in Hj by exact Hge.
            destruct (j - length pre)%nat as [|k] eqn:Ek; [|destruct k; discriminate].
            injection Hj as <-. split; lia.
      - destruct Hinv as [[E0 Hnone]|(i & r0 & Hb & E0)].
        + left. split; [exact E0|]. apply Forall_app. split; [exact Hnone|].
          constructor; [exact H3|constructor].
        + right. exists i, r0. split; [|exact E0].
          destruct Hb as (Hi & Hl & Hmax).
          split; [apply lookup_app_l_Some, Hi|]. split; [exact Hl|].
          intros j r Hj Hr.
          destruct (Nat.lt_ge_cases j (length pre)) as [Hlt|Hge].
          * rewrite lookup_app_l in Hj by exact Hlt. apply Hmax; assumption.
          * rewrite lookup_app_r in Hj by exact Hge.
            destruct (j - length pre)%nat as [|k] eqn:Ek; [|destruct k; discriminate].
            injection Hj as <-. done. }
    exists mv'. rewrite E. rewrite <- !app_assoc in *. cbn [app fmap list_fmap] in *.
    split; [reflexivity|exact Hinv'].
Qed.

Lemma read_playlist_invalid (rows : list (list string))
    (songs : list (list item)) (most_votes : list item) :
  Exists (fun r => ~ valid_row r) rows ->
  read_playlist rows songs most_votes = None.
Proof.
  revert songs most_votes. induction rows as [|row rows IH];
    intros songs most_votes H; [inversion H|].
  cbn [read_playlist].
  destruct (read_song row most_votes) as [[song mv]|] eqn:E; [|reflexivity].
  cbn. apply IH. apply Exists_cons in H as [H|H]; [|exact H].
  rewrite read_song_invalid in E by exact H. discriminate E.
Qed.

Lemma valid_row_dec (row : list string) : {valid_row row} + {~ valid_row row}.
Proof.
  unfold valid_row.
  destruct (le_dec 2 (length row)); [|right; lia].
  destruct (le_dec (length row) 4); [left; lia|right; lia].
Qed.

Lemma rows_valid_or_not (rows : list (list string)) :
  {Forall valid_row rows} + {Exists (fun r => ~ valid_row r) rows}.
Proof. apply Forall_Exists_dec, valid_row_dec. Qed.

Lemma str_decide (p b : string) :
  bool_decide (Str p = Str b) = bool_decide (p = b).
Proof. apply bool_decide_ext. split; [intros [= ->]|intros ->]; reflexivity. Qed.

(** The update loop on the song of one row, and what the writer gets. *)
Lemma update_written (p : string) (row : list string) :
  valid_row row ->
  exists song',
    update_song (Str p) (song_of row) = Some song'
    /\ mapM written song' = Some (rewritten p row).
Proof.
  unfold valid_row. intros Hv.
  destruct row as [|a [|b [|c [|d [|e row]]]]]; cbn [length] in Hv; try lia.
  - unfold update_song, song_of, rewritten.
    cbn [fmap list_fmap app lookup list_lookup mbind option_bind length].
    rewrite str_decide. change (3 =? 3)%nat with true. rewrite andb_true_r.
    destruct (bool_decide (p = b)).
    + cbn [app lookup list_lookup mbind option_bind py_len].
      rewrite size_empty. cbn. eexists. split; reflexivity.
    + cbn [app lookup list_lookup mbind option_bind py_len].
      rewrite size_empty. cbn. eexists. split; reflexivity.
  - unfold update_song, song_of, rewritten.
    cbn [fmap list_fmap app lookup list_lookup mbind option_bind length].
    rewrite str_decide. change (3 =? 3)%nat with true. rewrite andb_true_r.
    destruct (bool_decide (p = b)).
    + cbn [app lookup list_lookup mbind option_bind py_len].
      rewrite votes_nonempty. cbn. eexists. split; reflexivity.
    + cbn [app lookup list_lookup mbind option_bind py_len].
      rewrite votes_nonempty. cbn. eexists. split; reflexivity.
  - unfold update_song, song_of, rewritten.
    cbn [fmap list_fmap app lookup list_lookup mbind option_bind length].
    change (4 =? 3)%nat with false. rewrite andb_false_r.
    cbn [app lookup list_lookup mbind option_bind py_len].
    rewrite votes_nonempty. cbn. eexists. split; reflexivity.
Qed.

Lemma update_all (p : string) (rows : list (list string)) :
  Forall valid_row rows ->
  exists songs',
    mapM (update_song (Str p)) (song_of <$> rows) = Some songs'
    /\ mapM (mapM written) songs' = Some (rewritten p <$> rows).
Proof.
  induction rows as [|row rows IH]; intros H.
  - exists []. split; reflexivity.
  - inversion H as [|? ? Hrow Hrest]; subst.
    destruct (update_written p row Hrow) as (song' & E1 & E2).
    destruct (IH Hrest) as (songs' & E3 & E4).
    exists (song' :: songs'). cbn [fmap list_fmap mapM].
    rewrite E1. cbn [mbind option_bind]. rewrite E3. cbn [mbind option_bind].
    split; [reflexivity|].
    rewrite E2. cbn [mbind option_bind]. rewrite E4. reflexivity.
Qed.

(** The choice by votes. *)
Lemma choose_song_votes (rows : list (list string)) (i : nat)
    (row : list string) :
  Forall valid_row rows ->
  read_playlist rows [] most_votes_init = Some (song_of <$> rows, song_of row) ->
  length row = 3%nat ->
  exists a b c, row = [a; b; c]
    /\ choose_song rows = Some (b, Some (rewritten b <$> rows)).
Proof.
  intros Hv Hread Hl.
  destruct row as [|a [|b [|c [|d row]]]]; try discriminate Hl.
  exists a, b, c. split; [reflexivity|].
  unfold choose_song. rewrite Hread.
  cbn [mbind option_bind song_of lookup list_lookup].
  rewrite bool_decide_eq_true_2 by discriminate.
  destruct (update_all b rows Hv) as (songs' & E1 & E2).
  rewrite E1. cbn [mbind option_bind]. rewrite E2. reflexivity.
Qed.

(** The choice at random. *)
Lemma choose_song_random (rows : list (list string)) :
  Forall valid_row rows ->
  read_playlist rows [] most_votes_init
    = Some (song_of <$> rows, most_votes_init) ->
  (rows = [] /\ choose_song rows = None)
  \/ (exists i row name,
        rows !! i = Some row /\ row !! 1%nat = Some name
        /\ choose_song rows = Some (name, None)).
Proof.
  intros Hv Hread. unfold choose_song. rewrite Hread.
  cbn [mbind option_bind most_votes_init lookup list_lookup].
  rewrite bool_decide_eq_false_2 by (intros H; apply H; reflexivity).
  rewrite length_fmap.
  destruct rows as [|r0 rows0] eqn:Er; [left; split; reflexivity|].
  rewrite <- Er in *. right.
  assert (Hn : 0 <= Z.of_nat (length rows) - 1)
    by (rewrite Er; cbn [length]; lia).
  destruct (Z.ltb_spec (Z.of_nat (length rows) - 1) 0); [lia|].
  pose proof (randint_range 0 (Z.of_nat (length rows) - 1) Hn) as Hr.
  set (k := Z.to_nat (randint 0 (Z.of_nat (length rows) - 1))).
  destruct (lookup_lt_is_Some_2 rows k ltac:(unfold k; lia)) as [row Hrow].
  pose proof (Forall_lookup_1 _ _ _ _ Hv Hrow) as Hvr.
  rewrite list_lookup_fmap, Hrow. cbn [fmap option_fmap option_map mbind option_bind].
  unfold valid_row in Hvr.
  destruct row as [|a [|b [|c [|d [|e row]]]]]; cbn [length] in Hvr; try lia;
    eexists k, _, b; (split; [exact Hrow|]); split; reflexivity.
Qed.

Lemma choose_song_cases (rows : list (list string)) :
  Forall valid_row rows ->
  (Forall (fun r => length r <> 3%nat) rows
   /\ ((rows = [] /\ choose_song rows = None)
       \/ (exists i row name,
             rows !! i = Some row /\ row !! 1%nat = Some name
             /\ choose_song rows = Some (name, None))))
  \/ (exists i a b c,
        best_choice rows i [a; b; c]
        /\ choose_song rows = Some (b, Some (rewritten b <$> rows))).
Proof.
  intros Hv.
  destruct (read_playlist_spec rows [] [] most_votes_init ltac:(constructor) Hv)
    as (mv & Hread & Hinv); [left; split; [reflexivity|constructor]|].
  cbn [app] in Hread, Hinv.
  destruct Hinv as [[-> Hnone]|(i & row & Hb & ->)].
  - left. split; [exact Hnone|]. apply choose_song_random; assumption.
  - right. destruct Hb as (Hi & Hl & Hmax).
    destruct (choose_song_votes rows i row Hv Hread Hl) as (a & b & c & -> & E).
    exists i, a, b, c. split; [|exact E]. split; [exact Hi|]. split; done.
Qed.

(** X13.  Which playlists are refused.  The song selection gives no song
    in exactly two cases: some row of the playlist has fewer than two or
    more than four fields (the exit on 'Invalid playlist'; a blank line
    is such a row), or the playlist has no row at all (the ValueError of
    [random.randint(0, -1)]).  Every other playlist yields a song,
    whatever the votes hold. *)
Theorem playlist_refused (rows : list (list string)) :
  choose_song rows = None
  <-> rows = []
      \/ Exists (fun r => (length r < 2)%nat \/ (4 < length r)%nat) rows.
Proof.
  split.
  - intros H. destruct (rows_valid_or_not rows) as [Hv|Hbad].
    + destruct (choose_song_cases rows Hv)
        as [[_ [[-> _]|(i & row & name & _ & _ & E)]]|(i & a & b & c & _ & E)].
      * left. reflexivity.
      * rewrite E in H. discriminate H.
      * rewrite E in H. discriminate H.
    + right. eapply Exists_impl; [exact Hbad|]. unfold valid_row. intros r Hr. lia.
  - intros [->|Hbad]; [reflexivity|].
    unfold choose_song. rewrite read_playlist_invalid; [reflexivity|].
    eapply Exists_impl; [exact Hbad|]. unfold valid_row. intros r Hr. lia.
Qed.

Lemma choose_song_valid (rows : list (list string))
    (r : string * option (list (list string))) :
  choose_song rows = Some r -> Forall valid_row rows.
Proof.
  intros H. destruct (rows_valid_or_not rows) as [Hv|Hbad]; [exact Hv|].
  unfold choose_song in H. rewrite read_playlist_invalid in H by exact Hbad.
  discriminate H.
Qed.

(** X14.  The most voted song wins.  When the playlist has a row of
    exactly three fields, the song chosen is the path of such a row, one
    with at least as many distinct votes as every other three-field row
    and strictly more than every three-field row after it (of several
    rows with the most votes the last one wins), and the playlist is
    rewritten.  Rows of two fields (no vote yet) and of four fields
    (already played) never compete.  A three-field row always counts at
    least one vote, even with an empty third field. *)
Theorem most_voted_song_wins (rows : list (list string)) (file : string)
    (out : option (list (list string))) :
  Exists (fun r => length r = 3%nat) rows ->
  choose_song rows = Some (file, out) ->
  exists i name votes,
    rows !! i = Some [name; file; votes]
    /\ is_Some out
    /\ (1 <= vote_count [name; file; votes])%nat
    /\ forall j r, rows !! j = Some r -> length r = 3%nat ->
         (vote_count r <= vote_count [name; file; votes])%nat
         /\ ((i < j)%nat -> (vote_count r < vote_count [name; file; votes])%nat).
Proof.
  intros H3 H. pose proof (choose_song_valid rows _ H) as Hv.
  destruct (choose_song_cases rows Hv) as [[Hnone _]|(i & a & b & c & Hb & E)].
  - exfalso. apply Exists_exists in H3 as (r & Hr & Hl).
    rewrite Forall_forall in Hnone. exact (Hnone r Hr Hl).
  - rewrite E in H. injection H as <- <-.
    destruct Hb as (Hi & _ & Hmax).
    exists i, a, c. split; [exact Hi|]. split; [eexists; reflexivity|].
    split; [|exact Hmax].
    unfold vote_count. cbn [lookup list_lookup].
    pose proof (votes_nonempty c) as Hn. apply Nat.ltb_lt in Hn. lia.
Qed.

(** X15.  Without a votable row the song is drawn at random.  When no row
    of the playlist has exactly three fields, the song chosen is the path
    of some row of the playlist (played or not), and the playlist is not
    rewritten. *)
Theorem no_votes_random_song (rows : list (list string)) (file : string)
    (out : option (list (list string))) :
  Forall (fun r => length r <> 3%nat) rows ->
  choose_song rows = Some (file, out) ->
  out = None
  /\ exists i row, rows !! i = Some row /\ row !! 1%nat = Some file.
Proof.
  intros Hnone H. pose proof (choose_song_valid rows _ H) as Hv.
  destruct (choose_song_cases rows Hv)
    as [[_ [[_ E]|(i & row & name & Hi & Hp & E)]]|(i & a & b & c & Hb & _)].
  - rewrite E in H. discriminate H.
  - rewrite E in H. injection H as <- <-. split; [reflexivity|].
    exists i, row. done.
  - exfalso. destruct Hb as (Hi & Hl & _).
    eapply Forall_lookup_1 in Hnone; [|exact Hi]. done.
Qed.

Lemma choose_song_out (rows : list (list string)) (file : string)
    (out : list (list string)) :
  choose_song rows = Some (file, Some out) ->
  Forall valid_row rows /\ out = rewritten file <$> rows.
Proof.
  intros H. pose proof (choose_song_valid rows _ H) as Hv.
  split; [exact Hv|].
  destruct (choose_song_cases rows Hv)
    as [[_ [[_ E]|(i & row & name & Hi & Hp & E)]]|(i & a & b & c & Hb & E)];
    rewrite E in H; [discriminate H|discriminate H|].
  injection H as <- <-. reflexivity.
Qed.

(** X16.  What the rewrite does to the playlist.  The rewritten playlist
    has the rows of the old one, in order, each with its name and path:
    a three-field row with the chosen path gets 'playing!' as fourth
    field, so that it does not compete at the next run; any other
    three-field row keeps three fields; a four-field row keeps its fourth
    field; a two-field row is left as it is, unless it has the chosen
    path, in which case 'playing!' becomes its third field. *)
Theorem playlist_rewrite (rows : list (list string)) (file : string)
    (out : list (list string)) :
  choose_song rows = Some (file, Some out) ->
  length out = length rows
  /\ forall j row, rows !! j = Some row ->
       exists orow,
         out !! j = Some orow
         /\ orow !! 0%nat = row !! 0%nat /\ orow !! 1%nat = row !! 1%nat
         /\ (length row = 3%nat ->
             if bool_decide (row !! 1%nat = Some file)
             then length orow = 4%nat /\ orow !! 3%nat = Some "playing!"%string
             else length orow = 3%nat)
         /\ (length row = 4%nat ->
             length orow = 4%nat /\ orow !! 3%nat = row !! 3%nat)
         /\ (length row = 2%nat ->
             orow = if bool_decide (row !! 1%nat = Some file)
                    then row ++ ["playing!"%string] else row).
Proof.
  intros H. destruct (choose_song_out rows file out H) as [Hv ->].
  split; [apply length_fmap|].
  intros j row Hj. exists (rewritten file row).
  split; [rewrite list_lookup_fmap, Hj; reflexivity|].
  pose proof (Forall_lookup_1 _ _ _ _ Hv Hj) as Hvr. unfold valid_row in Hvr.
  assert (Hd : forall b : string,
             bool_decide (Some b = Some file) = bool_decide (file = b)).
  { intros b. apply bool_decide_ext. split; [intros [= ->]|intros ->]; reflexivity. }
  destruct row as [|a [|b [|c [|d [|e row]]]]]; cbn [length] in Hvr; try lia;
    cbn [rewritten lookup list_lookup]; rewrite ?Hd.
  - destruct (bool_decide (file = b));
      (repeat split; try reflexivity; try discriminate).
  - destruct (bool_decide (file = b));
      (repeat split; try reflexivity; try discriminate).
  - repeat split; try reflexivity; try discriminate.
Qed.

Lemma comma_free_app (a : string) (c : ascii) :
  comma_free (a +:+ String c EmptyString)
  = comma_free a && negb (Ascii.eqb c comma).
Proof.
  induction a as [|x a IH].
  - change (comma_free (String c EmptyString) = true && negb (Ascii.eqb c comma)).
    cbn [comma_free andb]. apply andb_true_r.
  - rewrite append_cons. cbn [comma_free]. rewrite IH, andb_assoc. reflexivity.
Qed.

Lemma split_from_free (s cur : string) :
  comma_free cur = true ->
  Forall (fun f => comma_free f = true) (split_from s cur).
Proof.
  revert cur. induction s as [|c s IH]; intros cur Hc.
  - repeat constructor. exact Hc.
  - cbn [split_from]. destruct (Ascii.eqb c comma) eqn:E.
    + constructor; [exact Hc|]. apply IH. reflexivity.
    + apply IH. rewrite comma_free_app, Hc, E. reflexivity.
Qed.

Lemma split_from_field (f rest cur : string) :
  comma_free f = true ->
  split_from (f +:+ rest) cur = split_from rest (cur +:+ f).
Proof.
  revert cur. induction f as [|c f IH]; intros cur Hf.
  - rewrite append_nil_r. reflexivity.
  - cbn [comma_free] in Hf. apply andb_true_iff in Hf as [Hc Hf].
    rewrite append_cons. cbn [split_from].
    destruct (Ascii.eqb c comma); [discriminate|].
    rewrite IH by exact Hf. rewrite append_assoc. reflexivity.
Qed.

(** Splitting at the commas what was joined with commas. *)
Lemma split_join (l : list string) :
  l <> [] -> Forall (fun f => comma_free f = true) l ->
  py_split (join_fields l) = l.
Proof.
  unfold py_split. induction l as [|f l IH]; intros Hne Hl; [done|].
  inversion Hl as [|? ? Hf Hrest]; subst.
  destruct l as [|g l].
  - cbn [join_fields]. rewrite <- (append_nil_r f) at 1.
    rewrite split_from_field by exact Hf. reflexivity.
  - change (join_fields (f :: g :: l))
      with (f +:+ String comma (join_fields (g :: l))).
    rewrite split_from_field by exact Hf.
    cbn [split_from]. rewrite Ascii.eqb_refl.
    change (EmptyString +:+ f) with f. f_equal. apply IH; done.
Qed.

Lemma rejoin_votes (field : string) : votes_of (rejoin field) = votes_of field.
Proof.
  unfold rejoin. set (v := votes_of field).
  assert (Hin : forall x, x ∈ set_order v <-> x ∈ v).
  { intros x. rewrite (set_order_perm v). apply elem_of_elements. }
  unfold votes_of at 1. rewrite split_join.
  - rewrite (list_to_set_perm_L _ _ (set_order_perm v)).
    apply list_to_set_elements_L.
  - intros E. pose proof (votes_nonempty field) as Hn. apply Nat.ltb_lt in Hn.
    fold v in Hn.
    assert (Hv : v = ∅).
    { apply leibniz_equiv. intros x. rewrite <- Hin, E.
      split; intros Hx; inversion Hx. }
    rewrite Hv, size_empty in Hn. lia.
  - apply Forall_forall. intros x Hx. apply Hin in Hx.
    unfold v, votes_of in Hx. apply elem_of_list_to_set in Hx.
    pose proof (split_from_free field EmptyString eq_refl) as Hf.
    rewrite Forall_forall in Hf. apply Hf, Hx.
Qed.

(** X17.  The rewrite keeps the votes.  In the rewritten playlist every
    row that had a votes field has one again, in the same place, and read
    as a set of votes it is the set the old field gave: the same voters,
    each once, whatever the order in which Python lists the set.  The
    vote counts of the next run are those of this one. *)
Theorem rewrite_keeps_votes (rows : list (list string)) (file : string)
    (out : list (list string)) (j : nat) (row : list string) (field : string) :
  choose_song rows = Some (file, Some out) ->
  rows !! j = Some row -> row !! 2%nat = Some field ->
  exists orow ofield,
    out !! j = Some orow /\ orow !! 2%nat = Some ofield
    /\ votes_of ofield = votes_of field
    /\ vote_count orow = vote_count row.
Proof.
  intros H Hj Hf. destruct (choose_song_out rows file out H) as [Hv ->].
  pose proof (Forall_lookup_1 _ _ _ _ Hv Hj) as Hvr. unfold valid_row in Hvr.
  exists (rewritten file row), (rejoin field).
  split; [rewrite list_lookup_fmap, Hj; reflexivity|].
  pose proof (rejoin_votes field) as Hr.
  destruct row as [|a [|b [|c [|d [|e row]]]]]; cbn [length] in Hvr; try lia;
    cbn [lookup list_lookup] in Hf; try discriminate Hf;
    injection Hf as ->; cbn [rewritten].
  - destruct (bool_decide (file = b)); unfold vote_count;
      cbn [lookup list_lookup]; rewrite Hr; done.
  - unfold vote_count; cbn [lookup list_lookup]; rewrite Hr; done.
Qed.

(** ** One block, channel by channel *)

Lemma fresh_loop_channelwise (matrix : list float) (n k : nat) (st st' : state)
    (entry entry' : list string) (evs : list event) :
  for_each (seq k n) (fresh_channel matrix) (st, entry) = Some ((st', entry'), evs) ->
  length (gpio_writes evs) = n
  /\ length entry' = (length entry + n)%nat
  /\ (forall i, (i < k)%nat ->
        limit st' !! i = limit st !! i /\ offct st' !! i = offct st !! i)
  /\ (forall j, (j < length entry)%nat -> entry' !! j = entry !! j)
  /\ (forall i, (k <= i < k + n)%nat ->
        exists lim off m pin,
          limit st !! i = Some lim /\ offct st !! i = Some off
          /\ matrix !! i = Some m /\ gpio !! i = Some pin
          /\ limit st' !! i = Some (channel_step lim off m).1.1
          /\ offct st' !! i = Some (channel_step lim off m).1.2
          /\ entry' !! (length entry + (i - k))%nat
             = Some (bit (channel_step lim off m).2)
          /\ gpio_writes evs !! (i - k)%nat = Some (pin, (channel_step lim off m).2)).
Proof.
  revert k st entry evs. induction n as [|n IH]; intros k st entry evs H.
  - cbn in H. inversion H; subst. cbn [gpio_writes omap length].
    split; [reflexivity|]. split; [lia|]. split; [done|]. split; [done|].
    intros i Hi. lia.
  - cbn [seq for_each] in H.
    apply bind_Some in H as ([[s1 e1] ev1] & E1 & H).
    apply bind_Some in H as ([[s2 e2] ev2] & E2 & H).
    inversion H; subst; clear H.
    destruct (fresh_channel_inv _ _ _ _ _ _ _ E1)
      as (lim & off & m & pin & Hlim & Hoff & Hm & Hpin & -> & -> & Hw).
    destruct (IH _ _ _ _ E2) as (Hlen & Hel & Hlow & Hpre & Hmid).
    cbn [limit offct] in *. rewrite length_app in *. cbn [length] in *.
    rewrite gpio_writes_app, Hw. cbn [app length].
    split; [lia|]. split; [lia|]. split; [|split].
    + intros i Hi. destruct (Hlow i ltac:(lia)) as [-> ->].
      rewrite !list_lookup_insert_ne by lia. done.
    + intros j Hj. rewrite (Hpre j ltac:(lia)). apply lookup_app_l. exact Hj.
    + intros i Hi. destruct (decide (i = k)) as [->|Hne].
      * exists lim, off, m, pin. destruct (Hlow k ltac:(lia)) as [-> ->].
        rewrite Nat.sub_diag, Nat.add_0_r.
        rewrite (Hpre (length entry) ltac:(lia)).
        rewrite !list_lookup_insert_eq
          by (eapply lookup_lt_Some; eassumption).
        rewrite list_lookup_middle by reflexivity. done.
      * destruct (Hmid i ltac:(lia))
          as (lim' & off' & m' & pin' & Hl' & Ho' & Hm' & Hp' & Hl2 & Ho2 & He & Hg).
        rewrite list_lookup_insert_ne in Hl' by lia.
        rewrite list_lookup_insert_ne in Ho' by lia.
        exists lim', off', m', pin'.
        replace (length entry + (i - k))%nat
          with (length entry + 1 + (i - S k))%nat by lia.
        replace (i - k)%nat with (S (i - S k)) by lia.
        done.
Qed.

(** X18.  The eight channels of a block do not interfere.  When the
    update of a block goes through, every channel [i] ends with the limit
    and the counter that [channel_step] gives on its own limit, counter
    and band value, and its decision is the one written as field [i] of
    the row (eight fields) and as write [i] of the block's eight GPIO
    writes, on pin [gpio[i]].  What the properties of one channel say of
    a run of [channel_step] therefore holds of each channel of the
    script. *)
Theorem block_update_is_channelwise (matrix : list float) (st st' : state)
    (entry : list string) (evs : list event) :
  controller_update matrix st = Some (st', entry, evs) ->
  length entry = 8%nat /\ length (gpio_writes evs) = 8%nat
  /\ forall i, (i < 8)%nat ->
       exists lim off m pin,
         limit st !! i = Some lim /\ offct st !! i = Some off
         /\ matrix !! i = Some m /\ gpio !! i = Some pin
         /\ limit st' !! i = Some (channel_step lim off m).1.1
         /\ offct st' !! i = Some (channel_step lim off m).1.2
         /\ entry !! i = Some (bit (channel_step lim off m).2)
         /\ gpio_writes evs !! i = Some (pin, (channel_step lim off m).2).
Proof.
  unfold controller_update. intros H.
  destruct (fresh_loop_channelwise _ _ _ _ _ _ _ _ H)
    as (Hlen & Hel & _ & _ & Hmid).
  cbn [length] in Hel. split; [exact Hel|]. split; [exact Hlen|].
  intros i Hi. destruct (Hmid i ltac:(lia))
    as (lim & off & m & pin & ? & ? & ? & ? & ? & ? & He & Hg).
  cbn [length] in He. rewrite Nat.sub_0_r in He, Hg. cbn [Nat.add] in He.
  exists lim, off, m, pin. done.
Qed.

Lemma replay_loop_writes (entry : list string) (n k : nat) (st st' : state)
    (evs : list event) :
  for_each (seq k n) (replay_channel entry) st = Some (st', evs) ->
  length (gpio_writes evs) = n
  /\ forall i, (k <= i < k + n)%nat ->
       exists s z pin,
         entry !! i = Some s /\ py_int s = Some z /\ gpio !! i = Some pin
         /\ gpio_writes evs !! (i - k)%nat = Some (pin, negb (z =? 0)).
Proof.
  revert k st evs. induction n as [|n IH]; intros k st evs H.
  - cbn in H. inversion H; subst. split; [reflexivity|]. intros i Hi. lia.
  - cbn [seq for_each] in H.
    apply bind_Some in H as ([s1 ev1] & E1 & H).
    apply bind_Some in H as ([s2 ev2] & E2 & H).
    inversion H; subst; clear H.
    destruct (replay_channel_inv _ _ _ _ _ E1)
      as (s & z & pin & Hs & Hz & Hp & _ & ->).
    destruct (IH _ _ _ E2) as (Hlen & Hmid).
    rewrite gpio_writes_app.
    change (gpio_writes [GpioOutput pin (negb (z =? 0))])
      with [(pin, negb (z =? 0))].
    cbn [app length]. split; [lia|].
    intros i Hi. destruct (decide (i = k)) as [->|Hne].
    + exists s, z, pin. rewrite Nat.sub_diag. done.
    + destruct (Hmid i ltac:(lia)) as (s' & z' & pin' & ? & ? & ? & Hg).
      exists s', z', pin'. replace (i - k)%nat with (S (i - S k)) by lia. done.
Qed.

(** X19.  What a replayed block puts on the lights.  A block replayed
    from a cached row makes exactly eight GPIO writes, one per channel in
    channel order, on the pins of [gpio]; channel [i] is driven high when
    field [i] of the row reads as a non-zero integer and low when it
    reads as zero, whatever the row holds after its eighth field. *)
Theorem replay_block_writes (row : nat) (st st' : state) (entry : list string)
    (ev : list event) :
  cache st !! row = Some entry ->
  replay_block row st = Some (st', ev) ->
  length (gpio_writes ev) = 8%nat
  /\ forall i, (i < 8)%nat ->
       exists s z pin,
         entry !! i = Some s /\ py_int s = Some z /\ gpio !! i = Some pin
         /\ gpio_writes ev !! i = Some (pin, negb (z =? 0)).
Proof.
  unfold replay_block. intros -> H.
  destruct (replay_loop_writes _ _ _ _ _ _ H) as (Hlen & Hmid).
  split; [exact Hlen|]. intros i Hi.
  destruct (Hmid i ltac:(lia)) as (s & z & pin & ? & ? & ? & Hg).
  rewrite Nat.sub_0_r in Hg. exists s, z, pin. done.
Qed.

(** ** Thresholds below 72, empty bands included *)

Lemma channel_step_below_72_nan (lim : float) (off : Z) (m : float) :
  positive_finite lim -> flt lim (of_Z 72) = true ->
  valid m = true -> is_nan m = true \/ fle m (of_Z 100) = true ->
  positive_finite (channel_step lim off m).1.1
  /\ flt (channel_step lim off m).1.1 (of_Z 72) = true.
Proof.
  intros Hl H72 Hm [Hn|H100]; [|apply channel_step_below_72; assumption].
  destruct m; try discriminate Hn.
  destruct (nan_band_is_off lim off) as [Hg _].
  unfold channel_step, recalibrate. rewrite Hg.
  replace (fgt S754_nan lim) with false
    by (unfold fgt, SFltb; destruct lim; reflexivity).
  destruct (10 <? off + 1); cbn [fst]; [apply decay_below_72; assumption|done].
Qed.

(** X20.  The bound of 72 holds on what [calculate_levels] can return.
    With every band value a binary64 datum that is a NaN (an empty band)
    or at most 100 (negative values included), and the limits starting at
    5, every limit stays strictly below 72 after every update: a NaN
    never raises a limit. *)
Theorem thresholds_below_72_with_nan (matrices : list (list float)) :
  Forall (fun matrix => length matrix = 8%nat
            /\ Forall (fun m => valid m = true
                                /\ (is_nan m = true \/ fle m (of_Z 100) = true))
                 matrix) matrices ->
  exists st, controller_run matrices state_init = Some st
    /\ Forall (fun t => flt t (of_Z 72) = true /\ fgt t fzero = true) (limit st).
Proof.
  intros Hms.
  set (P := fun t => positive_finite t /\ flt t (of_Z 72) = true).
  set (Q := fun m => valid m = true
                     /\ (is_nan m = true \/ fle m (of_Z 100) = true)).
  assert (Hstep : forall lim off m, P lim -> Q m -> P (channel_step lim off m).1.1).
  { intros lim off m [Hp Hl] (Hv & Hr). apply channel_step_below_72_nan; assumption. }
  destruct (controller_run_keeps P Q matrices state_init Hstep)
    as (st & E & HP); [reflexivity|reflexivity|exact Hms| |].
  - apply Forall_replicate, initial_limit_below_72.
  - exists st. split; [exact E|].
    eapply Forall_impl; [exact HP|]. intros t [Hp H]. split; [exact H|].
    destruct t as [|?| |[|] mt et]; try contradiction. reflexivity.
Qed.

(** ** The playlist at the next run *)

Lemma rewritten_valid (file : string) (row : list string) :
  valid_row row -> valid_row (rewritten file row).
Proof.
  unfold valid_row. intros Hv.
  destruct row as [|a [|b [|c [|d [|e row]]]]]; cbn [length] in Hv; try lia;
    cbn [rewritten]; try destruct (bool_decide (file = b)); cbn [length]; lia.
Qed.

(** X21.  The script accepts the playlist it writes.  After a choice by
    votes, the rewritten playlist is again a valid one: every row has two
    to four fields and there is at least one row, so the selection run on
    it yields a song. *)
Theorem rewritten_playlist_is_accepted (rows : list (list string))
    (file : string) (out : list (list string)) :
  choose_song rows = Some (file, Some out) ->
  out <> []
  /\ Forall (fun r => (2 <= length r <= 4)%nat) out
  /\ is_Some (choose_song out).
Proof.
  intros H. destruct (choose_song_out rows file out H) as [Hv ->].
  assert (Hne : rewritten file <$> rows <> []).
  { destruct rows; [|discriminate]. discriminate H. }
  assert (Hv' : Forall valid_row (rewritten file <$> rows)).
  { apply Forall_fmap. eapply Forall_impl; [exact Hv|].
    intros r Hr. apply rewritten_valid, Hr. }
  split; [exact Hne|]. split; [exact Hv'|].
  destruct (choose_song_cases _ Hv')
    as [[_ [[E _]|(i & row & name & _ & _ & E)]]|(i & a & b & c & _ & E)].
  - contradiction.
  - rewrite E. eexists. reflexivity.
  - rewrite E. eexists. reflexivity.
Qed.

End Script.

(** * Worked instances *)

Lemma plain_roundtrip (s : string) : plain_read (plain_write s) = (s, true).
Proof. reflexivity. Defined.

Lemma sum_left_nil : sum_left [] = fzero.
Proof. reflexivity. Defined.

Lemma replay_reproduces_fresh_run_witness :
  exists o1,
    load_cache plain_read ∅ "/home/pi/music/a.wav" = ([], false)
    /\ play example_loud_rfft_abs sum_left plain_write plain_read
         "/home/pi/music/a.wav" 44100 [example_block; example_block] ∅ = Some o1
    /\ gpio_writes <$> out_blocks o1
       = [[(11, true); (12, false); (13, false); (15, false);
           (16, false); (18, false); (22, false); (7, false)];
          [(11, true); (12, false); (13, false); (15, false);
           (16, false); (18, false); (22, false); (7, false)]]
    /\ exists o2,
         play example_loud_rfft_abs sum_left plain_write plain_read
           "/home/pi/music/a.wav" 44100 [example_block; example_block] (out_fs o1)
         = Some o2
         /\ out_found o1 = false /\ out_found o2 = true
         /\ gpio_writes <$> out_blocks o2 = gpio_writes <$> out_blocks o1
         /\ fft_calls (out_state o2) = 0%nat
         /\ out_fs o2 = out_fs o1.
Proof.
  destruct (play example_loud_rfft_abs sum_left plain_write plain_read
              "/home/pi/music/a.wav" 44100 [example_block; example_block] ∅)
    as [o1|] eqn:E; [|vm_compute in E; discriminate E].
  assert (Hl : load_cache plain_read ∅ "/home/pi/music/a.wav" = ([], false))
    by reflexivity.
  assert (Hw : gpio_writes <$> out_blocks o1
               = [[(11, true); (12, false); (13, false); (15, false);
                   (16, false); (18, false); (22, false); (7, false)];
                  [(11, true); (12, false); (13, false); (15, false);
                   (16, false); (18, false); (22, false); (7, false)]])
    by (vm_compute in E; injection E as <-; reflexivity).
  exists o1. split; [exact Hl|]. split; [reflexivity|]. split; [exact Hw|].
  apply (replay_reproduces_fresh_run example_loud_rfft_abs sum_left plain_write
           plain_read plain_roundtrip "/home/pi/music/a.wav" 44100
           [example_block; example_block] ∅ o1 Hl E).
Defined.

Lemma thresholds_stay_positive_witness :
  Forall (fun matrix : list float => length matrix = 8%nat)
    [replicate 8 (of_Z 10); replicate 8 (of_Z 0)]
  /\ exists st,
       controller_run [replicate 8 (of_Z 10); replicate 8 (of_Z 0)] state_init
         = Some st
       /\ Forall (fun t => fgt t fzero = true) (limit st).
Proof.
  assert (H : Forall (fun matrix : list float => length matrix = 8%nat)
                [replicate 8 (of_Z 10); replicate 8 (of_Z 0)])
    by (repeat constructor).
  split; [exact H|].
  exact (proj1 (thresholds_stay_positive _ H)).
Defined.

Lemma equal_threshold_is_off_witness :
  exists r,
    limit state_init !! 0%nat = Some (of_Z 5)
    /\ replicate 8 (of_Z 5) !! 0%nat = Some (of_Z 5)
    /\ feq (of_Z 5) (recalibrate (of_Z 5) (of_Z 5)) = true
    /\ fresh_channel (replicate 8 (of_Z 5)) 0 (state_init, []) = Some r
    /\ decide_on (of_Z 5) (of_Z 5) = false
    /\ r.1.2 = ["0"%string]
    /\ exists pin, gpio !! 0%nat = Some pin
         /\ gpio_writes r.2 = [(pin, false)]
         /\ pins r.1.1 !! pin = Some false.
Proof.
  destruct (fresh_channel (replicate 8 (of_Z 5)) 0 (state_init, []))
    as [r|] eqn:E; [|vm_compute in E; discriminate E].
  exists r. do 4 (split; [reflexivity|]).
  exact (equal_threshold_is_off (replicate 8 (of_Z 5)) 0 state_init []
           (of_Z 5) (of_Z 5) r eq_refl eq_refl (or_intror eq_refl) E).
Defined.


Lemma store_then_load_witness :
  (0 < 8)%nat
  /\ sync_record 8 [bit <$> [true; false; true; true; false; false; true; false];
                    bit <$> [false; false; false; false; true; true; true; true]]
  /\ load_cache plain_read
       (store_cache plain_write ∅ "/home/pi/music/a.wav"
          [bit <$> [true; false; true; true; false; false; true; false];
           bit <$> [false; false; false; false; true; true; true; true]])
       "/home/pi/music/a.wav"
     = ([bit <$> [true; false; true; true; false; false; true; false];
         bit <$> [false; false; false; false; true; true; true; true]], true).
Proof.
  assert (Hw : (0 < 8)%nat) by lia.
  assert (Hr : sync_record 8
                 [bit <$> [true; false; true; true; false; false; true; false];
                  bit <$> [false; false; false; false; true; true; true; true]]).
  { repeat constructor; eexists; reflexivity. }
  split; [exact Hw|]. split; [exact Hr|].
  exact (store_then_load plain_write plain_read plain_roundtrip ∅
           "/home/pi/music/a.wav" 8 _ Hw Hr).
Defined.

Lemma replay_past_end_freezes_witness :
  exists st1 evs1,
    Forall (fun data : string => data <> EmptyString) [example_block]
    /\ length [example_block] = length (cache example_replay_state)
    /\ main_loop example_rfft_abs sum_left true 44100 [example_block] 0
         example_replay_state = Some (st1, evs1)
    /\ (exists evs2,
          main_loop example_rfft_abs sum_left true 44100
            ([example_block] ++ [example_block; example_block]) 0
            example_replay_state
          = Some (st1, evs1 ++ evs2)
          /\ Forall (fun ev => gpio_writes ev = []
                               /\ exists data, ev = [PcmWrite data; LogRanOut])
               evs2)
    /\ pins st1 !! 11 = Some true /\ pins st1 !! 12 = Some false.
Proof.
  destruct (main_loop example_rfft_abs sum_left true 44100 [example_block] 0
              example_replay_state) as [[st1 evs1]|] eqn:E;
    [|vm_compute in E; discriminate E].
  assert (H : Forall (fun data : string => data <> EmptyString) [example_block])
    by (repeat constructor; discriminate).
  exists st1, evs1. split; [exact H|]. split; [reflexivity|].
  split; [reflexivity|].
  destruct (replay_past_end_freezes example_rfft_abs sum_left 44100
              [example_block] [example_block; example_block]
              example_replay_state st1 evs1 H eq_refl E) as [Hrun Hpins].
  split; [exact Hrun|]. split.
  - apply (Hpins _ 0%nat 11 "1"%string 1 eq_refl); [lia|reflexivity..].
  - apply (Hpins _ 1%nat 12 "0"%string 0 eq_refl); [lia|reflexivity..].
Defined.

Lemma empty_band_yields_nan_witness :
  unpack_h example_block = Some [25185; 25699; 26213; 26727]
  /\ band_edges !! 0%nat = Some (0, 156)
  /\ piff 2000000 0 = Some 0 /\ piff 2000000 156 = Some 0
  /\ py_slice (removelast (example_rfft_abs [25185; 25699; 26213; 26727])) 0 0 = []
  /\ exists levels,
       calculate_levels example_rfft_abs sum_left example_block 2000000
         = Some levels
       /\ length levels = 8%nat
       /\ levels !! 0%nat = Some S754_nan.
Proof.
  do 5 (split; [reflexivity|]).
  exact (empty_band_yields_nan example_rfft_abs sum_left sum_left_nil
           example_block 2000000 [25185; 25699; 26213; 26727] 0 0 156 0 0
           eq_refl eq_refl eq_refl eq_refl eq_refl).
Defined.

Lemma thresholds_below_72_witness :
  Forall (fun matrix : list float =>
            length matrix = 8%nat
            /\ Forall (fun m => valid m = true /\ fle fzero m = true
                                /\ fle m (of_Z 100) = true) matrix)
    [replicate 8 (of_Z 100); replicate 8 (of_Z 0)]
  /\ exists st,
       controller_run [replicate 8 (of_Z 100); replicate 8 (of_Z 0)] state_init
         = Some st
       /\ Forall (fun t => flt t (of_Z 72) = true) (limit st).
Proof.
  assert (H : Forall (fun matrix : list float =>
                        length matrix = 8%nat
                        /\ Forall (fun m => valid m = true /\ fle fzero m = true
                                            /\ fle m (of_Z 100) = true) matrix)
                [replicate 8 (of_Z 100); replicate 8 (of_Z 0)])
    by (repeat constructor).
  split; [exact H|].
  exact (proj1 (thresholds_below_72 _ H)).
Defined.

(** C8, as the specification words it, fails: at a frame rate of 2 MHz the
    bin range of the first band, [piff(0), piff(156)), is empty, and on a
    power array of three magnitudes the band values come back without any
    error, the first of them a NaN, which is neither a failure nor 0.  At
    44100 Hz the same happens to the seven upper bands of a last, short
    block that leaves three bins. *)
Lemma empty_band_counterexample :
  piff 2000000 0 = Some 0 /\ piff 2000000 156 = Some 0
  /\ band_levels sum_left [of_Z 100000; of_Z 200000; of_Z 300000] 2000000
     = Some [S754_nan; of_Z 2; of_Z 8; of_Z 12;
             S754_nan; S754_nan; S754_nan; S754_nan]
  /\ band_levels sum_left [of_Z 100000; of_Z 200000; of_Z 300000] 44100
     = Some [of_Z 4; S754_nan; S754_nan; S754_nan;
             S754_nan; S754_nan; S754_nan; S754_nan]
  /\ feq S754_nan fzero = false.
Proof. repeat split; vm_compute; reflexivity. Qed.

Lemma store_is_not_atomic_witness :
  (0 < 8)%nat
  /\ sync_record 8 [bit <$> [true; false; true; true; false; false; true; false];
                    bit <$> [false; false; false; false; true; true; true; true]]
  /\ load_cache plain_read
       (store_interrupted plain_write ∅ "/home/pi/music/a.wav"
          [bit <$> [true; false; true; true; false; false; true; false];
           bit <$> [false; false; false; false; true; true; true; true]] 1)
       "/home/pi/music/a.wav"
     = ([bit <$> [true; false; true; true; false; false; true; false]], true).
Proof.
  assert (Hw : (0 < 8)%nat) by lia.
  assert (Hr : sync_record 8
                 [bit <$> [true; false; true; true; false; false; true; false];
                  bit <$> [false; false; false; false; true; true; true; true]]).
  { repeat constructor; eexists; reflexivity. }
  split; [exact Hw|]. split; [exact Hr|].
  exact (proj1 (proj2 (store_is_not_atomic plain_write plain_read
                         plain_roundtrip ∅ "/home/pi/music/a.wav" 8 _ 1 Hw Hr))).
Defined.

(** C9, as the specification words it, fails: a store of two rows cut short
    after the first leaves a cache that the next run finds and loads, and
    what it loads is neither the complete record nor nothing. *)
Lemma interrupted_store_counterexample :
  load_cache plain_read
    (store_interrupted plain_write ∅ "/home/pi/music/a.wav"
       [bit <$> [true; false; true; true; false; false; true; false];
        bit <$> [false; false; false; false; true; true; true; true]] 1)
    "/home/pi/music/a.wav"
  = ([["1"; "0"; "1"; "1"; "0"; "0"; "1"; "0"]%string], true)
  /\ [["1"; "0"; "1"; "1"; "0"; "0"; "1"; "0"]%string]
     <> [bit <$> [true; false; true; true; false; false; true; false];
         bit <$> [false; false; false; false; true; true; true; true]]
  /\ [["1"; "0"; "1"; "1"; "0"; "0"; "1"; "0"]%string] <> [].
Proof. split; [reflexivity|]. split; discriminate. Qed.

Lemma counters_stay_in_range_witness :
  exists st evs,
    main_loop example_rfft_abs sum_left false 44100 [example_block] 0 state_init
      = Some (st, evs)
    /\ Forall (fun c => 0 <= c <= 10) (offct st)
    /\ length (offct st) = length (offct state_init)
    /\ length (limit st) = length (limit state_init).
Proof.
  destruct (main_loop example_rfft_abs sum_left false 44100 [example_block] 0
              state_init) as [[st evs]|] eqn:E; [|vm_compute in E; discriminate E].
  exists st, evs. split; [reflexivity|].
  apply (counters_stay_in_range example_rfft_abs sum_left false 44100
           [example_block] 0 state_init st evs); [|exact E].
  repeat constructor; lia.
Defined.

Lemma lights_off_after_play_witness :
  exists o,
    play example_rfft_abs sum_left plain_write plain_read
      "/home/pi/music/a.wav" 44100 [example_block; example_block] ∅ = Some o
    /\ forall pin, pin ∈ gpio -> pins (out_state o) !! pin = Some false.
Proof.
  destruct (play example_rfft_abs sum_left plain_write plain_read
              "/home/pi/music/a.wav" 44100 [example_block; example_block] ∅)
    as [o|] eqn:E; [|vm_compute in E; discriminate E].
  exists o. split; [reflexivity|].
  exact (proj1 (lights_off_after_play example_rfft_abs sum_left plain_write
                  plain_read "/home/pi/music/a.wav" 44100
                  [example_block; example_block] ∅ o E)).
Defined.

Lemma audio_passes_through_witness :
  exists st evs,
    main_loop example_rfft_abs sum_left false 44100
      [example_block; example_block; EmptyString; example_block] 0 state_init
      = Some (st, evs)
    /\ pcm_writes (concat evs) = [example_block; example_block].
Proof.
  destruct (main_loop example_rfft_abs sum_left false 44100
              [example_block; example_block; EmptyString; example_block] 0
              state_init) as [[st evs]|] eqn:E; [|vm_compute in E; discriminate E].
  exists st, evs. split; [reflexivity|].
  exact (proj1 (audio_passes_through example_rfft_abs sum_left false 44100
                  [example_block; example_block; EmptyString; example_block]
                  0 state_init st evs E)).
Defined.

Lemma fresh_run_record_witness :
  exists o new,
    play example_rfft_abs sum_left plain_write plain_read
      "/home/pi/music/a.wav" 44100 [example_block; example_block] ∅ = Some o
    /\ out_found o = false
    /\ cache (out_state o) = new
    /\ length new = 2%nat
    /\ sync_record 8 new
    /\ fft_calls (out_state o) = 2%nat.
Proof.
  destruct (play example_rfft_abs sum_left plain_write plain_read
              "/home/pi/music/a.wav" 44100 [example_block; example_block] ∅)
    as [o|] eqn:E; [|vm_compute in E; discriminate E].
  assert (Hf : out_found o = false)
    by (vm_compute in E; inversion E; reflexivity).
  destruct (fresh_run_record example_rfft_abs sum_left plain_write plain_read
              "/home/pi/music/a.wav" 44100 [example_block; example_block] ∅ o
              E Hf) as (new & Hc & Hn & Hrec & Hcalls & _).
  exists o, new. repeat split; assumption.
Defined.

Lemma replay_run_is_read_only_witness :
  exists o,
    play example_rfft_abs sum_left plain_write plain_read
      "/home/pi/music/a.wav" 44100 [example_block; example_block]
      {[ "/home/pi/music/.a.wav.sync.gz"%string
           := csv_writerows [bit <$> [true; false; true; true;
                                      false; false; true; false]] ]}
      = Some o
    /\ out_found o = true
    /\ out_fs o = {[ "/home/pi/music/.a.wav.sync.gz"%string
                       := csv_writerows [bit <$> [true; false; true; true;
                                                  false; false; true; false]] ]}
    /\ fft_calls (out_state o) = 0%nat.
Proof.
  destruct (play example_rfft_abs sum_left plain_write plain_read
              "/home/pi/music/a.wav" 44100 [example_block; example_block]
              {[ "/home/pi/music/.a.wav.sync.gz"%string
                   := csv_writerows [bit <$> [true; false; true; true;
                                              false; false; true; false]] ]})
    as [o|] eqn:E; [|vm_compute in E; discriminate E].
  assert (Hf : out_found o = true)
    by (vm_compute in E; inversion E; reflexivity).
  destruct (replay_run_is_read_only example_rfft_abs sum_left plain_write
              plain_read "/home/pi/music/a.wav" 44100
              [example_block; example_block] _ o E Hf) as (Hfs & Hcalls & _).
  exists o. repeat split; assumption.
Defined.

Lemma replay_block_defined_witness :
  cache example_replay_state !! 0%nat
    = Some (bit <$> [true; false; true; true; false; false; true; false])
  /\ is_Some (replay_block 0 example_replay_state).
Proof.
  split; [reflexivity|].
  apply (proj1 (replay_block_defined 0 example_replay_state) _ eq_refl).
  intros i Hi.
  do 8 (destruct i as [|i]; [eexists _, _; split; reflexivity|]). lia.
Defined.

Lemma bands_tile_spectrum_witness :
  0 < 44100
  /\ exists slices top,
       mapM (band_slice (of_Z <$> [1; 2; 3; 4; 5; 6; 7]) 44100) band_edges
         = Some slices
       /\ piff 44100 15000 = Some top
       /\ concat slices = take (Z.to_nat top) (of_Z <$> [1; 2; 3; 4; 5; 6; 7]).
Proof.
  assert (H : 0 < 44100) by lia.
  split; [exact H|].
  destruct (bands_tile_spectrum sum_left (of_Z <$> [1; 2; 3; 4; 5; 6; 7]) 44100 H)
    as (slices & top & Hs & Ht & Hc & _).
  exists slices, top. repeat split; assumption.
Defined.

Lemma cache_file_beside_song_witness :
  slash_free "a.wav" = true /\ ends_in_slash "/home/pi/music" = false
  /\ cache_filename "/home/pi/music/a.wav" = "/home/pi/music/.a.wav.sync.gz"%string
  /\ (cache_filename "/home/pi/music/a.wav" = cache_filename "/b.wav" ->
      "/home/pi/music/a.wav"%string = "/b.wav"%string).
Proof.
  split; [reflexivity|]. split; [reflexivity|].
  exact (cache_file_beside_song "/home/pi/music" "a.wav" EmptyString "b.wav"
           eq_refl eq_refl eq_refl eq_refl).
Defined.

Lemma play_writes_only_the_cache_witness :
  exists o,
    play example_rfft_abs sum_left plain_write plain_read
      "/home/pi/music/a.wav" 44100 [example_block]
      {[ "/home/pi/music/a.wav"%string := "RIFF"%string ]} = Some o
    /\ out_fs o !! "/home/pi/music/a.wav"%string = Some "RIFF"%string.
Proof.
  destruct (play example_rfft_abs sum_left plain_write plain_read
              "/home/pi/music/a.wav" 44100 [example_block]
              {[ "/home/pi/music/a.wav"%string := "RIFF"%string ]})
    as [o|] eqn:E; [|vm_compute in E; discriminate E].
  exists o. split; [reflexivity|].
  destruct (play_writes_only_the_cache example_rfft_abs sum_left plain_write
              plain_read "/home/pi/music/a.wav" 44100 [example_block] _ o E)
    as (_ & Hsong & _).
  rewrite Hsong. reflexivity.
Defined.



Lemma pick_first_range (a b : Z) : a <= b -> a <= pick_first a b <= b.
Proof. unfold pick_first. lia. Defined.

Lemma elements_order (v : gset string) : elements v ≡ₚ elements v.
Proof. reflexivity. Defined.

Lemma playlist_refused_witness :
  choose_song elements pick_first [["Song C"; "/music/c.mp3"]; []]%string = None
  /\ choose_song elements pick_first [] = None.
Proof.
  split; apply (playlist_refused elements pick_first pick_first_range).
  - right. apply Exists_cons_tl, Exists_cons_hd. left. cbn. lia.
  - left. reflexivity.
Defined.

Lemma most_voted_song_wins_witness :
  Exists (fun r : list string => length r = 3%nat) example_playlist
  /\ choose_song elements pick_first example_playlist
     = Some ("/music/b.mp3"%string,
             Some [["Song A"; "/music/a.mp3"; "5551,5552"];
                   ["Song B"; "/music/b.mp3"; "5553,5554"; "playing!"];
                   ["Song C"; "/music/c.mp3"];
                   ["Song D"; "/music/d.mp3"; "5553,5551,5552"; "playing!"]]%string)
  /\ exists i name votes,
       example_playlist !! i = Some [name; "/music/b.mp3"%string; votes]
       /\ (1 <= vote_count [name; "/music/b.mp3"%string; votes])%nat.
Proof.
  assert (H3 : Exists (fun r : list string => length r = 3%nat) example_playlist)
    by (apply Exists_cons_hd; reflexivity).
  assert (E : choose_song elements pick_first example_playlist
              = Some ("/music/b.mp3"%string,
                      Some [["Song A"; "/music/a.mp3"; "5551,5552"];
                            ["Song B"; "/music/b.mp3"; "5553,5554"; "playing!"];
                            ["Song C"; "/music/c.mp3"];
                            ["Song D"; "/music/d.mp3"; "5553,5551,5552";
                             "playing!"]]%string))
    by (vm_compute; reflexivity).
  split; [exact H3|]. split; [exact E|].
  destruct (most_voted_song_wins elements pick_first pick_first_range
              example_playlist _ _ H3 E) as (i & name & votes & Hi & _ & Hn & _).
  exists i, name, votes. split; assumption.
Defined.

Lemma no_votes_random_song_witness :
  Forall (fun r : list string => length r <> 3%nat)
    [["Song C"; "/music/c.mp3"];
     ["Song D"; "/music/d.mp3"; "5551"; "playing!"]]%string
  /\ choose_song elements pick_first
       [["Song C"; "/music/c.mp3"];
        ["Song D"; "/music/d.mp3"; "5551"; "playing!"]]%string
     = Some ("/music/c.mp3"%string, None)
  /\ exists i row,
       [["Song C"; "/music/c.mp3"];
        ["Song D"; "/music/d.mp3"; "5551"; "playing!"]]%string !! i = Some row
       /\ row !! 1%nat = Some "/music/c.mp3"%string.
Proof.
  assert (Hn : Forall (fun r : list string => length r <> 3%nat)
                 [["Song C"; "/music/c.mp3"];
                  ["Song D"; "/music/d.mp3"; "5551"; "playing!"]]%string)
    by (repeat constructor; discriminate).
  assert (E : choose_song elements pick_first
                [["Song C"; "/music/c.mp3"];
                 ["Song D"; "/music/d.mp3"; "5551"; "playing!"]]%string
              = Some ("/music/c.mp3"%string, None))
    by (vm_compute; reflexivity).
  split; [exact Hn|]. split; [exact E|].
  exact (proj2 (no_votes_random_song elements pick_first pick_first_range
                  _ _ _ Hn E)).
Defined.

Lemma playlist_rewrite_witness :
  exists out,
    choose_song elements pick_first example_playlist
      = Some ("/music/b.mp3"%string, Some out)
    /\ length out = length example_playlist.
Proof.
  destruct (choose_song elements pick_first example_playlist)
    as [[file [out|]]|] eqn:E; try (vm_compute in E; discriminate E).
  assert (file = "/music/b.mp3"%string) as ->
    by (vm_compute in E; congruence).
  exists out. split; [reflexivity|].
  exact (proj1 (playlist_rewrite elements pick_first pick_first_range
                  example_playlist _ out E)).
Defined.

Lemma rewrite_keeps_votes_witness :
  exists out orow ofield,
    choose_song elements pick_first example_playlist
      = Some ("/music/b.mp3"%string, Some out)
    /\ example_playlist !! 3%nat
       = Some ["Song D"; "/music/d.mp3"; "5551,5552,5553"; "playing!"]%string
    /\ out !! 3%nat = Some orow /\ orow !! 2%nat = Some ofield
    /\ votes_of ofield = votes_of "5551,5552,5553"
    /\ vote_count orow = 3%nat.
Proof.
  destruct (choose_song elements pick_first example_playlist)
    as [[file [out|]]|] eqn:E; try (vm_compute in E; discriminate E).
  assert (file = "/music/b.mp3"%string) as ->
    by (vm_compute in E; congruence).
  destruct (rewrite_keeps_votes elements elements_order pick_first
              pick_first_range example_playlist _ out 3
              ["Song D"; "/music/d.mp3"; "5551,5552,5553"; "playing!"]%string
              "5551,5552,5553"%string E eq_refl eq_refl)
    as (orow & ofield & Ho & Hf & Hv & Hc).
  exists out, orow, ofield. split; [reflexivity|]. split; [reflexivity|].
  split; [exact Ho|]. split; [exact Hf|]. split; [exact Hv|].
  rewrite Hc. vm_compute. reflexivity.
Defined.

Lemma block_update_is_channelwise_witness :
  exists st entry evs,
    controller_update (replicate 8 (of_Z 10)) state_init = Some (st, entry, evs)
    /\ length entry = 8%nat /\ length (gpio_writes evs) = 8%nat
    /\ limit st !! 0%nat = Some (channel_step (of_Z 5) 0 (of_Z 10)).1.1.
Proof.
  destruct (controller_update (replicate 8 (of_Z 10)) state_init)
    as [[[st entry] evs]|] eqn:E; [|vm_compute in E; discriminate E].
  destruct (block_update_is_channelwise _ _ _ _ _ E) as (He & Hg & Hch).
  exists st, entry, evs. split; [reflexivity|]. split; [exact He|].
  split; [exact Hg|].
  destruct (Hch 0%nat ltac:(lia))
    as (lim & off & m & pin & Hl & Ho & Hm & _ & Hl' & _).
  injection Hl as <-. injection Ho as <-. injection Hm as <-. exact Hl'.
Defined.

Lemma replay_block_writes_witness :
  exists st' ev,
    cache example_replay_state !! 0%nat
      = Some (bit <$> [true; false; true; true; false; false; true; false])
    /\ replay_block 0 example_replay_state = Some (st', ev)
    /\ length (gpio_writes ev) = 8%nat.
Proof.
  destruct (replay_block 0 example_replay_state) as [[st' ev]|] eqn:E;
    [|vm_compute in E; discriminate E].
  exists st', ev. split; [reflexivity|]. split; [reflexivity|].
  exact (proj1 (replay_block_writes 0 example_replay_state st' _ ev eq_refl E)).
Defined.

Lemma thresholds_below_72_with_nan_witness :
  Forall (fun matrix : list float =>
            length matrix = 8%nat
            /\ Forall (fun m => valid m = true
                                /\ (is_nan m = true \/ fle m (of_Z 100) = true))
                 matrix)
    [replicate 8 (of_Z 100); replicate 8 S754_nan]
  /\ exists st,
       controller_run [replicate 8 (of_Z 100); replicate 8 S754_nan] state_init
         = Some st
       /\ Forall (fun t => flt t (of_Z 72) = true /\ fgt t fzero = true) (limit st).
Proof.
  assert (H : Forall (fun matrix : list float =>
                        length matrix = 8%nat
                        /\ Forall (fun m => valid m = true
                                            /\ (is_nan m = true
                                                \/ fle m (of_Z 100) = true))
                             matrix)
                [replicate 8 (of_Z 100); replicate 8 S754_nan]).
  { constructor; [|constructor; [|constructor]].
    - split; [reflexivity|]. repeat constructor; right; reflexivity.
    - split; [reflexivity|]. repeat constructor; left; reflexivity. }
  split; [exact H|].
  exact (thresholds_below_72_with_nan _ H).
Defined.

Lemma rewritten_playlist_is_accepted_witness :
  exists out,
    choose_song elements pick_first example_playlist
      = Some ("/music/b.mp3"%string, Some out)
    /\ is_Some (choose_song elements pick_first out).
Proof.
  destruct (choose_song elements pick_first example_playlist)
    as [[file [out|]]|] eqn:E; try (vm_compute in E; discriminate E).
  assert (file = "/music/b.mp3"%string) as ->
    by (vm_compute in E; congruence).
  exists out. split; [reflexivity|].
  exact (proj2 (proj2 (rewritten_playlist_is_accepted elements pick_first
                         pick_first_range example_playlist _ out E))).
Defined.


Lemma calculate_levels_defined_witness :
  example_block <> EmptyString
  /\ calculate_levels example_rfft_abs sum_left example_block 0 = None
  /\ calculate_levels example_rfft_abs sum_left "abc" 44100 = None
  /\ exists levels,
       calculate_levels example_rfft_abs sum_left example_block 44100
         = Some levels
       /\ length levels = 8%nat.
Proof.
  assert (Hne : example_block <> EmptyString) by discriminate.
  assert (Hne3 : "abc"%string <> EmptyString) by discriminate.
  split; [exact Hne|]. split; [|split].
  - apply (proj1 (calculate_levels_defined example_rfft_abs sum_left
                    example_block 0 Hne)).
    right. reflexivity.
  - apply (proj1 (calculate_levels_defined example_rfft_abs sum_left
                    "abc" 44100 Hne3)).
    left. reflexivity.
  - destruct (calculate_levels example_rfft_abs sum_left example_block 44100)
      as [levels|] eqn:E; [|vm_compute in E; discriminate E].
    exists levels. split; [reflexivity|].
    exact (proj1 (proj2 (calculate_levels_defined example_rfft_abs sum_left
                           example_block 44100 Hne) levels E)).
Defined.

Lemma marked_roundtrip (s : string) : marked_read (marked_write s) = (s, true).
Proof. reflexivity. Defined.

(** C1, where the script breaks it.  The cache file of the song was cut
    short after one row, so that its reader gives that row and then
    fails with an IOError.  The first run takes the load for a missing
    cache ([cache_found] stays false) but keeps the row read in [cache]
    (line 175): it runs in fresh mode, puts its own two rows after the
    stale one and stores the three of them.  The second run, over the
    same two blocks, is a replay without any call of [calculate_levels],
    but what it writes to the pins is not what the first run wrote: its
    first block shows the stale row, its second block the row the first
    run made for its first block. *)
Theorem stale_rows_break_replay :
  load_cache marked_read example_cut_cache "/home/pi/music/a.wav"
    = ([["0"; "1"; "1"; "0"; "0"; "0"; "0"; "0"]%string], false)
  /\ exists o1 o2,
       play example_loud_rfft_abs sum_left marked_write marked_read
         "/home/pi/music/a.wav" 44100 [example_block; example_block]
         example_cut_cache = Some o1
       /\ out_found o1 = false
       /\ cache (out_state o1)
          = [["0"; "1"; "1"; "0"; "0"; "0"; "0"; "0"];
             ["1"; "0"; "0"; "0"; "0"; "0"; "0"; "0"];
             ["1"; "0"; "0"; "0"; "0"; "0"; "0"; "0"]]%string
       /\ gpio_writes <$> out_blocks o1
          = [[(11, true); (12, false); (13, false); (15, false);
              (16, false); (18, false); (22, false); (7, false)];
             [(11, true); (12, false); (13, false); (15, false);
              (16, false); (18, false); (22, false); (7, false)]]
       /\ play example_loud_rfft_abs sum_left marked_write marked_read
            "/home/pi/music/a.wav" 44100 [example_block; example_block]
            (out_fs o1) = Some o2
       /\ out_found o2 = true
       /\ fft_calls (out_state o2) = 0%nat
       /\ gpio_writes <$> out_blocks o2
          = [[(11, false); (12, true); (13, true); (15, false);
              (16, false); (18, false); (22, false); (7, false)];
             [(11, true); (12, false); (13, false); (15, false);
              (16, false); (18, false); (22, false); (7, false)]]
       /\ gpio_writes <$> out_blocks o2 <> gpio_writes <$> out_blocks o1.
Proof.
  split; [reflexivity|].
  destruct (play example_loud_rfft_abs sum_left marked_write marked_read
              "/home/pi/music/a.wav" 44100 [example_block; example_block]
              example_cut_cache) as [o1|] eqn:E1;
    [|vm_compute in E1; discriminate E1].
  destruct (play example_loud_rfft_abs sum_left marked_write marked_read
              "/home/pi/music/a.wav" 44100 [example_block; example_block]
              (out_fs o1)) as [o2|] eqn:E2.
  - exists o1, o2.
    assert (H1 : out_found o1 = false
                 /\ cache (out_state o1)
                    = [["0"; "1"; "1"; "0"; "0"; "0"; "0"; "0"];
                       ["1"; "0"; "0"; "0"; "0"; "0"; "0"; "0"];
                       ["1"; "0"; "0"; "0"; "0"; "0"; "0"; "0"]]%string
                 /\ gpio_writes <$> out_blocks o1
                    = [[(11, true); (12, false); (13, false); (15, false);
                        (16, false); (18, false); (22, false); (7, false)];
                       [(11, true); (12, false); (13, false); (15, false);
                        (16, false); (18, false); (22, false); (7, false)]]).
    { vm_compute in E1. injection E1 as <-. repeat split; reflexivity. }
    assert (H2 : out_found o2 = true
                 /\ fft_calls (out_state o2) = 0%nat
                 /\ gpio_writes <$> out_blocks o2
                    = [[(11, false); (12, true); (13, true); (15, false);
                        (16, false); (18, false); (22, false); (7, false)];
                       [(11, true); (12, false); (13, false); (15, false);
                        (16, false); (18, false); (22, false); (7, false)]]).
    { vm_compute in E1. injection E1 as <-.
      vm_compute in E2. injection E2 as <-. repeat split; reflexivity. }
    destruct H1 as (Hf1 & Hc1 & Hw1). destruct H2 as (Hf2 & Hn2 & Hw2).
    split; [reflexivity|]. split; [exact Hf1|]. split; [exact Hc1|].
    split; [exact Hw1|]. split; [exact E2|]. split; [exact Hf2|].
    split; [exact Hn2|]. split; [exact Hw2|].
    rewrite Hw1, Hw2. discriminate.
  - exfalso. vm_compute in E1. injection E1 as <-.
    vm_compute in E2. discriminate E2.
Qed.
